(** * Cil-core: the node networking core ([src/node/node.js])

    A shallow embedding of the message dispatcher of class [Node], of its
    handshake, address-gossip and transaction handlers, of the inbound
    connection path and of the DNS query of bootstrap, together with the
    theorems that settle the catalogue of properties C1..C10 of the
    specification.

    [Node] is produced by a factory: [Transport], [Messages], [Peer],
    [PeerManager], [Storage] and [Crypto] are injected.  The classes that the
    handlers call into are embedded below from their description in the
    specification (each such definition says so); values that the factory
    injects and that no file fixes ([REJECT_DUPLICATE], [Crypto.address]) are
    section variables.  JavaScript objects live in a store indexed by
    reference, so that the peer handed to a handler and the peer reachable
    through the address book are one object. *)

From stdpp Require Import gmap strings list fin_maps pretty.
From Stdlib Require Import ZArith Lia Sorted.

Open Scope Z_scope.

(* ===================================================================== *)
(** ** Constants ([src/config/prod.conf.js]) *)
(* ===================================================================== *)

Module Constants.

Definition protocolVersion : Z := 0x0123.
Definition port : Z := 8223.

(** How many peers we'll send in one 'addr' message *)
Definition ADDR_MAX_LENGTH : Z := 1000.

Definition MAX_PEERS : Z := 10.
Definition MIN_PEERS : Z := 3.

(** milliseconds *)
Definition PEER_QUERY_TIMEOUT : Z := 30000.
Definition CONNECTION_TIMEOUT : Z := 60000.

Definition BAN_PEER_SCORE : Z := 100.
Definition BAN_PEER_TIME : Z := 24 * 60 * 60 * 1000.

Definition MEMPOOL_TX_QTY : Z := 500.

(** [Constants.messageTypes] *)
Inductive MessageType :=
| MSG_VERSION | MSG_VERACK | MSG_GET_ADDR | MSG_ADDR | MSG_REJECT
| MSG_BLOCK | MSG_TX | MSG_INV | MSG_GET_DATA | MSG_GET_BLOCKS
| MSG_PING | MSG_PONG
| MSG_WITNESS_HANDSHAKE | MSG_WITNESS_NEXT_ROUND | MSG_WITNESS_EXPOSE
| MSG_WITNESS_BLOCK | MSG_WITNESS_BLOCK_VOTE.

#[global] Instance MessageType_eq_dec : EqDecision MessageType.
Proof. solve_decision. Defined.

(** The string each tag stands for. *)
Definition tag (t : MessageType) : string :=
  match t with
  | MSG_VERSION => "version" | MSG_VERACK => "verack"
  | MSG_GET_ADDR => "getaddr" | MSG_ADDR => "addr"
  | MSG_REJECT => "reject" | MSG_BLOCK => "block" | MSG_TX => "tx"
  | MSG_INV => "inv" | MSG_GET_DATA => "getdata"
  | MSG_GET_BLOCKS => "getblocks" | MSG_PING => "ping" | MSG_PONG => "pong"
  | MSG_WITNESS_HANDSHAKE => "w_handshake"
  | MSG_WITNESS_NEXT_ROUND => "w_nextround"
  | MSG_WITNESS_EXPOSE => "w_expose" | MSG_WITNESS_BLOCK => "w_block"
  | MSG_WITNESS_BLOCK_VOTE => "w_block_vote"
  end.

End Constants.

(* ===================================================================== *)
(** ** Wire data ([src/proto/structures.proto] and the [Messages] classes) *)
(* ===================================================================== *)

(** Canonical string form of a network address ([Transport.addressToString]);
    it is the identity key of the address book. *)
Abbreviation Address := string.

(** Hex-encoded public key, as the tests write them. *)
Abbreviation PublicKey := string.

Module Messages.
Import Constants.

(** A capability is a pair (service kind, opaque data). *)
Record Capability := { service : Z; data : option string }.

(** [PeerInfo]: the descriptor a peer advertises. *)
Record PeerInfo := {
  capabilities : list Capability;
  address : Address;
  port : Z
}.

(** [message input] *)
Record input := { txHash : string; nTxOutput : Z }.

(** [message output] *)
Record output := { amount : Z; receiverAddr : string }.

(** [message TransactionPayload] *)
Record TransactionPayload := {
  version : Z;
  conciliumId : Z;
  ins : list input;
  outs : list output
}.

(** [message Transaction], as the class [Transaction] presents it to the
    node: [publicKey] is the signer's key, read by [_checkTx]. *)
Record Transaction := {
  payload : TransactionPayload;
  claimProofs : list string;
  publicKey : PublicKey
}.

(** Payload of a 'version' message. *)
Record VersionPayload := {
  nonce : Z;
  protocolVersion : Z;
  peerInfo : PeerInfo;
  height : Z
}.

(** Modelled from the spec: the classes of [Messages] are not under src/.
    A decoded message: [MsgCommon t] is the bare envelope with tag [t]
    and no typed payload: it is what the node itself builds for 'verack'
    and 'getaddr', and it stands for every kind whose payload the node
    never opens (block, inv, ping, ...).  The other constructors are the
    typed messages of [Messages]. *)
Inductive Message :=
| MsgCommon (t : MessageType)
| MsgVersion (v : VersionPayload)
| MsgAddr (count : Z) (peers : list PeerInfo)
| MsgReject (code : Z) (reason : string)
| MsgTx (tx : Transaction).

(** [message.message]: the type tag. *)
Definition message (m : Message) : MessageType :=
  match m with
  | MsgCommon t => t
  | MsgVersion _ => MSG_VERSION
  | MsgAddr _ _ => MSG_ADDR
  | MsgReject _ _ => MSG_REJECT
  | MsgTx _ => MSG_TX
  end.

Definition isReject (m : Message) : bool := bool_decide (message m = MSG_REJECT).
Definition isVersion (m : Message) : bool := bool_decide (message m = MSG_VERSION).
Definition isVerAck (m : Message) : bool := bool_decide (message m = MSG_VERACK).
Definition isGetAddr (m : Message) : bool := bool_decide (message m = MSG_GET_ADDR).
Definition isAddr (m : Message) : bool := bool_decide (message m = MSG_ADDR).
Definition isTx (m : Message) : bool := bool_decide (message m = MSG_TX).

#[global] Instance Capability_eq_dec : EqDecision Capability.
Proof. solve_decision. Defined.
#[global] Instance PeerInfo_eq_dec : EqDecision PeerInfo.
Proof. solve_decision. Defined.
#[global] Instance input_eq_dec : EqDecision input.
Proof. solve_decision. Defined.
#[global] Instance output_eq_dec : EqDecision output.
Proof. solve_decision. Defined.
#[global] Instance TransactionPayload_eq_dec : EqDecision TransactionPayload.
Proof. solve_decision. Defined.
#[global] Instance Transaction_eq_dec : EqDecision Transaction.
Proof. solve_decision. Defined.
#[global] Instance VersionPayload_eq_dec : EqDecision VersionPayload.
Proof. solve_decision. Defined.
#[global] Instance Message_eq_dec : EqDecision Message.
Proof. solve_decision. Defined.

End Messages.

(* ===================================================================== *)
(** ** Peer *)
(* ===================================================================== *)

Module Peer.
Import Constants Messages.

(** Modelled from the spec: class [Peer] is not under src/.  The fields
    are those of the data model (section 3); [connected] says that the
    underlying connection is present and open, [outbox] is the send queue
    that [pushMessage] feeds, oldest message first. *)
Record t := Build {
  peerInfo : PeerInfo;
  address : Address;
  connected : bool;
  inbound : bool;
  version : option Z;
  fullyConnected : bool;
  misbehaviorScore : Z;
  bannedUntil : option Z;
  loadDone : bool;
  outbox : list Message
}.

#[global] Instance t_eq_dec : EqDecision t.
Proof. solve_decision. Defined.

Definition disconnected (p : t) : bool := negb (connected p).

(** The test [if (peer.version)] of the source: a version is set when the
    field holds a number other than 0. *)
Definition versionSet (p : t) : bool :=
  match version p with
  | Some v => negb (v =? 0)
  | None => false
  end.

Definition set_peerInfo (i : PeerInfo) (p : t) : t :=
  Build i (address p) (connected p) (inbound p) (version p)
    (fullyConnected p) (misbehaviorScore p) (bannedUntil p) (loadDone p)
    (outbox p).

Definition set_connected (b : bool) (p : t) : t :=
  Build (peerInfo p) (address p) b (inbound p) (version p)
    (fullyConnected p) (misbehaviorScore p) (bannedUntil p) (loadDone p)
    (outbox p).

Definition set_version (v : option Z) (p : t) : t :=
  Build (peerInfo p) (address p) (connected p) (inbound p) v
    (fullyConnected p) (misbehaviorScore p) (bannedUntil p) (loadDone p)
    (outbox p).

Definition set_fullyConnected (b : bool) (p : t) : t :=
  Build (peerInfo p) (address p) (connected p) (inbound p) (version p)
    b (misbehaviorScore p) (bannedUntil p) (loadDone p) (outbox p).

Definition set_misbehaviorScore (s : Z) (p : t) : t :=
  Build (peerInfo p) (address p) (connected p) (inbound p) (version p)
    (fullyConnected p) s (bannedUntil p) (loadDone p) (outbox p).

Definition set_bannedUntil (d : option Z) (p : t) : t :=
  Build (peerInfo p) (address p) (connected p) (inbound p) (version p)
    (fullyConnected p) (misbehaviorScore p) d (loadDone p) (outbox p).

Definition set_loadDone (b : bool) (p : t) : t :=
  Build (peerInfo p) (address p) (connected p) (inbound p) (version p)
    (fullyConnected p) (misbehaviorScore p) (bannedUntil p) b (outbox p).

Definition set_outbox (q : list Message) (p : t) : t :=
  Build (peerInfo p) (address p) (connected p) (inbound p) (version p)
    (fullyConnected p) (misbehaviorScore p) (bannedUntil p) (loadDone p) q.

(** Modelled from the spec: [disconnect()] closes the connection. *)
Definition disconnect (p : t) : t := set_connected false p.

(** Modelled from the spec: [ban()] moves the peer to BANNED at once: the
    ban lasts [BAN_PEER_TIME] from now and the connection is closed. *)
Definition ban (now : Z) (p : t) : t :=
  disconnect (set_bannedUntil (Some (now + BAN_PEER_TIME)) p).

(** Modelled from the spec: [misbehave(points)] adds to the score; if the
    score is then at least [BAN_PEER_SCORE] it sets
    [bannedUntil = now + BAN_PEER_TIME] and closes the connection. *)
Definition misbehave (now points : Z) (p : t) : t :=
  let p' := set_misbehaviorScore (misbehaviorScore p + points) p in
  if BAN_PEER_SCORE <=? misbehaviorScore p' then ban now p' else p'.

(** Modelled from the spec: [pushMessage(m)] enqueues a send; the order
    of the queue is the order of the calls. *)
Definition pushMessage (m : Message) (p : t) : t :=
  set_outbox (outbox p ++ [m]) p.

(** Modelled from the spec: [loaded()] is a latch that completes when
    [loadDone] becomes true (or on timeout); [loaded p] says that the
    latch is open without waiting for the timeout. *)
Definition loaded (p : t) : bool := loadDone p.

(** Modelled from the spec: [new Peer({connection, transport})] is the
    peer of an accepted connection, before any message from it: inbound,
    connected, known by the remote address only, with no version, a score
    of 0 and an empty queue. *)
Definition ofConnection (remoteAddress : Address) : t :=
  Build {| capabilities := []; Messages.address := remoteAddress;
           port := Constants.port |}
    remoteAddress true true None false 0 None false [].

(** Modelled from the spec: [new Peer({peerInfo})] is a peer known by its
    descriptor only, not connected, to be dialled by the node. *)
Definition ofPeerInfo (i : PeerInfo) : t :=
  Build i (Messages.address i) false false None false 0 None false [].

End Peer.

(* ===================================================================== *)
(** ** The store, the trace of calls and the handler monad *)
(* ===================================================================== *)

(** A reference to a [Peer] object. *)
Abbreviation PeerRef := nat.

Inductive LogLevel := LOG | ERROR.

(** What the node asks of its collaborators, in the order it asks. *)
Inductive Event :=
| EvPush (r : PeerRef) (m : Messages.Message)
| EvMisbehave (r : PeerRef) (points : Z)
| EvBan (r : PeerRef)
| EvDisconnect (r : PeerRef)
| EvUpdateHandlers (r : PeerRef)
| EvRelay (tx : Messages.Transaction)
| EvLog (level : LogLevel) (text : string).

#[global] Instance LogLevel_eq_dec : EqDecision LogLevel.
Proof. solve_decision. Defined.
#[global] Instance Event_eq_dec : EqDecision Event.
Proof. solve_decision. Defined.

(** The mutable world the handlers run in. *)
Record World := MkWorld {
  peers : gmap PeerRef Peer.t;           (* the Peer objects, by reference *)
  nextRef : PeerRef;                     (* next fresh reference *)
  book : gmap Address PeerRef;           (* PeerManager: address -> Peer *)
  mempool : list Messages.Transaction;   (* pool of transactions; class Node never reaches it *)
  trace : list Event;                    (* calls made so far, oldest first *)
  now : Z                                (* wall clock, milliseconds *)
}.

Definition set_peers (f : gmap PeerRef Peer.t -> gmap PeerRef Peer.t) (w : World) : World :=
  MkWorld (f (peers w)) (nextRef w) (book w) (mempool w) (trace w) (now w).

Definition set_book (f : gmap Address PeerRef -> gmap Address PeerRef) (w : World) : World :=
  MkWorld (peers w) (nextRef w) (f (book w)) (mempool w) (trace w) (now w).

Definition emit (e : Event) (w : World) : World :=
  MkWorld (peers w) (nextRef w) (book w) (mempool w) (trace w ++ [e]) (now w).

(** Time passes while the node waits. *)
Definition set_now (t : Z) (w : World) : World :=
  MkWorld (peers w) (nextRef w) (book w) (mempool w) (trace w) t.

(** A JavaScript exception: its class and its [message]. *)
Inductive JsError :=
| Error (msg : string)
| TypeError (msg : string).

Definition err_message (e : JsError) : string :=
  match e with Error m | TypeError m => m end.

(** How a computation ends: with a value, or by throwing. *)
Inductive Completion (A : Type) :=
| Normal (a : A)
| Throw (e : JsError).
Arguments Normal {A} a.
Arguments Throw {A} e.

(** A handler: it may change the world and may throw; what it changed
    before throwing stays changed. *)
Definition M (A : Type) : Type := World -> Completion A * World.

Definition ret {A} (a : A) : M A := fun w => (Normal a, w).

Definition bind {A B} (c : M A) (k : A -> M B) : M B :=
  fun w =>
    match c w with
    | (Normal a, w') => k a w'
    | (Throw e, w') => (Throw e, w')
    end.

Definition throw {A} (e : JsError) : M A := fun w => (Throw e, w).

(** [try { c } catch (err) { h err }] *)
Definition try_catch {A} (c : M A) (h : JsError -> M A) : M A :=
  fun w =>
    match c w with
    | (Normal a, w') => (Normal a, w')
    | (Throw e, w') => h e w'
    end.

Definition get : M World := fun w => (Normal w, w).
Definition modify (f : World -> World) : M unit := fun w => (Normal tt, f w).

Declare Scope js_scope.
Delimit Scope js_scope with js.
Notation "x <- c ;; k" := (bind c (fun x => k))
  (at level 100, c at next level, right associativity) : js_scope.
Notation "c ;; k" := (bind c (fun _ => k))
  (at level 100, right associativity) : js_scope.
Open Scope js_scope.

(** Calls to the global [logger].  The texts are those of the source,
    without the quotation marks of its template strings; a peer is named
    by its address. *)
Definition logger (level : LogLevel) (text : string) : M unit :=
  modify (emit (EvLog level text)).

(** Dereference a peer; a dangling reference is a [TypeError]. *)
Definition peer (r : PeerRef) : M Peer.t :=
  w <- get ;;
  match peers w !! r with
  | Some p => ret p
  | None => throw (TypeError "Cannot read property of undefined")
  end.

(** Call a method of the peer object [r]: the object is updated in place
    and the call is recorded. *)
Definition call (r : PeerRef) (f : Peer.t -> Peer.t) (e : Event) : M unit :=
  p <- peer r ;;
  modify (fun w => emit e (set_peers <[r := f p]> w)).

(** Assign a field of the peer object [r]. *)
Definition assign (r : PeerRef) (f : Peer.t -> Peer.t) : M unit :=
  p <- peer r ;;
  modify (set_peers <[r := f p]>).

Definition misbehave (r : PeerRef) (points : Z) : M unit :=
  w <- get ;;
  call r (Peer.misbehave (now w) points) (EvMisbehave r points).

Definition ban (r : PeerRef) : M unit :=
  w <- get ;;
  call r (Peer.ban (now w)) (EvBan r).

Definition pushMessage (r : PeerRef) (m : Messages.Message) : M unit :=
  call r (Peer.pushMessage m) (EvPush r m).

Definition disconnect (r : PeerRef) : M unit :=
  call r Peer.disconnect (EvDisconnect r).

(** [new Peer({connection, transport})]: a fresh object in the store. *)
Definition newPeer (remoteAddress : Address) : M PeerRef :=
  w <- get ;;
  let r := nextRef w in
  modify (fun w =>
    MkWorld (<[r := Peer.ofConnection remoteAddress]> (peers w)) (S r)
      (book w) (mempool w) (trace w) (now w)) ;;
  ret r.

(** [for (let x of l) { f x }] and [l.map(f)] for an [f] that reads the
    store. *)
Fixpoint forEach {A} (f : A -> M unit) (l : list A) : M unit :=
  match l with
  | [] => ret tt
  | x :: l' => f x ;; forEach f l'
  end.

Fixpoint mapM {A B} (f : A -> M B) (l : list A) : M (list B) :=
  match l with
  | [] => ret []
  | x :: l' => y <- f x ;; ys <- mapM f l' ;; ret (y :: ys)
  end.

(* ===================================================================== *)
(** ** PeerManager *)
(* ===================================================================== *)

Module PeerManager.
Import Constants Messages.

(** Modelled from the spec: merging the capabilities of a [PeerInfo]
    update appends those that the stored descriptor lacks. *)
Definition mergeCapabilities (extra : PeerInfo) (p : Peer.t) : Peer.t :=
  let known := capabilities (Peer.peerInfo p) in
  let fresh := filter (fun c => c ∉ known) (capabilities extra) in
  Peer.set_peerInfo
    {| capabilities := known ++ fresh;
       address := address (Peer.peerInfo p);
       port := port (Peer.peerInfo p) |} p.

(** Modelled from the spec: class [PeerManager] is not under src/.
    [addPeer(record)] takes a live [Peer] (inbound path) or a bare
    [PeerInfo] (gossip path), keyed by canonical address:
    - key absent: insert, return the stored peer;
    - key present, the incoming record is a live connection colliding with
      an existing live connection: return undefined ([None]);
    - key present, the incoming record is a [PeerInfo]: merge capabilities,
      leave the connection alone, return the stored peer.
    A [Peer] that meets an entry without a live connection replaces it
    (the book keeps the fresher record). *)
Definition addPeer (record : PeerRef + PeerInfo) : M (option PeerRef) :=
  match record with
  | inl r =>
      p <- peer r ;;
      w <- get ;;
      match book w !! Peer.address p with
      | None =>
          modify (set_book <[Peer.address p := r]>) ;;
          ret (Some r)
      | Some r0 =>
          p0 <- peer r0 ;;
          if Peer.connected p && Peer.connected p0 then ret None
          else
            modify (set_book <[Peer.address p := r]>) ;;
            ret (Some r)
      end
  | inr info =>
      w <- get ;;
      match book w !! address info with
      | None =>
          let r := nextRef w in
          modify (fun w =>
            MkWorld (<[r := Peer.ofPeerInfo info]> (peers w)) (S r)
              (<[address info := r]> (book w)) (mempool w) (trace w) (now w)) ;;
          ret (Some r)
      | Some r0 =>
          assign r0 (mergeCapabilities info) ;;
          ret (Some r0)
      end
  end.

(** Modelled from the spec: a peer matches [{service: s}] when one of its
    capabilities has that service kind. *)
Definition hasService (s : Z) (p : Peer.t) : bool :=
  existsb (fun c => service c =? s) (capabilities (Peer.peerInfo p)).

(** Modelled from the spec: [filterPeers(predicate)] returns all peers of
    the book whose capability set matches [{service: s}]; with no
    predicate it returns all of them. *)
Definition filterPeers (predicate : option Z) : M (list PeerRef) :=
  w <- get ;;
  let all := (map_to_list (book w)).*2 in
  match predicate with
  | None => ret all
  | Some s =>
      ps <- mapM (fun r => p <- peer r ;; ret (r, p)) all ;;
      ret (filter (fun rp => hasService s rp.2) ps).*1
  end.

(** Modelled from the spec: [updateHandlers(peer)] re-binds the message
    subscriptions of an inbound peer; it changes no field. *)
Definition updateHandlers (r : PeerRef) : M unit :=
  call r id (EvUpdateHandlers r).

End PeerManager.

(* ===================================================================== *)
(** ** Node ([src/node/node.js]) *)
(* ===================================================================== *)

Module Node.
Import Constants Messages.

Section WithFactory.

(** Injected by the factory and fixed by no file under src/. *)
Variable REJECT_DUPLICATE : Z.

(** What Storage keeps for an account; the node only tests its presence. *)
Variable Account : Type.

(** [Crypto.address(publicKey)], a pure function. *)
Variable Crypto_address : PublicKey -> Address.

(** [this._storage]: [getAccount] answers with an account, with nothing
    (a falsy result) or by throwing. *)
Record Storage := {
  getAccount : Address -> Completion (option Account)
}.

(** The fields of [this] that the handlers read. *)
Record t := {
  _storage : Storage;
  _nonce : Z;
  _mainChain : Z;
  _myPeerInfo : PeerInfo
}.

(** Run a call into a collaborator that answers or throws, leaving the
    world as it is. *)
Definition lift {A} (c : Completion A) : M A := fun w => (c, w).

(** Modelled from the spec: the classes of [Messages] are not under src/.
    [new MsgReject(message)], [new MsgVersion(message)],
    [new MsgAddr(message)], [new MsgTx(message)] read a message as the
    typed message of its tag; an envelope without that payload does not
    decode (the codec's DecodeFailure). *)
Definition asReject (m : Message) : M (Z * string) :=
  match m with
  | MsgReject code reason => ret (code, reason)
  | _ => throw (Error "Wrong message type")
  end.

Definition asVersion (m : Message) : M VersionPayload :=
  match m with
  | MsgVersion v => ret v
  | _ => throw (Error "Wrong message type")
  end.

Definition asAddr (m : Message) : M (list PeerInfo) :=
  match m with
  | MsgAddr _ l => ret l
  | _ => throw (Error "Wrong message type")
  end.

Definition asTx (m : Message) : M Transaction :=
  match m with
  | MsgTx tx => ret tx
  | _ => throw (Error "Wrong message type")
  end.

Definition _createMsgVersion (this : t) : Message :=
  MsgVersion {| nonce := _nonce this;
                protocolVersion := Constants.protocolVersion;
                peerInfo := _myPeerInfo this;
                height := _mainChain this |}.

(** [async _incomingConnection(connection)] *)
Definition _incomingConnection (this : t) (remoteAddress : Address) : M unit :=
  try_catch
    (peerNew <- newPeer remoteAddress ;;
     result <- PeerManager.addPeer (inl peerNew) ;;
     match result with
     | Some _ => ret tt
     | None =>
         (* peer already connected *)
         let message :=
           MsgReject REJECT_DUPLICATE "Duplicate connection detected" in
         pushMessage peerNew message ;;
         disconnect peerNew
     end)
    (fun err => logger ERROR (err_message err)).

(** [async _checkTx(tx)] *)
Definition _checkTx (this : t) (tx : Transaction) : M unit :=
  let senderAddr := Crypto_address (publicKey tx) in
  result <- lift (getAccount (_storage this) senderAddr) ;;
  match result with
  | None => throw (Error "Account doesn't found")
  | Some _ => ret tt
  end.

(** [async _handleTx(peer, message)].  The constructor assigns no
    [_mempool] and the class has no method [_relayTx]: once [_checkTx] has
    passed, reading [this._mempool.accept] is a [TypeError] (the text is
    the engine's), and the call of [this._relayTx] behind it is never
    reached. *)
Definition _handleTx (this : t) (r : PeerRef) (message : Message) : M unit :=
  tx <- asTx message ;;
  _checkTx this tx ;;
  throw (TypeError "Cannot read property 'accept' of undefined").

(** [async _handleVersionMessage(peer, message)] *)
Definition _handleVersionMessage (this : t) (r : PeerRef) (message : Message)
  : M unit :=
  message <- asVersion message ;;
  (* we connected to self *)
  if nonce message =? _nonce this then
    ban r
  else if Constants.protocolVersion <=? protocolVersion message then
    p <- peer r ;;
    if negb (Peer.versionSet p) then
      assign r (Peer.set_version (Some (protocolVersion message))) ;;
      (* very beginning of inbound connection *)
      (if Peer.inbound p then
         assign r (Peer.set_peerInfo (peerInfo message)) ;;
         PeerManager.updateHandlers r ;;
         (* send own version *)
         pushMessage r (_createMsgVersion this)
       else ret tt) ;;
      pushMessage r (MsgCommon MSG_VERACK)
    else
      (* we are already have it's version *)
      misbehave r 1
  else
    disconnect r.

(** [async _handleVerackMessage(peer)] *)
Definition _handleVerackMessage (r : PeerRef) : M unit :=
  p <- peer r ;;
  if Peer.versionSet p then
    assign r (Peer.set_fullyConnected true) ;;
    (* if we initiated connection to peer, so let's ask for known peers *)
    if negb (Peer.inbound p) then
      pushMessage r (MsgCommon MSG_GET_ADDR)
    else ret tt
  else ret tt.

(** [async _handlePeerRequest(peer)] *)
Definition _handlePeerRequest (r : PeerRef) : M unit :=
  known <- PeerManager.filterPeers None ;;
  arrPeers <- mapM (fun r' => p <- peer r' ;; ret (Peer.peerInfo p)) known ;;
  (if ADDR_MAX_LENGTH <? Z.of_nat (length arrPeers) then
     logger ERROR "Its time to implement multiple addr messages"
   else ret tt) ;;
  pushMessage r (MsgAddr (Z.of_nat (length arrPeers)) arrPeers).

(** [async _handlePeerList(peer, message)] *)
Definition _handlePeerList (r : PeerRef) (message : Message) : M unit :=
  message <- asAddr message ;;
  forEach (fun peerInfo =>
             added <- PeerManager.addPeer (inr peerInfo) ;;
             (* the debug line reads [newPeer.address] *)
             match added with
             | Some _ => ret tt
             | None => throw (TypeError "Cannot read property 'address' of undefined")
             end) message ;;
  assign r (Peer.set_loadDone true).

(** The [try] block of [_incomingMessage]. *)
Definition dispatch (this : t) (r : PeerRef) (message : Message) : M unit :=
  if isReject message then
    rejectMsg <- asReject message ;;
    p <- peer r ;;
    (* connection will be closed by other end *)
    logger LOG ("Peer: " +:+ Peer.address p +:+ " rejection reason: "
                +:+ rejectMsg.2) ;;
    (* if it's just collision - 1 point not too much, but if peer is
       malicious - it will raise to ban *)
    misbehave r 1 ;;
    assign r (Peer.set_loadDone true)
  else if isVersion message then
    _handleVersionMessage this r message
  else if isVerAck message then
    _handleVerackMessage r
  else
    p <- peer r ;;
    if negb (Peer.fullyConnected p) then
      logger ERROR ("Peer " +:+ Peer.address p
                    +:+ " missed version handshake stage") ;;
      misbehave r 1
    else if isGetAddr message then
      _handlePeerRequest r
    else if isAddr message then
      _handlePeerList r message
    else if isTx message then
      _handleTx this r message
    else
      throw (Error ("Unhandled message type " +:+ tag (Messages.message message))).

(** The [catch] block of [_incomingMessage]. *)
Definition on_error (r : PeerRef) (err : JsError) : M unit :=
  p <- peer r ;;
  logger ERROR (err_message err +:+ " Peer " +:+ Peer.address p +:+ ".") ;;
  misbehave r 1.

(** [async _incomingMessage(peer, message)] *)
Definition _incomingMessage (this : t) (r : PeerRef) (message : Message)
  : M unit :=
  try_catch (dispatch this r message) (on_error r).

(** Service kinds, injected by the factory and fixed by no file under
    src/. *)
Variable NODE : Z.
Variable WITNESS : Z.

(** [_findBestPeers()] *)
Definition _findBestPeers : M (list PeerRef) :=
  (* we prefer witness nodes *)
  arrWitnessNodes <- PeerManager.filterPeers (Some WITNESS) ;;
  if negb (length arrWitnessNodes =? 0)%nat then ret arrWitnessNodes
  else
    (* but if there is no such - use any nodes *)
    PeerManager.filterPeers (Some NODE).

End WithFactory.

Arguments getAccount {Account} _ _.
Arguments _storage {Account} _.
Arguments _nonce {Account} _.
Arguments _mainChain {Account} _.
Arguments _myPeerInfo {Account} _.
Arguments _createMsgVersion {Account} this.
Arguments _incomingConnection REJECT_DUPLICATE {Account} this remoteAddress.
Arguments _checkTx {Account} Crypto_address this tx.
Arguments _handleTx {Account} Crypto_address this r message.
Arguments _handleVersionMessage {Account} this r message.
Arguments dispatch {Account} Crypto_address this r message.
Arguments _incomingMessage {Account} Crypto_address this r message.

(** *** The DNS query of [bootstrap] *)

(** How the promise of one [Transport.resolveName(name)] ends. *)
Inductive Settlement :=
| Fulfilled (arrAddresses : list Address)
| Rejected (err : JsError).

(** Modelled from the spec: [Transport.resolveName(name)] is not under
    src/; it performs a DNS-like query that answers with a sequence of
    addresses or fails.  Its promise settles [delay] milliseconds after
    the call, or never ([None]). *)
Definition Resolver : Type := option (N * Settlement).

(** The constructor:
    [this._queryTimeout = queryTimeout || Constants.PEER_QUERY_TIMEOUT],
    for an option that is absent or a number of milliseconds. *)
Definition queryTimeout_or_default (queryTimeout : option Z) : Z :=
  match queryTimeout with
  | Some ms => if ms =? 0 then PEER_QUERY_TIMEOUT else ms
  | None => PEER_QUERY_TIMEOUT
  end.

Section WithTransport.

(** [Transport.resolveName], as the network answers the call number [i]
    of one query. *)
Variable Transport_resolveName : nat -> string -> Resolver.

(** [this._queryTimeout], in milliseconds. *)
Variable _queryTimeout : Z.

(** The callbacks chained on the promise of a resolver:
    [.then(arrAddresses => { arrResult = arrResult.concat(arrAddresses) })]
    and [.catch(err => logger.error(err))].  The chained promise is always
    fulfilled. *)
Definition settle (arrResult : list Address) (s : Settlement)
  : M (list Address) :=
  match s with
  | Fulfilled arrAddresses => ret (arrResult ++ arrAddresses)
  | Rejected err => logger ERROR (err_message err) ;; ret arrResult
  end.

(** Modelled from the spec: [sleep(ms)] of ../utils is not under src/; it
    is a promise that a timer fulfils after [ms] milliseconds.  A resolver
    has settled before the timer when its delay is smaller. *)
Definition before_timer (p : N * Settlement) : bool :=
  Z.of_N p.1 <? _queryTimeout.

(** The event loop runs the callbacks in the order in which the promises
    settle; resolvers that settle in the same millisecond are taken in the
    order of the seeds. *)
Fixpoint enqueue (x : N * Settlement) (queue : list (N * Settlement))
  : list (N * Settlement) :=
  match queue with
  | [] => [x]
  | y :: queue' =>
      if (x.1 <=? y.1)%N then x :: queue else y :: enqueue x queue'
  end.

Definition in_order_of_settlement (l : list (N * Settlement))
  : list (N * Settlement) :=
  foldr enqueue [] l.

(** [await Promise.race([Promise.all(arrPromises), sleep(this._queryTimeout)])]
    for a query made at time [start]: [pending] promises of [arrPromises]
    are not settled yet and [queue] holds, in order, those that settle
    before the timer.  The wait ends when the last promise has settled or
    when the timer fires, whichever comes first. *)
Fixpoint await_race (start : Z) (pending : nat)
  (queue : list (N * Settlement)) (arrResult : list Address)
  : M (list Address) :=
  match pending with
  | O => ret arrResult
  | S pending' =>
      match queue with
      | [] =>
          modify (set_now (start + _queryTimeout)) ;;
          ret arrResult
      | (delay, s) :: queue' =>
          modify (set_now (start + Z.of_N delay)) ;;
          arrResult <- settle arrResult s ;;
          await_race start pending' queue' arrResult
      end
  end.

(** [async _queryDnsRecords(dnsSeeds)] *)
Definition _queryDnsRecords (dnsSeeds : list string) : M (list Address) :=
  w <- get ;;
  let arrPromises := imap Transport_resolveName dnsSeeds in
  let settled := filter before_timer (omap id arrPromises) in
  await_race (now w) (length arrPromises) (in_order_of_settlement settled) [].

End WithTransport.

End Node.

(* ===================================================================== *)
(** ** Vocabulary of the theorems *)
(* ===================================================================== *)

(** The world after the message of peer [r] (which was [p]) has been
    dropped at the price of one misbehavior point: one line is logged,
    [misbehave(1)] is called on [r], and that is all.  The book, the
    mempool, the clock, the allocator and every other peer are as before;
    nothing is pushed, nothing is relayed. *)
Definition penalised (r : PeerRef) (p : Peer.t) (text : string) (w : World)
  : World :=
  MkWorld (<[r := Peer.misbehave (now w) 1 p]> (peers w)) (nextRef w)
    (book w) (mempool w)
    (trace w ++ [EvLog ERROR text; EvMisbehave r 1]) (now w).

(** [p'] is [p] up to the three fields that [misbehave] may write. *)
Definition same_but_score_and_ban (p p' : Peer.t) : Prop :=
  Peer.peerInfo p' = Peer.peerInfo p /\
  Peer.address p' = Peer.address p /\
  Peer.inbound p' = Peer.inbound p /\
  Peer.version p' = Peer.version p /\
  Peer.fullyConnected p' = Peer.fullyConnected p /\
  Peer.loadDone p' = Peer.loadDone p /\
  Peer.outbox p' = Peer.outbox p.

(** The messages pushed to [r] among the events [l], oldest first. *)
Definition pushed_to (r : PeerRef) (l : list Event) : list Messages.Message :=
  omap (fun e => match e with
                 | EvPush r' m => if bool_decide (r' = r) then Some m else None
                 | _ => None
                 end) l.

(** Every reference of the book points into the store. *)
Definition book_valid (w : World) : Prop :=
  forall a r, book w !! a = Some r -> is_Some (peers w !! r).

(** The descriptors of the peers of [known], in the order of [known]. *)
Definition infos_of (w : World) (known : list PeerRef)
  : list Messages.PeerInfo :=
  omap (fun r => Peer.peerInfo <$> peers w !! r) known.

(** C5 as the specification words it, at one input: after a verack from
    [r], (a) if the version of the peer was set the peer is fully
    connected, and (b) if the connection is outbound a 'getaddr' has been
    pushed to the peer. *)
Definition verack_as_stated {Account} (Crypto_address : PublicKey -> Address)
  (this : Node.t Account) (w : World) (r : PeerRef) : Prop :=
  forall p, peers w !! r = Some p ->
    let out :=
      Node._incomingMessage Crypto_address this r
        (Messages.MsgCommon Constants.MSG_VERACK) w in
    (Peer.versionSet p = true ->
       exists p', peers out.2 !! r = Some p' /\ Peer.fullyConnected p' = true) /\
    (Peer.inbound p = false ->
       Messages.MsgCommon Constants.MSG_GET_ADDR
       ∈ pushed_to r (drop (length (trace w)) (trace out.2))).

(** C7 as the specification words it, at one input: if Storage throws
    while the transaction [tx] sent by [r] is handled, the score of [r]
    does not grow. *)
Definition local_failure_is_free {Account}
  (Crypto_address : PublicKey -> Address)
  (this : Node.t Account) (w : World) (r : PeerRef)
  (tx : Messages.Transaction) : Prop :=
  forall p e, peers w !! r = Some p ->
    Node.getAccount (Node._storage this)
      (Crypto_address (Messages.publicKey tx)) = Throw e ->
    let out :=
      Node._incomingMessage Crypto_address this r (Messages.MsgTx tx) w in
    exists p', peers out.2 !! r = Some p' /\
      Peer.misbehaviorScore p' <= Peer.misbehaviorScore p.

(** What a settled resolver has answered, and what it has failed with. *)
Definition answer_of (p : N * Node.Settlement) : option (N * list Address) :=
  match p.2 with
  | Node.Fulfilled arrAddresses => Some (p.1, arrAddresses)
  | Node.Rejected _ => None
  end.

Definition error_of (p : N * Node.Settlement) : option (N * JsError) :=
  match p.2 with
  | Node.Fulfilled _ => None
  | Node.Rejected err => Some (p.1, err)
  end.

(** A resolver that settles less than [timeout] milliseconds after the
    call. *)
Definition settles_within (timeout : Z) (r : Node.Resolver)
  : option (N * Node.Settlement) :=
  match r with
  | Some p => if Z.of_N p.1 <? timeout then Some p else None
  | None => None
  end.

(** A resolver that has answered, or has failed, within [timeout]
    milliseconds, with the time it took. *)
Definition succeeded (timeout : Z) (r : Node.Resolver)
  : option (N * list Address) :=
  settles_within timeout r ≫= answer_of.

Definition failed (timeout : Z) (r : Node.Resolver) : option (N * JsError) :=
  settles_within timeout r ≫= error_of.

(** One came no later than the other. *)
Definition not_later {A} (x y : N * A) : Prop := (x.1 <= y.1)%N.

(** The line that [logger.error(err)] leaves. *)
Definition logged (f : N * JsError) : Event := EvLog ERROR (err_message f.2).

(* ===================================================================== *)
(** ** Concrete nodes, peers and worlds *)
(* ===================================================================== *)

Module Examples.
Import Constants Messages.

Definition Crypto_address (pk : PublicKey) : Address := "Ux" +:+ pk.

(** A storage that knows the account Uxaa, fails on Uxff and knows no
    other account. *)
Definition storage : Node.Storage unit :=
  Node.Build_Storage unit
    (fun a =>
       if bool_decide (a = "Uxaa") then Normal (Some tt)
       else if bool_decide (a = "Uxff") then Throw (Error "storage unavailable")
       else Normal None).

Definition reject_code : Z := 201.

Definition info (a : Address) : PeerInfo :=
  {| capabilities := [ {| service := 1; data := None |} ];
     address := a; port := Constants.port |}.

Definition node : Node.t unit :=
  Node.Build_t unit storage 777 0 (info "10.0.0.1").

(** An accepted connection that has sent nothing yet. *)
Definition newcomer : Peer.t := Peer.ofConnection "10.0.0.2".

(** An inbound peer after the whole handshake. *)
Definition established : Peer.t :=
  Peer.Build (info "10.0.0.2") "10.0.0.2" true true (Some 0x0123) true 0 None
    false [].

(** A peer the node dialled, whose version has not arrived. *)
Definition dialled : Peer.t :=
  Peer.Build (info "10.0.0.3") "10.0.0.3" true false None false 0 None
    false [].

(** A peer the node dialled, whose version has arrived. *)
Definition dialled_versioned : Peer.t :=
  Peer.set_version (Some 0x0123) dialled.

(** A world with the single peer [p], at reference 0. *)
Definition world_of (p : Peer.t) : World :=
  MkWorld {[ 0%nat := p ]} 1 {[ Peer.address p := 0%nat ]} [] [] 1000.

Definition payload0 : TransactionPayload :=
  {| version := 1; conciliumId := 0;
     ins := [ {| txHash := "00"; nTxOutput := 0 |} ];
     outs := [ {| amount := 10; receiverAddr := "Uxaa" |} ] |}.

(** A transaction of a sender without account. *)
Definition tx_unknown : Transaction :=
  {| payload := payload0; claimProofs := []; publicKey := "bb" |}.

(** A transaction for whose sender the storage fails. *)
Definition tx_failing : Transaction :=
  {| payload := payload0; claimProofs := []; publicKey := "ff" |}.

(** A version message that carries the node's own nonce. *)
Definition own_version : VersionPayload :=
  {| nonce := 777; protocolVersion := 0x0123; peerInfo := info "10.0.0.1";
     height := 0 |}.

(** A book of [n] fully connected peers. *)
Definition crowd_address (i : nat) : Address :=
  "10.1." +:+ pretty (i / 250)%nat +:+ "." +:+ pretty (i mod 250)%nat.

Definition crowd_peer (i : nat) : Peer.t :=
  Peer.Build (info (crowd_address i)) (crowd_address i) true false
    (Some 0x0123) true 0 None false [].

Definition crowd (n : nat) : World :=
  MkWorld (list_to_map (map (fun i => (i, crowd_peer i)) (seq 0 n))) n
    (list_to_map (map (fun i => (crowd_address i, i)) (seq 0 n))) [] [] 0.

(** [node] handling a message of the peer at reference 0. *)
Definition run : Message -> M unit :=
  Node._incomingMessage Crypto_address node 0%nat.

(** Three DNS seeds: the first answers after 120 ms, the second fails
    after 50 ms, the third hangs. *)
Definition dns_seeds : list string :=
  ["seed-a.example"; "seed-b.example"; "seed-c.example"].

Definition dns_answers (i : nat) (name : string) : Node.Resolver :=
  match i with
  | 0%nat => Some (120%N, Node.Fulfilled ["10.0.0.1"])
  | 1%nat => Some (50%N, Node.Rejected (Error "queryA ENOTFOUND"))
  | _ => None
  end.

End Examples.

(* ===================================================================== *)
(** ** Vocabulary of the further properties *)
(* ===================================================================== *)

(** The allocator is ahead of the store: no reference from [nextRef] on is
    in use, so that a new [Peer] never replaces an object. *)
Definition store_wf (w : World) : Prop :=
  forall r, (nextRef w <= r)%nat -> peers w !! r = None.

(** The invariant of the data model on one peer: a fully connected peer
    has a version. *)
Definition handshaken (p : Peer.t) : Prop :=
  Peer.fullyConnected p = true -> Peer.versionSet p = true.

(** What may happen to a peer object while the node runs: its score does
    not go down, its address and direction stay, a version once set is
    kept, the flags [fullyConnected] and [loadDone] are not lowered, and
    its send queue only grows at the end. *)
Definition peer_evolves (p p' : Peer.t) : Prop :=
  Peer.misbehaviorScore p <= Peer.misbehaviorScore p' /\
  Peer.address p' = Peer.address p /\
  Peer.inbound p' = Peer.inbound p /\
  (Peer.versionSet p = true -> Peer.version p' = Peer.version p) /\
  (Peer.fullyConnected p = true -> Peer.fullyConnected p' = true) /\
  (Peer.loadDone p = true -> Peer.loadDone p' = true) /\
  Peer.outbox p `prefix_of` Peer.outbox p'.

(** The same, for a step that moreover leaves score and ban alone. *)
Definition peer_quiet (p p' : Peer.t) : Prop :=
  peer_evolves p p' /\
  Peer.misbehaviorScore p' = Peer.misbehaviorScore p /\
  Peer.bannedUntil p' = Peer.bannedUntil p /\
  Peer.connected p' = Peer.connected p.

(** Every peer of [w] is still in [w'], related by [Q] to what it was. *)
Definition evolves (Q : Peer.t -> Peer.t -> Prop) (w w' : World) : Prop :=
  forall r p, peers w !! r = Some p ->
    exists p', peers w' !! r = Some p' /\ Q p p'.

Definition all_peers (J : Peer.t -> Prop) (w : World) : Prop :=
  forall r p, peers w !! r = Some p -> J p.

(** [w'] is a legitimate successor of [w]. *)
Definition ok (Q : Peer.t -> Peer.t -> Prop) (J : Peer.t -> Prop)
  (w w' : World) : Prop :=
  store_wf w' /\ book_valid w' /\ evolves Q w w' /\
  (all_peers J w -> all_peers J w').

(** A computation that, from a well-formed world, only reaches legitimate
    successors, whether it returns or throws. *)
Definition sound {A} (Q : Peer.t -> Peer.t -> Prop) (J : Peer.t -> Prop)
  (c : M A) : Prop :=
  forall w res w', store_wf w -> book_valid w -> c w = (res, w') -> ok Q J w w'.

(** The same from the worlds that satisfy [P]. *)
Definition sound_at {A} (Q : Peer.t -> Peer.t -> Prop) (J : Peer.t -> Prop)
  (P : World -> Prop) (c : M A) : Prop :=
  forall w res w', store_wf w -> book_valid w -> P w -> c w = (res, w') ->
    ok Q J w w'.

(** The world after the messages [ms] of peer [r] have been handled one
    after the other. *)
Fixpoint feed {Account} (Crypto_address : PublicKey -> Address)
  (this : Node.t Account) (r : PeerRef) (ms : list Messages.Message)
  (w : World) : World :=
  match ms with
  | [] => w
  | m :: ms' =>
      feed Crypto_address this r ms'
        (Node._incomingMessage Crypto_address this r m w).2
  end.

(** What reaches the node from the network: a connection is accepted, or
    a peer delivers a message. *)
Inductive Input :=
| Accept (remoteAddress : Address)
| Deliver (r : PeerRef) (m : Messages.Message).

(** The world after one input, and after a sequence of inputs. *)
Definition step {Account} (REJECT_DUPLICATE : Z)
  (Crypto_address : PublicKey -> Address) (this : Node.t Account)
  (w : World) (i : Input) : World :=
  match i with
  | Accept a => (Node._incomingConnection REJECT_DUPLICATE this a w).2
  | Deliver r m => (Node._incomingMessage Crypto_address this r m w).2
  end.

Definition run_inputs {Account} (REJECT_DUPLICATE : Z)
  (Crypto_address : PublicKey -> Address) (this : Node.t Account)
  (inputs : list Input) (w : World) : World :=
  fold_left (step REJECT_DUPLICATE Crypto_address this) inputs w.

(** The world of a node that has met nobody yet, at time [t]. *)
Definition start (t : Z) : World := MkWorld ∅ 0 ∅ [] [] t.

(** Between [w] and [w'] the peer [r] was charged at most one point and
    nobody else was charged (or discharged) anything. *)
Definition charged_at_most_once (r : PeerRef) (w w' : World) : Prop :=
  (exists p p', peers w !! r = Some p /\ peers w' !! r = Some p' /\
     (Peer.misbehaviorScore p' = Peer.misbehaviorScore p \/
      Peer.misbehaviorScore p' = Peer.misbehaviorScore p + 1)) /\
  (forall r' q, r' <> r -> peers w !! r' = Some q ->
     exists q', peers w' !! r' = Some q' /\
       Peer.misbehaviorScore q' = Peer.misbehaviorScore q).

(** The book of [w] binds the address of the descriptor [i] to a peer
    that advertises at least the capabilities of [i]. *)
Definition knows (i : Messages.PeerInfo) (w : World) : Prop :=
  exists r q, book w !! Messages.address i = Some r /\
    peers w !! r = Some q /\
    Messages.capabilities i ⊆ Messages.capabilities (Peer.peerInfo q).

(** From [w] to [w'] the node has only learnt addresses: no call was
    made, the mempool is the same, every binding of the book is kept, and
    every peer is what it was except for a descriptor with at least the
    capabilities it had. *)
Definition learnt (w w' : World) : Prop :=
  store_wf w' /\ book_valid w' /\
  trace w' = trace w /\ mempool w' = mempool w /\
  (forall a r, book w !! a = Some r -> book w' !! a = Some r) /\
  (forall r p, peers w !! r = Some p ->
     exists p', peers w' !! r = Some p' /\
       Messages.capabilities (Peer.peerInfo p)
       ⊆ Messages.capabilities (Peer.peerInfo p') /\
       p' = Peer.set_peerInfo (Peer.peerInfo p') p).

(** The peers of the book of [w] that advertise the service [s]. *)
Definition serves (s : Z) (w : World) (r : PeerRef) : Prop :=
  exists a q, book w !! a = Some r /\ peers w !! r = Some q /\
    PeerManager.hasService s q = true.

(** How many of the inputs are messages delivered by the peer [r]. *)
Fixpoint deliveries (r : PeerRef) (inputs : list Input) : nat :=
  match inputs with
  | [] => 0
  | Deliver r' _ :: rest =>
      if bool_decide (r' = r) then S (deliveries r rest)
      else deliveries r rest
  | Accept _ :: rest => deliveries r rest
  end.

(** A message kind that the dispatcher has no handler for. *)
Definition unhandled (m : Messages.Message) : Prop :=
  Messages.message m <> Constants.MSG_REJECT /\
  Messages.message m <> Constants.MSG_VERSION /\
  Messages.message m <> Constants.MSG_VERACK /\
  Messages.message m <> Constants.MSG_GET_ADDR /\
  Messages.message m <> Constants.MSG_ADDR /\
  Messages.message m <> Constants.MSG_TX.

(* ===================================================================== *)
(** ** Further concrete messages and worlds *)
(* ===================================================================== *)

Module Scenarios.
Import Constants Messages Examples.

(** The version message of another node of the same protocol version. *)
Definition peer_version : VersionPayload :=
  {| nonce := 5; protocolVersion := 0x0123; peerInfo := info "10.0.0.2";
     height := 0 |}.

(** The version message of a node of an older protocol. *)
Definition old_version : VersionPayload :=
  {| nonce := 5; protocolVersion := 0x0100; peerInfo := info "10.0.0.2";
     height := 0 |}.

(** A transaction of the known account Uxaa. *)
Definition tx_known : Transaction :=
  {| payload := payload0; claimProofs := []; publicKey := "aa" |}.

(** Service kinds for the examples. *)
Definition node_service : Z := 1.
Definition witness_service : Z := 2.

(** A descriptor that advertises both services. *)
Definition witness_info (a : Address) : PeerInfo :=
  {| capabilities := [ {| service := node_service; data := None |};
                       {| service := witness_service; data := Some "0a0b0c0d" |} ];
     address := a; port := Constants.port |}.

(** A book with a plain node at reference 0 and a witness at reference 1. *)
Definition mixed_world : World :=
  MkWorld {[ 0%nat := Peer.ofPeerInfo (info "10.0.0.2");
             1%nat := Peer.ofPeerInfo (witness_info "10.0.0.3") ]} 2
    {[ "10.0.0.2" := 0%nat; "10.0.0.3" := 1%nat ]} [] [] 1000.

(** Three messages of kinds the dispatcher does not handle. *)
Definition junk : list Message :=
  [MsgCommon MSG_PING; MsgCommon MSG_INV; MsgCommon MSG_GET_BLOCKS].

(** A version, a new connection from elsewhere, then the verack. *)
Definition session : list Input :=
  [Deliver 0 (MsgVersion peer_version); Accept "10.0.0.9";
   Deliver 0 (MsgCommon MSG_VERACK)].

End Scenarios.

(* ===================================================================== *)
(** ** Peer methods *)
(* ===================================================================== *)

Lemma misbehave_score now points p :
  Peer.misbehaviorScore (Peer.misbehave now points p)
  = Peer.misbehaviorScore p + points.
Proof.
  unfold Peer.misbehave. simpl.
  destruct (Constants.BAN_PEER_SCORE <=? _); reflexivity.
Qed.

Lemma misbehave_same now points p :
  same_but_score_and_ban p (Peer.misbehave now points p).
Proof.
  unfold Peer.misbehave, same_but_score_and_ban. simpl.
  destruct (Constants.BAN_PEER_SCORE <=? _); simpl; repeat split.
Qed.

Lemma misbehave_below now points p :
  Peer.misbehaviorScore p + points < Constants.BAN_PEER_SCORE ->
  Peer.misbehave now points p
  = Peer.set_misbehaviorScore (Peer.misbehaviorScore p + points) p.
Proof.
  intros Hlt. unfold Peer.misbehave. simpl.
  destruct (Z.leb_spec Constants.BAN_PEER_SCORE (Peer.misbehaviorScore p + points));
    [lia | reflexivity].
Qed.

(* ===================================================================== *)
(** ** Running the primitives *)
(* ===================================================================== *)

Lemma bind_normal {A B} (c : M A) (k : A -> M B) w a w' :
  c w = (Normal a, w') -> bind c k w = k a w'.
Proof. intros H. unfold bind. now rewrite H. Qed.

Lemma bind_throw {A B} (c : M A) (k : A -> M B) w e w' :
  c w = (Throw e, w') -> bind c k w = (Throw e, w').
Proof. intros H. unfold bind. now rewrite H. Qed.

Lemma peer_ok w r p :
  peers w !! r = Some p -> peer r w = (Normal p, w).
Proof. intros H. unfold peer, bind, get. now rewrite H. Qed.

Lemma call_ok w r p f e :
  peers w !! r = Some p ->
  call r f e w = (Normal tt, emit e (set_peers <[r := f p]> w)).
Proof. intros H. unfold call. now rewrite (bind_normal _ _ _ _ _ (peer_ok _ _ _ H)). Qed.

Lemma assign_ok w r p f :
  peers w !! r = Some p ->
  assign r f w = (Normal tt, set_peers <[r := f p]> w).
Proof. intros H. unfold assign. now rewrite (bind_normal _ _ _ _ _ (peer_ok _ _ _ H)). Qed.

Lemma misbehave_ok w r p points :
  peers w !! r = Some p ->
  misbehave r points w
  = (Normal tt,
     emit (EvMisbehave r points)
       (set_peers <[r := Peer.misbehave (now w) points p]> w)).
Proof. intros H. unfold misbehave, bind, get. now apply call_ok. Qed.

Lemma on_error_ok w r p e :
  peers w !! r = Some p ->
  Node.on_error r e w
  = (Normal tt,
     penalised r p (err_message e +:+ " Peer " +:+ Peer.address p +:+ ".") w).
Proof.
  intros H. unfold Node.on_error.
  rewrite (bind_normal _ _ _ _ _ (peer_ok _ _ _ H)).
  unfold bind, logger, modify.
  rewrite (misbehave_ok _ r p) by exact H.
  unfold penalised, emit, set_peers. simpl. now rewrite <- app_assoc.
Qed.

(* ===================================================================== *)
(** ** The dispatcher *)
(* ===================================================================== *)

Section NodeFacts.

Context (REJECT_DUPLICATE : Z) {Account : Type}
        (Crypto_address : PublicKey -> Address).

Implicit Types (this : Node.t Account) (w : World) (r : PeerRef)
         (p : Peer.t) (m : Messages.Message).

Import Constants Messages.

(** A message that is not of the three handshake kinds reaches the test of
    [peer.fullyConnected]. *)
Lemma dispatch_past_handshake this r m w p :
  peers w !! r = Some p ->
  message m <> MSG_VERSION -> message m <> MSG_VERACK ->
  message m <> MSG_REJECT ->
  Node.dispatch Crypto_address this r m w
  = if negb (Peer.fullyConnected p) then
      (logger ERROR ("Peer " +:+ Peer.address p
                     +:+ " missed version handshake stage") ;;
       misbehave r 1) w
    else if isGetAddr m then Node._handlePeerRequest r w
    else if isAddr m then Node._handlePeerList r m w
    else if isTx m then Node._handleTx Crypto_address this r m w
    else (Throw (Error ("Unhandled message type " +:+ tag (message m))), w).
Proof.
  intros Hp Hv Ha Hr. unfold Node.dispatch.
  unfold isReject, isVersion, isVerAck.
  rewrite !bool_decide_eq_false_2 by assumption.
  rewrite (bind_normal _ _ _ _ _ (peer_ok _ _ _ Hp)).
  destruct (negb (Peer.fullyConnected p)); [reflexivity|].
  destruct (isGetAddr m); [reflexivity|].
  destruct (isAddr m); [reflexivity|].
  destruct (isTx m); reflexivity.
Qed.

(** C1 (handshake gating).  Let [p] be a peer with
    [fullyConnected = false] and [m] a message whose type is none of
    version, verack, reject.  Then [_incomingMessage] returns normally, the
    score of the peer is its old score plus 1, and the world is otherwise as
    before: one error line is logged and [misbehave(1)] is called, no
    handler runs, nothing is pushed to any peer, the mempool, the address
    book and all other peers are unchanged, and of the peer itself only
    the score moves (with the ban that [misbehave] attaches to a score
    reaching [BAN_PEER_SCORE]; below that bound the peer record is the old
    one with the new score). *)
Theorem handshake_gating this w r p m :
  peers w !! r = Some p ->
  Peer.fullyConnected p = false ->
  message m <> MSG_VERSION ->
  message m <> MSG_VERACK ->
  message m <> MSG_REJECT ->
  let p' := Peer.misbehave (now w) 1 p in
  Node._incomingMessage Crypto_address this r m w
  = (Normal tt,
     penalised r p
       ("Peer " +:+ Peer.address p +:+ " missed version handshake stage") w) /\
  Peer.misbehaviorScore p' = Peer.misbehaviorScore p + 1 /\
  same_but_score_and_ban p p' /\
  (Peer.misbehaviorScore p + 1 < BAN_PEER_SCORE ->
   p' = Peer.set_misbehaviorScore (Peer.misbehaviorScore p + 1) p).
Proof.
  intros Hp Hfc Hv Ha Hr p'.
  split; [|split; [|split]].
  - unfold Node._incomingMessage, try_catch.
    rewrite (dispatch_past_handshake this r m w p) by assumption.
    rewrite Hfc. simpl. unfold bind at 1. unfold logger, modify.
    rewrite (misbehave_ok _ r p) by exact Hp.
    unfold penalised, emit, set_peers. simpl.
    rewrite <- app_assoc. reflexivity.
  - apply misbehave_score.
  - apply misbehave_same.
  - apply misbehave_below.
Qed.

(** Whatever the [try] block throws, and wherever it throws it, the
    [catch] block logs the error and charges the peer one point. *)
Lemma every_throw_is_charged this r m w e w1 p1 :
  Node.dispatch Crypto_address this r m w = (Throw e, w1) ->
  peers w1 !! r = Some p1 ->
  Node._incomingMessage Crypto_address this r m w
  = (Normal tt,
     penalised r p1 (err_message e +:+ " Peer " +:+ Peer.address p1 +:+ ".") w1).
Proof.
  intros Hd Hp. unfold Node._incomingMessage, try_catch. rewrite Hd.
  now apply on_error_ok.
Qed.

(** C10 (unhandled kinds).  Let [p] be a fully connected peer and [m] a
    message whose type is none of reject, version, verack, getaddr, addr,
    tx.  Then [_incomingMessage] returns normally, the score of the peer
    is its old score plus 1, and nothing else happens: the error
    "Unhandled message type" is logged and [misbehave(1)] is called; no
    message is pushed, the mempool, the address book and the other peers
    are unchanged, and of the peer only the score moves (with the ban
    that [misbehave] attaches to a score reaching [BAN_PEER_SCORE]). *)
Theorem unhandled_type_costs_one_point this w r p m :
  peers w !! r = Some p ->
  Peer.fullyConnected p = true ->
  message m <> MSG_REJECT ->
  message m <> MSG_VERSION ->
  message m <> MSG_VERACK ->
  message m <> MSG_GET_ADDR ->
  message m <> MSG_ADDR ->
  message m <> MSG_TX ->
  let p' := Peer.misbehave (now w) 1 p in
  Node._incomingMessage Crypto_address this r m w
  = (Normal tt,
     penalised r p
       (("Unhandled message type " +:+ tag (message m))
        +:+ " Peer " +:+ Peer.address p +:+ ".") w) /\
  Peer.misbehaviorScore p' = Peer.misbehaviorScore p + 1 /\
  same_but_score_and_ban p p' /\
  (Peer.misbehaviorScore p + 1 < BAN_PEER_SCORE ->
   p' = Peer.set_misbehaviorScore (Peer.misbehaviorScore p + 1) p).
Proof.
  intros Hp Hfc Hr Hv Ha Hg Had Ht p'.
  split; [|split; [|split]].
  - apply (every_throw_is_charged this r m w (Error _) w p); [|exact Hp].
    rewrite (dispatch_past_handshake this r m w p) by assumption.
    rewrite Hfc. simpl. unfold isGetAddr, isAddr, isTx.
    rewrite !bool_decide_eq_false_2 by assumption. reflexivity.
  - apply misbehave_score.
  - apply misbehave_same.
  - apply misbehave_below.
Qed.

(** What [_handleTx] does when the account lookup answers [result]. *)
Lemma handleTx_lookup this r tx w :
  Node._handleTx Crypto_address this r (MsgTx tx) w
  = match Node.getAccount (Node._storage this)
            (Crypto_address (publicKey tx)) with
    | Normal None => (Throw (Error "Account doesn't found"), w)
    | Normal (Some _) =>
        (Throw (TypeError "Cannot read property 'accept' of undefined"), w)
    | Throw e => (Throw e, w)
    end.
Proof.
  unfold Node._handleTx, Node._checkTx, Node.asTx, Node.lift.
  unfold bind at 1. unfold ret at 1. unfold bind at 1. unfold bind at 1.
  destruct (Node.getAccount _ _) as [[acc|]|e]; reflexivity.
Qed.

Lemma dispatch_tx this r tx w p :
  peers w !! r = Some p ->
  Peer.fullyConnected p = true ->
  Node.dispatch Crypto_address this r (MsgTx tx) w
  = Node._handleTx Crypto_address this r (MsgTx tx) w.
Proof.
  intros Hp Hfc.
  rewrite (dispatch_past_handshake this r (MsgTx tx) w p); try done.
  now rewrite Hfc.
Qed.

(** C6 (unknown sender).  Let [p] be a fully connected peer and [tx] a
    transaction whose sender address, [Crypto.address(tx.publicKey)], has
    no account in Storage.  Then handling [MsgTx tx] from [p] returns
    normally, the mempool is unchanged (the transaction is not submitted),
    nothing is relayed and nothing is pushed (the only calls are one error
    line and [misbehave(1)]), and the score of [p] is its old score plus
    1. *)
Theorem unknown_account_rejected this w r p tx :
  peers w !! r = Some p ->
  Peer.fullyConnected p = true ->
  Node.getAccount (Node._storage this) (Crypto_address (publicKey tx))
  = Normal None ->
  let out := Node._incomingMessage Crypto_address this r (MsgTx tx) w in
  out = (Normal tt,
         penalised r p
           ("Account doesn't found" +:+ " Peer " +:+ Peer.address p +:+ ".") w) /\
  mempool out.2 = mempool w /\
  (forall t, EvRelay t ∉ drop (length (trace w)) (trace out.2)) /\
  peers out.2 !! r = Some (Peer.misbehave (now w) 1 p) /\
  Peer.misbehaviorScore (Peer.misbehave (now w) 1 p)
  = Peer.misbehaviorScore p + 1.
Proof.
  intros Hp Hfc Hacc out.
  assert (Hout : out = (Normal tt,
            penalised r p
              ("Account doesn't found" +:+ " Peer " +:+ Peer.address p +:+ ".") w)).
  { apply (every_throw_is_charged this r _ w (Error "Account doesn't found") w p);
      [|exact Hp].
    rewrite (dispatch_tx this r tx w p) by assumption.
    rewrite handleTx_lookup, Hacc. reflexivity. }
  rewrite Hout. simpl. repeat split.
  - intros t Hin. rewrite drop_app_length in Hin.
    apply list_elem_of_In in Hin. simpl in Hin. intuition discriminate.
  - apply lookup_insert_eq.
  - apply misbehave_score.
Qed.

(** C7, as the code has it.  The [catch] block of [_incomingMessage]
    does not ask where an exception comes from.
    - Whatever the handlers throw, for whatever message, the exception is
      caught, its message is logged and [misbehave(1)] is called on the
      sending peer: its score grows by exactly 1.
    - In particular, let [p] be a fully connected peer and [tx] a
      transaction for whose sender address the Storage collaborator
      throws [e].  Then handling [MsgTx tx] from [p] returns normally,
      the score of [p] becomes its old score plus 1, the mempool is
      unchanged and nothing is relayed.  The local failure costs the
      peer one point. *)
Theorem storage_failure_charged_to_peer this w r p :
  peers w !! r = Some p ->
  (forall m e w1 p1,
     Node.dispatch Crypto_address this r m w = (Throw e, w1) ->
     peers w1 !! r = Some p1 ->
     Node._incomingMessage Crypto_address this r m w
     = (Normal tt,
        penalised r p1
          (err_message e +:+ " Peer " +:+ Peer.address p1 +:+ ".") w1) /\
     Peer.misbehaviorScore (Peer.misbehave (now w1) 1 p1)
     = Peer.misbehaviorScore p1 + 1) /\
  (forall tx e,
     Peer.fullyConnected p = true ->
     Node.getAccount (Node._storage this) (Crypto_address (publicKey tx))
     = Throw e ->
     let out := Node._incomingMessage Crypto_address this r (MsgTx tx) w in
     out = (Normal tt,
            penalised r p
              (err_message e +:+ " Peer " +:+ Peer.address p +:+ ".") w) /\
     mempool out.2 = mempool w /\
     peers out.2 !! r = Some (Peer.misbehave (now w) 1 p) /\
     Peer.misbehaviorScore (Peer.misbehave (now w) 1 p)
     = Peer.misbehaviorScore p + 1).
Proof.
  intros Hp. split.
  - intros m e w1 p1 Hd Hp1. split.
    + now apply every_throw_is_charged.
    + apply misbehave_score.
  - intros tx e Hfc Hacc out.
    assert (Hout : out = (Normal tt,
              penalised r p
                (err_message e +:+ " Peer " +:+ Peer.address p +:+ ".") w)).
    { apply (every_throw_is_charged this r _ w e w p); [|exact Hp].
      rewrite (dispatch_tx this r tx w p) by assumption.
      rewrite handleTx_lookup, Hacc. reflexivity. }
    rewrite Hout. simpl. repeat split.
    + apply lookup_insert_eq.
    + apply misbehave_score.
Qed.

(** C9 (reject latch).  Let [p] be any peer, whatever its handshake state,
    and [MsgReject code reason] a reject message received from it.  Then
    [_incomingMessage] returns normally; the peer has [loadDone = true]
    and a score equal to its old score plus 1; the latch [loaded()] of the
    peer is open; the rejection reason is logged, [misbehave(1)] is the
    only call on the peer, and the rest of the world is as before. *)
Theorem reject_sets_loadDone this w r p code reason :
  peers w !! r = Some p ->
  let p' := Peer.set_loadDone true (Peer.misbehave (now w) 1 p) in
  Node._incomingMessage Crypto_address this r (MsgReject code reason) w
  = (Normal tt,
     MkWorld (<[r := p']> (peers w)) (nextRef w) (book w) (mempool w)
       (trace w ++ [EvLog LOG ("Peer: " +:+ Peer.address p
                               +:+ " rejection reason: " +:+ reason);
                    EvMisbehave r 1])
       (now w)) /\
  Peer.loadDone p' = true /\
  Peer.loaded p' = true /\
  Peer.misbehaviorScore p' = Peer.misbehaviorScore p + 1.
Proof.
  intros Hp p'. split; [|split; [|split]].
  - unfold Node._incomingMessage, try_catch, Node.dispatch. simpl.
    unfold bind at 1. unfold ret at 1.
    rewrite (bind_normal _ _ _ _ _ (peer_ok _ _ _ Hp)).
    unfold bind at 1. unfold logger, modify.
    unfold bind at 1. rewrite (misbehave_ok _ r p) by exact Hp.
    erewrite assign_ok by (simpl; apply lookup_insert_eq).
    unfold set_peers, emit. simpl.
    rewrite insert_insert_eq, <- app_assoc. reflexivity.
  - reflexivity.
  - reflexivity.
  - unfold p'. simpl. apply misbehave_score.
Qed.

Lemma ban_ok w r p :
  peers w !! r = Some p ->
  ban r w
  = (Normal tt,
     MkWorld (<[r := Peer.ban (now w) p]> (peers w)) (nextRef w) (book w)
       (mempool w) (trace w ++ [EvBan r]) (now w)).
Proof. intros H. unfold ban, bind, get. now rewrite (call_ok _ r p). Qed.

(** C2 (self-connection).  Let [v] be a version payload whose nonce is the
    node's own.  Then the handler (and so [_incomingMessage]) returns
    normally after exactly one call, [peer.ban()]: the trace grows by
    [EvBan r] alone, so no message is pushed on the connection (neither a
    verack nor the node's own version), and the peer is the old peer after
    [ban()], with its [version] field and its send queue as they were. *)
Theorem self_connection_banned this w r p v :
  peers w !! r = Some p ->
  nonce v = Node._nonce this ->
  let w' :=
    MkWorld (<[r := Peer.ban (now w) p]> (peers w)) (nextRef w) (book w)
      (mempool w) (trace w ++ [EvBan r]) (now w) in
  Node._handleVersionMessage this r (MsgVersion v) w = (Normal tt, w') /\
  Node._incomingMessage Crypto_address this r (MsgVersion v) w
  = (Normal tt, w') /\
  pushed_to r (drop (length (trace w)) (trace w')) = [] /\
  Peer.version (Peer.ban (now w) p) = Peer.version p /\
  Peer.outbox (Peer.ban (now w) p) = Peer.outbox p.
Proof.
  intros Hp Hn w'.
  assert (Hh : Node._handleVersionMessage this r (MsgVersion v) w
               = (Normal tt, w')).
  { unfold Node._handleVersionMessage. simpl. unfold bind at 1. unfold ret at 1.
    rewrite Hn, Z.eqb_refl. now apply ban_ok. }
  split; [exact Hh|]. split; [|split; [|split]].
  - unfold Node._incomingMessage, try_catch, Node.dispatch. simpl.
    now rewrite Hh.
  - unfold w'. simpl. now rewrite drop_app_length.
  - reflexivity.
  - reflexivity.
Qed.

(** What [_handleVerackMessage] does, case by case. *)
Lemma handleVerack_cases w r p :
  peers w !! r = Some p ->
  Node._handleVerackMessage r w
  = (Normal tt,
     if Peer.versionSet p then
       if Peer.inbound p then
         set_peers <[r := Peer.set_fullyConnected true p]> w
       else
         MkWorld
           (<[r := Peer.pushMessage (MsgCommon MSG_GET_ADDR)
                     (Peer.set_fullyConnected true p)]> (peers w))
           (nextRef w) (book w) (mempool w)
           (trace w ++ [EvPush r (MsgCommon MSG_GET_ADDR)]) (now w)
     else w).
Proof.
  intros Hp. unfold Node._handleVerackMessage.
  rewrite (bind_normal _ _ _ _ _ (peer_ok _ _ _ Hp)).
  destruct (Peer.versionSet p); [|reflexivity].
  erewrite bind_normal by (apply assign_ok; exact Hp).
  destruct (Peer.inbound p); simpl; [reflexivity|].
  unfold pushMessage. erewrite call_ok by (simpl; apply lookup_insert_eq).
  unfold set_peers, emit. simpl. now rewrite insert_insert_eq.
Qed.

(** C5, as the code has it.  Let [p] be the peer a verack comes from.
    - If [p.version] is set, [_incomingMessage] returns normally with
      [p.fullyConnected = true]; if moreover the node initiated the
      connection ([p.inbound = false]) exactly one message, 'getaddr', is
      pushed to the peer, and if the connection is inbound none is.
    - If [p.version] is not set, nothing happens at all: the world is
      unchanged, and no 'getaddr' is sent even on an outbound
      connection. *)
Theorem verack_completes_handshake this w r p :
  peers w !! r = Some p ->
  let out := Node._incomingMessage Crypto_address this r (MsgCommon MSG_VERACK) w in
  out.1 = Normal tt /\
  (Peer.versionSet p = true ->
     (exists p', peers out.2 !! r = Some p' /\ Peer.fullyConnected p' = true) /\
     (Peer.inbound p = false ->
        pushed_to r (drop (length (trace w)) (trace out.2))
        = [MsgCommon MSG_GET_ADDR] /\
        exists p', peers out.2 !! r = Some p' /\
          Peer.outbox p' = Peer.outbox p ++ [MsgCommon MSG_GET_ADDR]) /\
     (Peer.inbound p = true -> trace out.2 = trace w)) /\
  (Peer.versionSet p = false -> out.2 = w).
Proof.
  intros Hp out.
  assert (Hout : out = Node._handleVerackMessage r w).
  { unfold out, Node._incomingMessage, try_catch, Node.dispatch. simpl.
    rewrite (handleVerack_cases w r p Hp). reflexivity. }
  rewrite Hout, (handleVerack_cases w r p Hp). simpl.
  split; [reflexivity|]. split.
  - intros Hv. rewrite Hv. split; [|split].
    + destruct (Peer.inbound p); simpl; eexists;
        (split; [apply lookup_insert_eq | reflexivity]).
    + intros Hi. rewrite Hi. simpl. rewrite drop_app_length. simpl.
      rewrite bool_decide_eq_true_2 by reflexivity. split; [reflexivity|].
      eexists. split; [apply lookup_insert_eq | reflexivity].
    + intros Hi. rewrite Hi. reflexivity.
  - intros Hv. rewrite Hv. reflexivity.
Qed.

(** [addPeer] of a [Peer] object makes no call: the trace stands. *)
Lemma addPeer_peer_trace r w res w' :
  PeerManager.addPeer (inl r) w = (res, w') -> trace w' = trace w.
Proof.
  unfold PeerManager.addPeer, peer, bind, get, ret, throw, modify.
  destruct (peers w !! r) as [q|]; simpl; [|intros [= _ <-]; reflexivity].
  destruct (book w !! Peer.address q) as [r0|]; simpl;
    [|intros [= _ <-]; reflexivity].
  destruct (peers w !! r0) as [q0|]; simpl; [|intros [= _ <-]; reflexivity].
  destruct (Peer.connected q && Peer.connected q0); intros [= _ <-]; reflexivity.
Qed.

(** [addPeer] answers undefined without having touched the world. *)
Lemma addPeer_undefined r w w' :
  PeerManager.addPeer (inl r) w = (Normal None, w') -> w' = w.
Proof.
  unfold PeerManager.addPeer, peer, bind, get, ret, throw, modify.
  destruct (peers w !! r) as [q|]; simpl; [|discriminate].
  destruct (book w !! Peer.address q) as [r0|]; simpl; [|discriminate].
  destruct (peers w !! r0) as [q0|]; simpl; [|discriminate].
  destruct (Peer.connected q && Peer.connected q0); [|discriminate].
  now intros [= <-].
Qed.

(** Two live connections for one address: [addPeer] answers undefined and
    leaves the world alone. *)
Lemma addPeer_collision w r p r0 p0 :
  peers w !! r = Some p ->
  book w !! Peer.address p = Some r0 ->
  peers w !! r0 = Some p0 ->
  Peer.connected p = true ->
  Peer.connected p0 = true ->
  PeerManager.addPeer (inl r) w = (Normal None, w).
Proof.
  intros Hp Hb Hp0 Hc Hc0. unfold PeerManager.addPeer.
  rewrite (bind_normal _ _ _ _ _ (peer_ok _ _ _ Hp)).
  unfold bind at 1. unfold get at 1. rewrite Hb.
  rewrite (bind_normal _ _ _ _ _ (peer_ok _ _ _ Hp0)).
  rewrite Hc, Hc0. reflexivity.
Qed.

Lemma newPeer_ok a w :
  newPeer a w
  = (Normal (nextRef w),
     MkWorld (<[nextRef w := Peer.ofConnection a]> (peers w)) (S (nextRef w))
       (book w) (mempool w) (trace w) (now w)).
Proof. reflexivity. Qed.

(** C3 (duplicate connection).  Let a connection arrive from address [a].
    - If the book binds [a] to a peer [r0] whose connection is live (the
      store being such that the reference handed to the new [Peer] is
      fresh), [addPeer] answers undefined and the node makes exactly two
      calls, in this order, both on the new peer: it pushes one
      [MsgReject] with code [REJECT_DUPLICATE] and reason 'Duplicate
      connection detected', then it disconnects.  The new peer ends with
      that single message in its queue and no connection; the book and
      the existing peer [r0] are unchanged.
    - Whenever [addPeer] answers undefined for the new peer, the node
      makes exactly those two calls and the world is the one just
      described.
    - If [addPeer] answers with a peer, the node does nothing more: the
      world is the one [addPeer] left and no call was made, so no
      [MsgReject] is sent. *)
Theorem duplicate_connection_rejected this w a :
  let reject := MsgReject REJECT_DUPLICATE "Duplicate connection detected" in
  let rn := nextRef w in
  (forall r0 p0,
     book w !! a = Some r0 ->
     peers w !! r0 = Some p0 ->
     Peer.connected p0 = true ->
     peers w !! rn = None ->
     let pn := Peer.disconnect (Peer.pushMessage reject (Peer.ofConnection a)) in
     Node._incomingConnection REJECT_DUPLICATE this a w
     = (Normal tt,
        MkWorld (<[rn := pn]> (peers w)) (S rn) (book w) (mempool w)
          (trace w ++ [EvPush rn reject; EvDisconnect rn]) (now w)) /\
     Peer.outbox pn = [reject] /\
     Peer.connected pn = false /\
     <[rn := pn]> (peers w) !! r0 = Some p0) /\
  (forall w1,
     (peerNew <- newPeer a ;; PeerManager.addPeer (inl peerNew)) w
     = (Normal None, w1) ->
     let pn := Peer.disconnect (Peer.pushMessage reject (Peer.ofConnection a)) in
     Node._incomingConnection REJECT_DUPLICATE this a w
     = (Normal tt,
        MkWorld (<[rn := pn]> (peers w)) (S rn) (book w) (mempool w)
          (trace w ++ [EvPush rn reject; EvDisconnect rn]) (now w))) /\
  (forall r1 w1,
     (peerNew <- newPeer a ;; PeerManager.addPeer (inl peerNew)) w
     = (Normal (Some r1), w1) ->
     Node._incomingConnection REJECT_DUPLICATE this a w = (Normal tt, w1) /\
     trace w1 = trace w).
Proof.
  intros reject rn. subst rn. split; [|split].
  - intros r0 p0 Hb Hp0 Hc Hfresh pn.
    assert (Hne : nextRef w <> r0)
      by (intros Heq; rewrite Heq, Hp0 in Hfresh; discriminate).
    split; [|split; [reflexivity|split; [reflexivity|]]].
    + unfold Node._incomingConnection, try_catch.
      rewrite (bind_normal _ _ _ _ _ (newPeer_ok a w)).
      set (w0 := MkWorld _ _ _ _ _ _).
      assert (Hn : peers w0 !! nextRef w = Some (Peer.ofConnection a))
        by apply lookup_insert_eq.
      assert (H0 : peers w0 !! r0 = Some p0)
        by (unfold w0; simpl; rewrite lookup_insert_ne by exact Hne; exact Hp0).
      rewrite (bind_normal _ _ _ _ _
                 (addPeer_collision w0 _ _ r0 p0 Hn Hb H0 eq_refl Hc)).
      unfold pushMessage, disconnect.
      rewrite (bind_normal _ _ _ _ _ (call_ok _ _ _ _ _ Hn)).
      erewrite call_ok by (simpl; apply lookup_insert_eq).
      unfold emit, set_peers, w0. simpl.
      rewrite !insert_insert_eq, <- app_assoc. reflexivity.
    + rewrite lookup_insert_ne by exact Hne. exact Hp0.
  - intros w1 Hadd pn.
    rewrite (bind_normal _ _ _ _ _ (newPeer_ok a w)) in Hadd.
    set (w0 := MkWorld _ _ _ _ _ _) in Hadd.
    assert (Hn : peers w0 !! nextRef w = Some (Peer.ofConnection a))
      by apply lookup_insert_eq.
    pose proof (addPeer_undefined _ _ _ Hadd) as Hsame. subst w1.
    unfold Node._incomingConnection, try_catch.
    rewrite (bind_normal _ _ _ _ _ (newPeer_ok a w)). fold w0.
    rewrite (bind_normal _ _ _ _ _ Hadd).
    unfold pushMessage, disconnect.
    rewrite (bind_normal _ _ _ _ _ (call_ok _ _ _ _ _ Hn)).
    erewrite call_ok by (simpl; apply lookup_insert_eq).
    unfold emit, set_peers, w0. simpl.
    rewrite !insert_insert_eq, <- app_assoc. reflexivity.
  - intros r1 w1 Hadd.
    unfold Node._incomingConnection, try_catch.
    rewrite (bind_normal _ _ _ _ _ (newPeer_ok a w)).
    rewrite (bind_normal _ _ _ _ _ (newPeer_ok a w)) in Hadd.
    rewrite (bind_normal _ _ _ _ _ Hadd). split; [reflexivity|].
    apply addPeer_peer_trace in Hadd. exact Hadd.
Qed.

(** Reading the descriptors of valid references neither fails nor
    changes the world. *)
Lemma mapM_peerInfo w (known : list PeerRef) :
  (forall r', r' ∈ known -> is_Some (peers w !! r')) ->
  mapM (fun r' => q <- peer r' ;; ret (Peer.peerInfo q)) known w
  = (Normal (infos_of w known), w) /\
  length (infos_of w known) = length known.
Proof.
  induction known as [|r' known IH]; intros Hall; [split; reflexivity|].
  destruct (Hall r') as [q Hq]; [left|].
  destruct IH as [IH1 IH2]; [intros r'' Hin; apply Hall; now right|].
  split.
  - simpl. unfold bind at 1.
    rewrite (bind_normal _ _ _ _ _ (peer_ok _ _ _ Hq)). unfold ret at 1.
    rewrite (bind_normal _ _ _ _ _ IH1).
    unfold infos_of. simpl. rewrite Hq. reflexivity.
  - unfold infos_of in *. simpl. rewrite Hq. simpl. f_equal. exact IH2.
Qed.

(** Whatever the size of the book, [_handlePeerRequest] answers with one
    'addr' message that carries every peer of the book; a book larger
    than [ADDR_MAX_LENGTH] only adds a line to the log. *)
Lemma handlePeerRequest_one_addr w r p :
  peers w !! r = Some p ->
  book_valid w ->
  let infos := infos_of w (map_to_list (book w)).*2 in
  let reply := MsgAddr (Z.of_nat (length infos)) infos in
  let logs :=
    if ADDR_MAX_LENGTH <? Z.of_nat (length infos)
    then [EvLog ERROR "Its time to implement multiple addr messages"]
    else [] in
  Node._handlePeerRequest r w
  = (Normal tt,
     MkWorld (<[r := Peer.pushMessage reply p]> (peers w)) (nextRef w)
       (book w) (mempool w) (trace w ++ logs ++ [EvPush r reply]) (now w)) /\
  length infos = size (book w).
Proof.
  intros Hp Hvalid infos reply logs.
  destruct (mapM_peerInfo w (map_to_list (book w)).*2) as [Hm Hlen].
  { intros r' Hin. apply list_elem_of_fmap in Hin as [[a r''] [-> Hin]].
    apply elem_of_map_to_list in Hin. now apply (Hvalid a). }
  split.
  - unfold Node._handlePeerRequest, PeerManager.filterPeers.
    unfold bind at 1. unfold bind at 1. unfold get at 1. unfold ret at 1.
    rewrite (bind_normal _ _ _ _ _ Hm). fold infos.
    unfold logs. destruct (ADDR_MAX_LENGTH <? Z.of_nat (length infos)).
    + unfold bind at 1. unfold logger, modify, pushMessage.
      erewrite call_ok by (simpl; exact Hp).
      unfold emit, set_peers. simpl. now rewrite <- app_assoc.
    + unfold bind at 1. unfold ret at 1. unfold pushMessage.
      erewrite call_ok by exact Hp. reflexivity.
  - unfold infos. rewrite Hlen, length_fmap. apply length_map_to_list.
Qed.

End NodeFacts.

(* ===================================================================== *)
(** ** The address reply on a large book *)
(* ===================================================================== *)

(** C4 (the code does not split).  On a book of 1001 peers, a 'getaddr'
    from the fully connected peer 0 is answered normally with exactly one
    message pushed to that peer: a single 'addr' whose count is 1001 and
    which carries 1001 descriptors, more than [ADDR_MAX_LENGTH] = 1000.
    The reply is not split; the only trace of the excess is the error
    line 'Its time to implement multiple addr messages'. *)
Theorem addr_reply_not_split :
  let w := Examples.crowd 1001 in
  let out :=
    Node._incomingMessage Examples.Crypto_address Examples.node 0%nat
      (Messages.MsgCommon Constants.MSG_GET_ADDR) w in
  size (book w) = 1001%nat /\
  Peer.fullyConnected <$> peers w !! 0%nat = Some true /\
  out.1 = Normal tt /\
  exists infos,
    pushed_to 0%nat (trace out.2) = [Messages.MsgAddr 1001 infos] /\
    length infos = 1001%nat /\
    Constants.ADDR_MAX_LENGTH < Z.of_nat (length infos) /\
    EvLog ERROR "Its time to implement multiple addr messages" ∈ trace out.2.
Proof.
  vm_compute.
  split; [reflexivity|]. split; [reflexivity|]. split; [reflexivity|].
  eexists. split; [reflexivity|]. split; [reflexivity|].
  split; [reflexivity|]. apply list_elem_of_here.
Qed.

(* ===================================================================== *)
(** ** The DNS query of bootstrap *)
(* ===================================================================== *)

Section DnsFacts.

Variable timeout : Z.

Lemma enqueue_perm x queue : Node.enqueue x queue ≡ₚ x :: queue.
Proof.
  induction queue as [|y queue IH]; simpl; [reflexivity|].
  destruct (x.1 <=? y.1)%N; [reflexivity|].
  rewrite IH. apply Permutation_swap.
Qed.

Lemma in_order_perm l : Node.in_order_of_settlement l ≡ₚ l.
Proof.
  induction l as [|x l IH]; simpl; [reflexivity|].
  rewrite enqueue_perm. now constructor.
Qed.

Lemma enqueue_sorted x queue :
  StronglySorted not_later queue ->
  StronglySorted not_later (Node.enqueue x queue).
Proof.
  induction 1 as [|y queue Hs IH Hall]; simpl.
  - repeat constructor.
  - destruct (N.leb_spec x.1 y.1) as [Hle|Hlt].
    + constructor; [now constructor|].
      constructor; [exact Hle|].
      eapply Forall_impl; [exact Hall|].
      intros z Hz. unfold not_later in *. lia.
    + constructor; [exact IH|].
      rewrite enqueue_perm. constructor; [|exact Hall].
      unfold not_later. lia.
Qed.

Lemma in_order_sorted l :
  StronglySorted not_later (Node.in_order_of_settlement l).
Proof.
  induction l as [|x l IH]; simpl; [constructor|].
  now apply enqueue_sorted.
Qed.

(** Keeping some entries of a sorted queue, with their times, keeps it
    sorted. *)
Lemma omap_sorted {A B} (f : N * A -> option (N * B)) l :
  (forall x y, f x = Some y -> y.1 = x.1) ->
  StronglySorted not_later l ->
  StronglySorted not_later (omap f l).
Proof.
  intros Hf. induction 1 as [|x l Hs IH Hall]; simpl; [constructor|].
  destruct (f x) as [y|] eqn:Hy; [|exact IH].
  constructor; [exact IH|].
  apply Forall_forall. intros z Hz.
  apply list_elem_of_omap in Hz as (x' & Hx' & Hz).
  rewrite Forall_forall in Hall. specialize (Hall x' Hx').
  unfold not_later in *. rewrite (Hf _ _ Hy), (Hf _ _ Hz). exact Hall.
Qed.

Lemma answer_of_time p y : answer_of p = Some y -> y.1 = p.1.
Proof. unfold answer_of. destruct p.2; now intros [= <-]. Qed.

Lemma error_of_time p y : error_of p = Some y -> y.1 = p.1.
Proof. unfold error_of. destruct p.2; now intros [= <-]. Qed.

(** The promises that settle before the timer are those that settle
    within the timeout. *)
Lemma settled_before_timer (rs : list Node.Resolver) :
  filter (Node.before_timer timeout) (omap id rs)
  = omap (settles_within timeout) rs.
Proof.
  induction rs as [|[p|] rs IH]; [reflexivity| |exact IH].
  change (omap id (Some p :: rs)) with (p :: omap id rs).
  rewrite filter_cons, IH. unfold Node.before_timer. simpl.
  destruct (Z.of_N p.1 <? timeout); reflexivity.
Qed.

Lemma omap_settles_within {B} (f : N * Node.Settlement -> option B)
  (rs : list Node.Resolver) :
  omap f (omap (settles_within timeout) rs)
  = omap (fun r => settles_within timeout r ≫= f) rs.
Proof.
  induction rs as [|r rs IH]; simpl; [reflexivity|].
  destruct (settles_within timeout r) as [p|]; simpl; [|exact IH].
  destruct (f p); simpl; [f_equal|]; exact IH.
Qed.

Lemma length_omap_le {A B} (f : A -> option B) l :
  (length (omap f l) <= length l)%nat.
Proof.
  induction l as [|x l IH]; [reflexivity|].
  change (omap f (x :: l))
    with (match f x with Some y => y :: omap f l | None => omap f l end).
  destruct (f x); cbn [length]; lia.
Qed.

Lemma length_omap_lt {A B} (f : A -> option B) l x :
  x ∈ l -> f x = None -> (length (omap f l) < length l)%nat.
Proof.
  intros Hx Hnone. induction l as [|x0 l IH]; [now apply elem_of_nil in Hx|].
  change (omap f (x0 :: l))
    with (match f x0 with Some y => y :: omap f l | None => omap f l end).
  apply elem_of_cons in Hx as [<-|Hx].
  - rewrite Hnone. pose proof (length_omap_le f l). cbn [length]. lia.
  - specialize (IH Hx). destruct (f x0); cbn [length]; lia.
Qed.

(** Each resolver either has answered within the timeout, or it counts
    among those that failed or hang. *)
Lemma succeeded_or_not (rs : list Node.Resolver) :
  (length (omap (succeeded timeout) rs)
   + length (filter (fun r => succeeded timeout r = None) rs))%nat
  = length rs.
Proof.
  induction rs as [|r rs IH]; [reflexivity|].
  rewrite filter_cons.
  change (omap (succeeded timeout) (r :: rs))
    with (match succeeded timeout r with
          | Some y => y :: omap (succeeded timeout) rs
          | None => omap (succeeded timeout) rs
          end).
  destruct (succeeded timeout r) as [y|] eqn:Hr.
  - rewrite decide_False by discriminate. cbn [length]. lia.
  - rewrite decide_True by reflexivity. cbn [length]. lia.
Qed.

(** The wait, run on a sorted queue of promises that settle before the
    timer: every callback runs, in order, and the clock stops at the
    last settlement or at the timer. *)
Lemma await_race_run start queue : forall pending arrResult w,
  (length queue <= pending)%nat ->
  StronglySorted not_later queue ->
  Forall (fun p => now w <= start + Z.of_N p.1 <= start + timeout) queue ->
  now w <= start + timeout ->
  exists clock,
    Node.await_race timeout start pending queue arrResult w
    = (Normal (arrResult ++ concat (omap answer_of queue).*2),
       MkWorld (peers w) (nextRef w) (book w) (mempool w)
         (trace w ++ map logged (omap error_of queue)) clock) /\
    now w <= clock <= start + timeout /\
    ((length queue < pending)%nat -> clock = start + timeout).
Proof.
  induction queue as [|[delay s] queue IH];
    intros pending arrResult w Hlen Hsorted Hall Hnow.
  - destruct pending as [|pending]; simpl.
    + exists (now w). rewrite !app_nil_r. destruct w; simpl.
      split; [reflexivity|]. split; [simpl in Hnow; lia|lia].
    + exists (start + timeout). rewrite !app_nil_r.
      split; [reflexivity|]. split; [lia|reflexivity].
  - destruct pending as [|pending]; [simpl in Hlen; lia|].
    apply StronglySorted_inv in Hsorted as [Hsorted Hfirst].
    apply Forall_cons in Hall as [Hhere Hall]. simpl in Hhere.
    assert (Hrest : Forall (fun p => start + Z.of_N delay
                                     <= start + Z.of_N p.1
                                     <= start + timeout) queue).
    { rewrite Forall_forall in *. intros p Hp.
      specialize (Hall p Hp). specialize (Hfirst p Hp).
      unfold not_later in Hfirst. simpl in Hfirst. lia. }
    destruct s as [arrAddresses|err].
    + destruct (IH pending (arrResult ++ arrAddresses)
                  (set_now (start + Z.of_N delay) w))
        as (clock & Hrun & Hclock & Htimer);
        [simpl in Hlen; lia | exact Hsorted | exact Hrest | simpl; lia |].
      exists clock. split; [|split].
      * cbn [Node.await_race]. unfold bind, modify, Node.settle, ret.
        rewrite Hrun. unfold answer_of, error_of. simpl.
        now rewrite app_assoc.
      * simpl in Hclock. lia.
      * intros H. apply Htimer. simpl in H. lia.
    + destruct (IH pending arrResult
                  (emit (EvLog ERROR (err_message err))
                     (set_now (start + Z.of_N delay) w)))
        as (clock & Hrun & Hclock & Htimer);
        [simpl in Hlen; lia | exact Hsorted | exact Hrest | simpl; lia |].
      exists clock. split; [|split].
      * cbn [Node.await_race]. unfold Node.settle, logger.
        unfold bind, modify, ret. cbv beta iota. rewrite Hrun. unfold answer_of, error_of, logged. simpl.
        now rewrite <- app_assoc.
      * simpl in Hclock. lia.
      * intros H. apply Htimer. simpl in H. lia.
Qed.

End DnsFacts.


(* ===================================================================== *)
(** ** The theorems at concrete inputs *)
(* ===================================================================== *)

Import Constants Messages Examples.

(** Premature message: a transaction from a peer that has sent neither
    version nor verack. *)
Lemma handshake_gating_witness :
  let w := world_of newcomer in
  peers w !! 0%nat = Some newcomer /\
  Peer.fullyConnected newcomer = false /\
  run (MsgTx tx_unknown) w
  = (Normal tt,
     penalised 0%nat newcomer
       "Peer 10.0.0.2 missed version handshake stage" w) /\
  Peer.misbehaviorScore (Peer.misbehave (now w) 1 newcomer)
  = Peer.misbehaviorScore newcomer + 1.
Proof.
  intros w.
  assert (Hp : peers w !! 0%nat = Some newcomer) by reflexivity.
  assert (Hf : Peer.fullyConnected newcomer = false) by reflexivity.
  assert (H1 : message (MsgTx tx_unknown) <> MSG_VERSION) by discriminate.
  assert (H2 : message (MsgTx tx_unknown) <> MSG_VERACK) by discriminate.
  assert (H3 : message (MsgTx tx_unknown) <> MSG_REJECT) by discriminate.
  destruct (handshake_gating Crypto_address node w 0%nat newcomer
              (MsgTx tx_unknown) Hp Hf H1 H2 H3) as [Hrun [Hscore _]].
  split; [exact Hp|]. split; [exact Hf|]. split; [exact Hrun | exact Hscore].
Defined.

(** A ping from a fully connected peer. *)
Lemma unhandled_type_costs_one_point_witness :
  let w := world_of established in
  peers w !! 0%nat = Some established /\
  Peer.fullyConnected established = true /\
  run (MsgCommon MSG_PING) w
  = (Normal tt,
     penalised 0%nat established
       "Unhandled message type ping Peer 10.0.0.2." w) /\
  Peer.misbehaviorScore (Peer.misbehave (now w) 1 established)
  = Peer.misbehaviorScore established + 1.
Proof.
  intros w.
  assert (Hp : peers w !! 0%nat = Some established) by reflexivity.
  assert (Hf : Peer.fullyConnected established = true) by reflexivity.
  destruct (unhandled_type_costs_one_point Crypto_address node w 0%nat
              established (MsgCommon MSG_PING) Hp Hf)
    as [Hrun [Hscore _]]; try discriminate.
  split; [exact Hp|]. split; [exact Hf|]. split; [exact Hrun | exact Hscore].
Defined.

(** A transaction whose sender, Uxbb, has no account. *)
Lemma unknown_account_rejected_witness :
  let w := world_of established in
  Node.getAccount (Node._storage node) (Crypto_address (publicKey tx_unknown))
  = Normal None /\
  (run (MsgTx tx_unknown) w).1 = Normal tt /\
  mempool (run (MsgTx tx_unknown) w).2 = mempool w /\
  Peer.misbehaviorScore <$> peers (run (MsgTx tx_unknown) w).2 !! 0%nat
  = Some 1.
Proof.
  intros w.
  assert (Hp : peers w !! 0%nat = Some established) by reflexivity.
  assert (Hf : Peer.fullyConnected established = true) by reflexivity.
  assert (Ha : Node.getAccount (Node._storage node)
                 (Crypto_address (publicKey tx_unknown)) = Normal None)
    by reflexivity.
  destruct (unknown_account_rejected Crypto_address node w 0%nat established
              tx_unknown Hp Hf Ha) as [Hrun [Hmem [_ [Hpeer Hscore]]]].
  split; [exact Ha|]. split; [unfold run; now rewrite Hrun|].
  split; [exact Hmem|]. unfold run. rewrite Hpeer. reflexivity.
Defined.

(** C7, counterexample.  The storage of [node] throws for the sender of
    [tx_failing]; the fully connected peer that sent the transaction had
    score 0 and ends with score 1: the local failure was not free. *)
Lemma local_failure_counterexample :
  ~ local_failure_is_free Crypto_address node (world_of established) 0%nat
      tx_failing.
Proof.
  intros Hfree.
  destruct (Hfree established (Error "storage unavailable") eq_refl eq_refl)
    as [p' [Hp' Hle]].
  vm_compute in Hp'. injection Hp' as <-. vm_compute in Hle. apply Hle.
  reflexivity.
Qed.

(** The storage fails while the transaction of a fully connected peer is
    checked. *)
Lemma storage_failure_charged_to_peer_witness :
  let w := world_of established in
  peers w !! 0%nat = Some established /\
  Peer.fullyConnected established = true /\
  Node.getAccount (Node._storage node) (Crypto_address (publicKey tx_failing))
  = Throw (Error "storage unavailable") /\
  Node.dispatch Crypto_address node 0%nat (MsgTx tx_failing) w
  = (Throw (Error "storage unavailable"), w) /\
  run (MsgTx tx_failing) w
  = (Normal tt,
     penalised 0%nat established "storage unavailable Peer 10.0.0.2." w) /\
  mempool (run (MsgTx tx_failing) w).2 = mempool w /\
  Peer.misbehaviorScore <$> peers (run (MsgTx tx_failing) w).2 !! 0%nat
  = Some 1.
Proof.
  intros w.
  assert (Hp : peers w !! 0%nat = Some established) by reflexivity.
  assert (Hf : Peer.fullyConnected established = true) by reflexivity.
  assert (Ha : Node.getAccount (Node._storage node)
                 (Crypto_address (publicKey tx_failing))
               = Throw (Error "storage unavailable")) by reflexivity.
  assert (Hd : Node.dispatch Crypto_address node 0%nat (MsgTx tx_failing) w
               = (Throw (Error "storage unavailable"), w)) by reflexivity.
  destruct (storage_failure_charged_to_peer Crypto_address node w 0%nat
              established Hp) as [Hany Htx].
  destruct (Hany (MsgTx tx_failing) _ w established Hd Hp) as [Hrun _].
  destruct (Htx tx_failing _ Hf Ha) as [_ [Hmem [Hpeer _]]].
  split; [exact Hp|]. split; [exact Hf|]. split; [exact Ha|].
  split; [exact Hd|]. split; [exact Hrun|].
  split; [exact Hmem|]. unfold run. rewrite Hpeer. reflexivity.
Defined.

(** A reject received before any handshake. *)
Lemma reject_sets_loadDone_witness :
  let w := world_of newcomer in
  let out := run (MsgReject reject_code "Duplicate connection detected") w in
  peers w !! 0%nat = Some newcomer /\
  Peer.fullyConnected newcomer = false /\
  out.1 = Normal tt /\
  Peer.loadDone <$> peers out.2 !! 0%nat = Some true /\
  Peer.misbehaviorScore <$> peers out.2 !! 0%nat = Some 1.
Proof.
  intros w out.
  assert (Hp : peers w !! 0%nat = Some newcomer) by reflexivity.
  destruct (reject_sets_loadDone Crypto_address node w 0%nat newcomer
              reject_code "Duplicate connection detected" Hp)
    as [Hrun _].
  split; [exact Hp|]. split; [reflexivity|].
  unfold out, run. rewrite Hrun. repeat split.
Defined.

(** Self-loop: node 777 receives its own version on an accepted
    connection. *)
Lemma self_connection_banned_witness :
  let w := world_of newcomer in
  let out := run (MsgVersion own_version) w in
  peers w !! 0%nat = Some newcomer /\
  nonce own_version = Node._nonce node /\
  out.1 = Normal tt /\
  trace out.2 = [EvBan 0%nat] /\
  Peer.bannedUntil <$> peers out.2 !! 0%nat = Some (Some (1000 + BAN_PEER_TIME)) /\
  Peer.version <$> peers out.2 !! 0%nat = Some None /\
  Peer.outbox <$> peers out.2 !! 0%nat = Some [].
Proof.
  intros w out.
  assert (Hp : peers w !! 0%nat = Some newcomer) by reflexivity.
  assert (Hn : nonce own_version = Node._nonce node) by reflexivity.
  destruct (self_connection_banned Crypto_address node w 0%nat newcomer
              own_version Hp Hn) as [_ [Hrun _]].
  split; [exact Hp|]. split; [exact Hn|].
  unfold out, run. rewrite Hrun. repeat split.
Defined.

(** C5, counterexample.  The node dialled the peer ([inbound = false])
    and the version of the peer has not arrived; on its verack nothing is
    pushed, so clause (b) of the statement fails. *)
Lemma verack_counterexample :
  ~ verack_as_stated Crypto_address node (world_of dialled) 0%nat.
Proof.
  intros Hstated.
  destruct (Hstated dialled eq_refl) as [_ Hb].
  specialize (Hb eq_refl). vm_compute in Hb.
  apply list_elem_of_In in Hb. exact Hb.
Qed.

(** A verack from a dialled peer whose version is known. *)
Lemma verack_completes_handshake_witness :
  let w := world_of dialled_versioned in
  let out := run (MsgCommon MSG_VERACK) w in
  peers w !! 0%nat = Some dialled_versioned /\
  Peer.versionSet dialled_versioned = true /\
  Peer.inbound dialled_versioned = false /\
  out.1 = Normal tt /\
  (exists p', peers out.2 !! 0%nat = Some p' /\ Peer.fullyConnected p' = true) /\
  pushed_to 0%nat (drop (length (trace w)) (trace out.2))
  = [MsgCommon MSG_GET_ADDR].
Proof.
  intros w out.
  assert (Hp : peers w !! 0%nat = Some dialled_versioned) by reflexivity.
  assert (Hv : Peer.versionSet dialled_versioned = true) by reflexivity.
  assert (Hi : Peer.inbound dialled_versioned = false) by reflexivity.
  destruct (verack_completes_handshake Crypto_address node w 0%nat
              dialled_versioned Hp) as [Hres [Hset _]].
  destruct (Hset Hv) as [Hfc [Hout _]].
  destruct (Hout Hi) as [Hpush _].
  split; [exact Hp|]. split; [exact Hv|]. split; [exact Hi|].
  split; [exact Hres|]. split; [exact Hfc | exact Hpush].
Defined.

(** Duplicate connection: 10.0.0.2 is bound to a live peer and connects
    again; 10.0.0.9 is unknown and connects. *)
Lemma duplicate_connection_rejected_witness :
  let w := world_of established in
  let reject := MsgReject reject_code "Duplicate connection detected" in
  book w !! "10.0.0.2" = Some 0%nat /\
  peers w !! 0%nat = Some established /\
  Peer.connected established = true /\
  peers w !! nextRef w = None /\
  (let out := Node._incomingConnection reject_code node "10.0.0.2" w in
   out.1 = Normal tt /\
   trace out.2 = [EvPush 1%nat reject; EvDisconnect 1%nat] /\
   peers out.2 !! 0%nat = Some established /\
   book out.2 = book w) /\
  (let out := Node._incomingConnection reject_code node "10.0.0.9" w in
   out.1 = Normal tt /\ trace out.2 = trace w).
Proof.
  intros w reject.
  assert (Hb : book w !! "10.0.0.2" = Some 0%nat) by reflexivity.
  assert (Hp : peers w !! 0%nat = Some established) by reflexivity.
  assert (Hc : Peer.connected established = true) by reflexivity.
  assert (Hfresh : peers w !! nextRef w = None) by reflexivity.
  destruct (duplicate_connection_rejected reject_code node w "10.0.0.2")
    as [Hdup _].
  destruct (Hdup 0%nat established Hb Hp Hc Hfresh) as [Hrun [_ [_ Hold]]].
  destruct (duplicate_connection_rejected reject_code node w "10.0.0.9")
    as [_ [_ Hfree]].
  destruct (Hfree 1%nat
              (MkWorld (<[1%nat := Peer.ofConnection "10.0.0.9"]> (peers w))
                 2 (<["10.0.0.9" := 1%nat]> (book w)) [] [] 1000) eq_refl)
    as [Hrun' Htrace].
  split; [exact Hb|]. split; [exact Hp|]. split; [exact Hc|].
  split; [exact Hfresh|]. split.
  - rewrite Hrun. simpl. split; [reflexivity|]. split; [reflexivity|].
    split; [exact Hold | reflexivity].
  - rewrite Hrun'. simpl. split; reflexivity.
Defined.


(* ===================================================================== *)
(** ** The version handshake, case by case *)
(* ===================================================================== *)

Section HandshakeFacts.

Context {Account : Type} (Crypto_address : PublicKey -> Address).

Implicit Types (this : Node.t Account) (w : World) (r : PeerRef)
         (p : Peer.t) (v : VersionPayload).

Lemma pushMessage_ok w r p m :
  peers w !! r = Some p ->
  pushMessage r m w
  = (Normal tt,
     MkWorld (<[r := Peer.pushMessage m p]> (peers w)) (nextRef w) (book w)
       (mempool w) (trace w ++ [EvPush r m]) (now w)).
Proof. intros H. unfold pushMessage. now rewrite (call_ok _ r p). Qed.

Lemma disconnect_ok w r p :
  peers w !! r = Some p ->
  disconnect r w
  = (Normal tt,
     MkWorld (<[r := Peer.disconnect p]> (peers w)) (nextRef w) (book w)
       (mempool w) (trace w ++ [EvDisconnect r]) (now w)).
Proof. intros H. unfold disconnect. now rewrite (call_ok _ r p). Qed.

(** A typed version message goes to [_handleVersionMessage], whatever the
    state of the peer. *)
Lemma dispatch_version this r v w :
  Node._incomingMessage Crypto_address this r (MsgVersion v) w
  = try_catch (Node._handleVersionMessage this r (MsgVersion v))
      (Node.on_error r) w.
Proof. reflexivity. Qed.

(** The world after the first acceptable version of a peer. *)
Lemma handleVersion_first this w r p v :
  peers w !! r = Some p ->
  (nonce v =? Node._nonce this) = false ->
  (Constants.protocolVersion <=? protocolVersion v) = true ->
  Peer.versionSet p = false ->
  let verack := MsgCommon MSG_VERACK in
  let own := Node._createMsgVersion this in
  let p1 := Peer.set_version (Some (protocolVersion v)) p in
  Node._handleVersionMessage this r (MsgVersion v) w
  = (Normal tt,
     if Peer.inbound p then
       MkWorld
         (<[r := Peer.pushMessage verack
                   (Peer.pushMessage own (Peer.set_peerInfo (peerInfo v) p1))]>
            (peers w))
         (nextRef w) (book w) (mempool w)
         (trace w ++ [EvUpdateHandlers r; EvPush r own; EvPush r verack])
         (now w)
     else
       MkWorld (<[r := Peer.pushMessage verack p1]> (peers w))
         (nextRef w) (book w) (mempool w)
         (trace w ++ [EvPush r verack]) (now w)).
Proof.
  intros Hp Hn Hv Hs verack own p1.
  unfold Node._handleVersionMessage. simpl.
  unfold bind at 1. unfold ret at 1. rewrite Hn, Hv.
  rewrite (bind_normal _ _ _ _ _ (peer_ok _ _ _ Hp)). rewrite Hs. simpl.
  rewrite (bind_normal _ _ _ _ _ (assign_ok _ _ _ _ Hp)). fold p1.
  destruct (Peer.inbound p).
  - erewrite bind_normal; cycle 1.
    { erewrite bind_normal by (apply assign_ok; simpl; apply lookup_insert_eq).
      unfold PeerManager.updateHandlers.
      erewrite bind_normal by (apply call_ok; simpl; apply lookup_insert_eq).
      apply pushMessage_ok. simpl. apply lookup_insert_eq. }
    erewrite pushMessage_ok by (simpl; apply lookup_insert_eq).
    simpl. rewrite !insert_insert_eq, <- !app_assoc. reflexivity.
  - unfold bind at 1. unfold ret at 1.
    erewrite pushMessage_ok by (simpl; apply lookup_insert_eq).
    simpl. rewrite !insert_insert_eq. reflexivity.
Qed.

(** X1 (incompatible version).  A version message that is not the node's
    own and whose [protocolVersion] is below [Constants.protocolVersion]
    makes the node disconnect the peer and do nothing else: the only call
    is [peer.disconnect()], no version is recorded, no message is pushed,
    and the peer is not charged a misbehavior point. *)
Theorem incompatible_version_disconnects this w r p v :
  peers w !! r = Some p ->
  nonce v <> Node._nonce this ->
  protocolVersion v < Constants.protocolVersion ->
  Node._incomingMessage Crypto_address this r (MsgVersion v) w
  = (Normal tt,
     MkWorld (<[r := Peer.disconnect p]> (peers w)) (nextRef w) (book w)
       (mempool w) (trace w ++ [EvDisconnect r]) (now w)) /\
  Peer.version (Peer.disconnect p) = Peer.version p /\
  Peer.misbehaviorScore (Peer.disconnect p) = Peer.misbehaviorScore p /\
  Peer.outbox (Peer.disconnect p) = Peer.outbox p /\
  Peer.connected (Peer.disconnect p) = false.
Proof.
  intros Hp Hn Hv. split; [|repeat split].
  rewrite dispatch_version. unfold try_catch, Node._handleVersionMessage.
  simpl. unfold bind at 1. unfold ret at 1.
  rewrite (proj2 (Z.eqb_neq _ _) Hn), (proj2 (Z.leb_gt _ _) Hv).
  now rewrite (disconnect_ok _ _ _ Hp).
Qed.

(** X2 (repeated version).  A compatible version message, not the node's
    own, from a peer whose version is already set costs the peer one
    misbehavior point and changes nothing else: the recorded version is
    kept, [peerInfo] is not replaced and nothing is pushed, on inbound and
    outbound connections alike. *)
Theorem repeated_version_costs_one_point this w r p v :
  peers w !! r = Some p ->
  nonce v <> Node._nonce this ->
  Constants.protocolVersion <= protocolVersion v ->
  Peer.versionSet p = true ->
  let p' := Peer.misbehave (now w) 1 p in
  Node._incomingMessage Crypto_address this r (MsgVersion v) w
  = (Normal tt,
     MkWorld (<[r := p']> (peers w)) (nextRef w) (book w) (mempool w)
       (trace w ++ [EvMisbehave r 1]) (now w)) /\
  Peer.misbehaviorScore p' = Peer.misbehaviorScore p + 1 /\
  same_but_score_and_ban p p'.
Proof.
  intros Hp Hn Hv Hs p'. split; [|split].
  - rewrite dispatch_version. unfold try_catch, Node._handleVersionMessage.
    simpl. unfold bind at 1. unfold ret at 1.
    rewrite (proj2 (Z.eqb_neq _ _) Hn), (proj2 (Z.leb_le _ _) Hv).
    rewrite (bind_normal _ _ _ _ _ (peer_ok _ _ _ Hp)). rewrite Hs. simpl.
    now rewrite (misbehave_ok _ _ _ _ Hp).
  - apply misbehave_score.
  - apply misbehave_same.
Qed.

(** X3 (first version, inbound).  On an accepted connection, the first
    compatible version message that is not the node's own is answered
    with exactly two messages, in this order: the node's own version
    (carrying the node's nonce), then a verack.  The peer's version
    becomes the announced [protocolVersion], its [peerInfo] becomes the
    announced one, its handlers are re-registered once; the peer is not
    yet fully connected unless it was, and its score is unchanged. *)
Theorem first_version_inbound this w r p v :
  peers w !! r = Some p ->
  nonce v <> Node._nonce this ->
  Constants.protocolVersion <= protocolVersion v ->
  Peer.versionSet p = false ->
  Peer.inbound p = true ->
  let out := Node._incomingMessage Crypto_address this r (MsgVersion v) w in
  let own := Node._createMsgVersion this in
  out.1 = Normal tt /\
  trace out.2
  = trace w ++ [EvUpdateHandlers r; EvPush r own; EvPush r (MsgCommon MSG_VERACK)] /\
  (exists n, own = MsgVersion n /\ nonce n = Node._nonce this) /\
  (exists p', peers out.2 !! r = Some p' /\
     Peer.version p' = Some (protocolVersion v) /\
     Peer.versionSet p' = true /\
     Peer.peerInfo p' = peerInfo v /\
     Peer.outbox p' = Peer.outbox p ++ [own; MsgCommon MSG_VERACK] /\
     Peer.fullyConnected p' = Peer.fullyConnected p /\
     Peer.misbehaviorScore p' = Peer.misbehaviorScore p /\
     Peer.connected p' = Peer.connected p) /\
  (forall r', r' <> r -> peers out.2 !! r' = peers w !! r') /\
  book out.2 = book w /\ mempool out.2 = mempool w.
Proof.
  intros Hp Hn Hv Hs Hi out own.
  assert (Hpos : Peer.versionSet (Peer.set_version (Some (protocolVersion v)) p)
                 = true).
  { unfold Peer.versionSet. simpl. apply negb_true_iff, Z.eqb_neq.
    unfold Constants.protocolVersion in Hv. lia. }
  unfold out. rewrite dispatch_version. unfold try_catch.
  rewrite (handleVersion_first this w r p v Hp
             (proj2 (Z.eqb_neq _ _) Hn) (proj2 (Z.leb_le _ _) Hv) Hs).
  rewrite Hi. simpl.
  split; [reflexivity|]. split; [reflexivity|].
  split; [eexists; split; reflexivity|]. split.
  - eexists. split; [apply lookup_insert_eq|]. simpl.
    split; [reflexivity|]. split; [exact Hpos|]. split; [reflexivity|].
    split; [now rewrite <- app_assoc|]. repeat split.
  - split; [|split; reflexivity].
    intros r' Hne. now rewrite lookup_insert_ne.
Qed.

(** X4 (first version, outbound).  On a connection the node dialled, the
    first compatible version message that is not the node's own is
    answered with a verack alone: the node does not send its version
    again and keeps the [peerInfo] it dialled.  The peer's version
    becomes the announced [protocolVersion]. *)
Theorem first_version_outbound this w r p v :
  peers w !! r = Some p ->
  nonce v <> Node._nonce this ->
  Constants.protocolVersion <= protocolVersion v ->
  Peer.versionSet p = false ->
  Peer.inbound p = false ->
  let out := Node._incomingMessage Crypto_address this r (MsgVersion v) w in
  out.1 = Normal tt /\
  trace out.2 = trace w ++ [EvPush r (MsgCommon MSG_VERACK)] /\
  (exists p', peers out.2 !! r = Some p' /\
     Peer.version p' = Some (protocolVersion v) /\
     Peer.versionSet p' = true /\
     Peer.peerInfo p' = Peer.peerInfo p /\
     Peer.outbox p' = Peer.outbox p ++ [MsgCommon MSG_VERACK] /\
     Peer.fullyConnected p' = Peer.fullyConnected p /\
     Peer.misbehaviorScore p' = Peer.misbehaviorScore p) /\
  (forall r', r' <> r -> peers out.2 !! r' = peers w !! r') /\
  book out.2 = book w /\ mempool out.2 = mempool w.
Proof.
  intros Hp Hn Hv Hs Hi out.
  assert (Hpos : Peer.versionSet (Peer.set_version (Some (protocolVersion v)) p)
                 = true).
  { unfold Peer.versionSet. simpl. apply negb_true_iff, Z.eqb_neq.
    unfold Constants.protocolVersion in Hv. lia. }
  unfold out. rewrite dispatch_version. unfold try_catch.
  rewrite (handleVersion_first this w r p v Hp
             (proj2 (Z.eqb_neq _ _) Hn) (proj2 (Z.leb_le _ _) Hv) Hs).
  rewrite Hi. simpl.
  split; [reflexivity|]. split; [reflexivity|]. split.
  - eexists. split; [apply lookup_insert_eq|]. simpl.
    split; [reflexivity|]. split; [exact Hpos|]. repeat split.
  - split; [|split; reflexivity].
    intros r' Hne. now rewrite lookup_insert_ne.
Qed.

End HandshakeFacts.

(* ===================================================================== *)
(** ** Handshake, address request, transactions and connections *)
(* ===================================================================== *)

Section ExchangeFacts.

Context (REJECT_DUPLICATE : Z) {Account : Type}
        (Crypto_address : PublicKey -> Address).

Implicit Types (this : Node.t Account) (w : World) (r : PeerRef)
         (p : Peer.t) (v : VersionPayload).

(** X5 (the handshake composes).  Let a peer without version send a
    compatible version that is not the node's own, and then a verack.
    After the two messages the peer is fully connected with the announced
    version, its score is unchanged, and its queue has grown by exactly
    two messages: the node's own version then a verack on an accepted
    connection, a verack then a 'getaddr' on a dialled one. *)
Theorem handshake_completes this w r p v :
  peers w !! r = Some p ->
  nonce v <> Node._nonce this ->
  Constants.protocolVersion <= protocolVersion v ->
  Peer.versionSet p = false ->
  let w2 :=
    feed Crypto_address this r [MsgVersion v; MsgCommon MSG_VERACK] w in
  exists p2, peers w2 !! r = Some p2 /\
    Peer.fullyConnected p2 = true /\
    Peer.version p2 = Some (protocolVersion v) /\
    Peer.misbehaviorScore p2 = Peer.misbehaviorScore p /\
    Peer.outbox p2
    = Peer.outbox p ++
      (if Peer.inbound p
       then [Node._createMsgVersion this; MsgCommon MSG_VERACK]
       else [MsgCommon MSG_VERACK; MsgCommon MSG_GET_ADDR]).
Proof.
  intros Hp Hn Hv Hs w2.
  assert (Hpos : Peer.versionSet (Peer.set_version (Some (protocolVersion v)) p)
                 = true).
  { unfold Peer.versionSet. simpl. apply negb_true_iff, Z.eqb_neq.
    unfold Constants.protocolVersion in Hv. lia. }
  pose proof (handleVersion_first this w r p v Hp
                (proj2 (Z.eqb_neq _ _) Hn) (proj2 (Z.leb_le _ _) Hv) Hs) as H1.
  cbv zeta in H1.
  assert (Hack : forall w1 p1, peers w1 !! r = Some p1 ->
            Node._incomingMessage Crypto_address this r (MsgCommon MSG_VERACK) w1
            = Node._handleVerackMessage r w1).
  { intros w1 p1 Hp1. unfold Node._incomingMessage, try_catch, Node.dispatch.
    simpl. now rewrite (handleVerack_cases w1 r p1 Hp1). }
  unfold w2. simpl feed. rewrite dispatch_version. unfold try_catch at 1.
  rewrite H1. unfold snd at 2.
  destruct (Peer.inbound p) eqn:Hi.
  - erewrite Hack by (simpl; apply lookup_insert_eq).
    erewrite handleVerack_cases by (simpl; apply lookup_insert_eq).
    unfold Peer.versionSet in Hpos |- *. simpl in Hpos |- *.
    rewrite Hpos, ?Hi. simpl.
    eexists. split; [apply lookup_insert_eq|]. simpl.
    repeat split. now rewrite <- app_assoc.
  - erewrite Hack by (simpl; apply lookup_insert_eq).
    erewrite handleVerack_cases by (simpl; apply lookup_insert_eq).
    unfold Peer.versionSet in Hpos |- *. simpl in Hpos |- *.
    rewrite Hpos, ?Hi. simpl.
    eexists. split; [apply lookup_insert_eq|]. simpl.
    repeat split. now rewrite <- app_assoc.
Qed.

(** X6 (address request).  A 'getaddr' from a fully connected peer is
    answered, whatever the book holds, with exactly one 'addr' message
    pushed to the asker.  Its count is the number of entries of the book;
    it carries the descriptor of every peer of the book, the asker's own
    included when the asker is in the book, and is empty when the book is
    empty.  The asker is not charged and the book, the mempool and the
    state of every other peer are unchanged. *)
Theorem getaddr_answered_with_whole_book this w r p :
  peers w !! r = Some p ->
  Peer.fullyConnected p = true ->
  book_valid w ->
  let out :=
    Node._incomingMessage Crypto_address this r (MsgCommon MSG_GET_ADDR) w in
  exists infos,
    out.1 = Normal tt /\
    pushed_to r (drop (length (trace w)) (trace out.2))
    = [MsgAddr (Z.of_nat (size (book w))) infos] /\
    length infos = size (book w) /\
    (forall a r' q, book w !! a = Some r' -> peers w !! r' = Some q ->
       Peer.peerInfo q ∈ infos) /\
    peers out.2 !! r
    = Some (Peer.pushMessage (MsgAddr (Z.of_nat (size (book w))) infos) p) /\
    (forall r', r' <> r -> peers out.2 !! r' = peers w !! r') /\
    book out.2 = book w /\ mempool out.2 = mempool w.
Proof.
  intros Hp Hfc Hvalid out.
  destruct (handlePeerRequest_one_addr w r p Hp Hvalid) as [Hrun Hlen].
  exists (infos_of w (map_to_list (book w)).*2).
  assert (Hout : out = Node._handlePeerRequest r w).
  { unfold out, Node._incomingMessage, try_catch.
    rewrite (dispatch_past_handshake Crypto_address this r _ w p Hp);
      try discriminate.
    rewrite Hfc. simpl. now rewrite Hrun. }
  rewrite Hout, Hrun. simpl. rewrite Hlen.
  split; [reflexivity|]. split.
  - rewrite drop_app_length.
    destruct (ADDR_MAX_LENGTH <? Z.of_nat (size (book w))); simpl;
      now rewrite bool_decide_eq_true_2.
  - split; [reflexivity|]. split.
    + intros a r' q Hb Hq. unfold infos_of. apply list_elem_of_omap.
      exists r'. split; [|now rewrite Hq].
      apply list_elem_of_fmap. exists (a, r'). split; [reflexivity|].
      now apply elem_of_map_to_list.
    + split; [apply lookup_insert_eq|]. split; [|split; reflexivity].
      intros r' Hne. now rewrite lookup_insert_ne.
Qed.

(** X7 (no transaction gets through).  Let [p] be a fully connected peer.
    Every [MsgTx] from [p] ends in the [catch] block, whatever Storage
    answers for the sender of the transaction: an unknown account makes
    [_checkTx] throw, a failing Storage throws by itself, and a known
    account lets [_handleTx] go on to [this._mempool.accept], which is a
    TypeError because the node has no [_mempool].  In each case the
    message of the exception is logged, [misbehave(1)] is called on [p],
    whose score grows by exactly 1, and that is all: the mempool is as
    before and nothing is relayed. *)
Theorem tx_never_gets_through this w r p tx :
  peers w !! r = Some p ->
  Peer.fullyConnected p = true ->
  let out := Node._incomingMessage Crypto_address this r (MsgTx tx) w in
  let err :=
    match Node.getAccount (Node._storage this)
            (Crypto_address (publicKey tx)) with
    | Normal (Some _) =>
        TypeError "Cannot read property 'accept' of undefined"
    | Normal None => Error "Account doesn't found"
    | Throw e => e
    end in
  out = (Normal tt,
         penalised r p
           (err_message err +:+ " Peer " +:+ Peer.address p +:+ ".") w) /\
  mempool out.2 = mempool w /\
  (forall t, EvRelay t ∉ drop (length (trace w)) (trace out.2)) /\
  peers out.2 !! r = Some (Peer.misbehave (now w) 1 p) /\
  Peer.misbehaviorScore (Peer.misbehave (now w) 1 p)
  = Peer.misbehaviorScore p + 1.
Proof.
  intros Hp Hfc out err.
  assert (Hout : out = (Normal tt,
            penalised r p
              (err_message err +:+ " Peer " +:+ Peer.address p +:+ ".") w)).
  { apply (every_throw_is_charged Crypto_address this r _ w err w p);
      [|exact Hp].
    rewrite (dispatch_tx Crypto_address this r tx w p Hp Hfc).
    rewrite handleTx_lookup. unfold err.
    destruct (Node.getAccount _ _) as [[acc|]|e]; reflexivity. }
  rewrite Hout. simpl. repeat split.
  - intros t Hin. rewrite drop_app_length in Hin.
    apply list_elem_of_In in Hin. simpl in Hin. intuition discriminate.
  - apply lookup_insert_eq.
  - apply misbehave_score.
Qed.

(** Every way [addPeer] can end for a [Peer] object that is in the store. *)
Lemma addPeer_peer_cases r q w :
  peers w !! r = Some q ->
  (exists e, PeerManager.addPeer (inl r) w = (Throw e, w)) \/
  PeerManager.addPeer (inl r) w = (Normal None, w) \/
  PeerManager.addPeer (inl r) w
  = (Normal (Some r), set_book <[Peer.address q := r]> w).
Proof.
  intros Hq. unfold PeerManager.addPeer, peer, bind, get, ret, throw, modify.
  rewrite Hq. simpl.
  destruct (book w !! Peer.address q) as [r0|]; [|right; right; reflexivity].
  destruct (peers w !! r0) as [q0|]; simpl; [|left; eexists; reflexivity].
  destruct (Peer.connected q && Peer.connected q0);
    [right; left | right; right]; reflexivity.
Qed.

(** The frame of [_incomingConnection]: one new object, nothing else of
    the store, nothing pushed to the others, one binding at most. *)
Lemma incomingConnection_frame this w a :
  let out := Node._incomingConnection REJECT_DUPLICATE this a w in
  out.1 = Normal tt /\
  (forall r', r' <> nextRef w -> peers out.2 !! r' = peers w !! r') /\
  (forall r', r' <> nextRef w ->
     pushed_to r' (drop (length (trace w)) (trace out.2)) = []) /\
  (forall a', a' <> a -> book out.2 !! a' = book w !! a') /\
  mempool out.2 = mempool w.
Proof.
  intros out. unfold out, Node._incomingConnection, try_catch.
  rewrite (bind_normal _ _ _ _ _ (newPeer_ok a w)).
  set (w0 := MkWorld _ _ _ _ _ _).
  assert (Hn : peers w0 !! nextRef w = Some (Peer.ofConnection a))
    by apply lookup_insert_eq.
  assert (Hframe : forall r', r' <> nextRef w -> peers w0 !! r' = peers w !! r').
  { intros r' Hne. unfold w0. simpl. now rewrite lookup_insert_ne. }
  destruct (addPeer_peer_cases _ _ _ Hn) as [[e He]|[He|He]].
  - rewrite (bind_throw _ _ _ _ _ He). simpl.
    split; [reflexivity|]. split; [exact Hframe|].
    split; [|split; [reflexivity|reflexivity]].
    intros r' Hne. now rewrite drop_app_length.
  - rewrite (bind_normal _ _ _ _ _ He).
    rewrite (bind_normal _ _ _ _ _ (pushMessage_ok _ _ _ _ Hn)).
    erewrite disconnect_ok by (simpl; apply lookup_insert_eq). simpl.
    split; [reflexivity|]. split.
    + intros r' Hne. rewrite !lookup_insert_ne by congruence. reflexivity.
    + split; [|split; reflexivity].
      intros r' Hne. rewrite <- app_assoc, drop_app_length. simpl.
      now rewrite bool_decide_eq_false_2 by congruence.
  - rewrite (bind_normal _ _ _ _ _ He). simpl.
    split; [reflexivity|]. split; [exact Hframe|].
    split; [|split; [|reflexivity]].
    + intros r' Hne. now rewrite drop_ge.
    + intros a' Hne. now rewrite lookup_insert_ne.
Qed.

(** X8 (an incoming connection creates one peer).  Whatever the world and
    the remote address [a], [_incomingConnection] returns normally and
    allocates exactly one reference, the next free one; every other
    reference of the store is as it was, no message is pushed to any
    other peer, and the mempool and the clock are as before.  The new
    object and the book end in one of three ways:
    - the connection is admitted: the object is the fresh inbound peer of
      [a], the book binds [a] to it, and no call is made;
    - the connection is a duplicate: the object is the fresh peer after
      one [MsgReject] and a disconnect, which are the only calls, in this
      order, and the book is as before;
    - [addPeer] threw: the object is the fresh peer, the book is as
      before, and the error is logged. *)
Theorem incoming_connection_creates_one_peer this w a :
  let out := Node._incomingConnection REJECT_DUPLICATE this a w in
  let fresh := nextRef w in
  let reject := MsgReject REJECT_DUPLICATE "Duplicate connection detected" in
  out.1 = Normal tt /\
  nextRef out.2 = S fresh /\
  (forall r', r' <> fresh -> peers out.2 !! r' = peers w !! r') /\
  (forall r', r' <> fresh ->
     pushed_to r' (drop (length (trace w)) (trace out.2)) = []) /\
  mempool out.2 = mempool w /\ now out.2 = now w /\
  ((peers out.2 !! fresh = Some (Peer.ofConnection a) /\
    book out.2 = <[a := fresh]> (book w) /\
    trace out.2 = trace w) \/
   (peers out.2 !! fresh
    = Some (Peer.disconnect (Peer.pushMessage reject (Peer.ofConnection a))) /\
    book out.2 = book w /\
    trace out.2 = trace w ++ [EvPush fresh reject; EvDisconnect fresh]) \/
   (peers out.2 !! fresh = Some (Peer.ofConnection a) /\
    book out.2 = book w /\
    exists text, trace out.2 = trace w ++ [EvLog ERROR text])).
Proof.
  intros out fresh reject. subst fresh reject.
  unfold out, Node._incomingConnection, try_catch.
  rewrite (bind_normal _ _ _ _ _ (newPeer_ok a w)).
  set (w0 := MkWorld _ _ _ _ _ _).
  assert (Hn : peers w0 !! nextRef w = Some (Peer.ofConnection a))
    by apply lookup_insert_eq.
  assert (Hframe : forall r', r' <> nextRef w ->
                     peers w0 !! r' = peers w !! r').
  { intros r' Hne. unfold w0. simpl. now rewrite lookup_insert_ne. }
  destruct (addPeer_peer_cases _ _ _ Hn) as [[e He]|[He|He]].
  - rewrite (bind_throw _ _ _ _ _ He). simpl.
    split; [reflexivity|]. split; [reflexivity|]. split; [exact Hframe|].
    split; [intros r' Hne; now rewrite drop_app_length|].
    split; [reflexivity|]. split; [reflexivity|].
    right; right. split; [exact Hn|]. split; [reflexivity|].
    now exists (err_message e).
  - rewrite (bind_normal _ _ _ _ _ He).
    rewrite (bind_normal _ _ _ _ _ (pushMessage_ok _ _ _ _ Hn)).
    erewrite disconnect_ok by (simpl; apply lookup_insert_eq). simpl.
    split; [reflexivity|]. split; [reflexivity|]. split.
    { intros r' Hne. rewrite !lookup_insert_ne by congruence. reflexivity. }
    split.
    { intros r' Hne. rewrite <- app_assoc, drop_app_length. simpl.
      now rewrite bool_decide_eq_false_2 by congruence. }
    split; [reflexivity|]. split; [reflexivity|].
    right; left. split; [apply lookup_insert_eq|]. split; [reflexivity|].
    now rewrite <- app_assoc.
  - rewrite (bind_normal _ _ _ _ _ He). simpl.
    split; [reflexivity|]. split; [reflexivity|]. split; [exact Hframe|].
    split; [intros r' Hne; now rewrite drop_ge|].
    split; [reflexivity|]. split; [reflexivity|].
    left. split; [exact Hn|]. split; reflexivity.
Qed.

End ExchangeFacts.

(* ===================================================================== *)
(** ** What no handler ever does: a frame for the whole dispatcher *)
(* ===================================================================== *)

Section Frame.

Context (Q : Peer.t -> Peer.t -> Prop) (J : Peer.t -> Prop).
Hypothesis Q_refl : forall p, Q p p.
Hypothesis Q_trans : forall p1 p2 p3, Q p1 p2 -> Q p2 p3 -> Q p1 p3.

Lemma ok_refl w : store_wf w -> book_valid w -> ok Q J w w.
Proof.
  intros Hwf Hbv. repeat split; try assumption.
  - intros r p Hp. eauto.
  - auto.
Qed.

Lemma ok_trans w1 w2 w3 : ok Q J w1 w2 -> ok Q J w2 w3 -> ok Q J w1 w3.
Proof.
  intros (_ & _ & He1 & Hj1) (Hwf & Hbv & He2 & Hj2).
  repeat split; try assumption.
  - intros r p Hp. destruct (He1 r p Hp) as (p2 & Hp2 & Hq12).
    destruct (He2 r p2 Hp2) as (p3 & Hp3 & Hq23). eauto.
  - auto.
Qed.

(** One existing object is updated; book, mempool and trace are free. *)
Lemma ok_update w r p p' bk mp tr :
  store_wf w -> book_valid w ->
  peers w !! r = Some p -> Q p p' -> (J p -> J p') ->
  (forall a r0, bk !! a = Some r0 -> is_Some (peers w !! r0)) ->
  ok Q J w (MkWorld (<[r := p']> (peers w)) (nextRef w) bk mp tr (now w)).
Proof.
  intros Hwf Hbv Hp Hq Hj Hbk. repeat split; simpl.
  - intros r' Hge. simpl in *.
    destruct (decide (r = r')) as [->|Hne].
    + rewrite (Hwf r' Hge) in Hp. discriminate.
    + rewrite lookup_insert_ne by exact Hne. now apply Hwf.
  - intros a r0 Hb. simpl in *.
    destruct (decide (r = r0)) as [->|Hne].
    + rewrite lookup_insert_eq. eauto.
    + rewrite lookup_insert_ne by exact Hne. now apply (Hbk a).
  - intros r' q Hq'. simpl. destruct (decide (r = r')) as [->|Hne].
    + rewrite lookup_insert_eq. rewrite Hp in Hq'. injection Hq' as <-. eauto.
    + rewrite lookup_insert_ne by exact Hne. eauto.
  - intros Hall r' q. simpl. destruct (decide (r = r')) as [->|Hne].
    + rewrite lookup_insert_eq. intros [= <-]. apply Hj. now apply (Hall r').
    + rewrite lookup_insert_ne by exact Hne. apply Hall.
Qed.

(** The store is untouched; book, mempool and trace are free. *)
Lemma ok_same_store w bk mp tr :
  store_wf w ->
  (forall a r0, bk !! a = Some r0 -> is_Some (peers w !! r0)) ->
  ok Q J w (MkWorld (peers w) (nextRef w) bk mp tr (now w)).
Proof.
  intros Hwf Hbk. repeat split; simpl; try assumption.
  - intros r p Hp. eauto.
  - auto.
Qed.

(** A new object takes the next free reference. *)
Lemma ok_alloc w p0 bk mp tr :
  store_wf w -> J p0 ->
  (forall a r0, bk !! a = Some r0 ->
     r0 = nextRef w \/ is_Some (peers w !! r0)) ->
  ok Q J w (MkWorld (<[nextRef w := p0]> (peers w)) (S (nextRef w)) bk mp tr
              (now w)).
Proof.
  intros Hwf Hj Hbk. repeat split; simpl.
  - intros r' Hge. simpl in *.
    rewrite lookup_insert_ne by lia. apply Hwf. lia.
  - intros a r0 Hb. simpl in *. destruct (Hbk a r0 Hb) as [->|Hs].
    + rewrite lookup_insert_eq. eauto.
    + destruct (decide (nextRef w = r0)) as [<-|Hne].
      * rewrite lookup_insert_eq. eauto.
      * now rewrite lookup_insert_ne.
  - intros r p Hp. exists p. split; [|apply Q_refl]. simpl.
    rewrite lookup_insert_ne; [exact Hp|].
    intros <-. rewrite (Hwf (nextRef w)) in Hp by lia. discriminate.
  - intros Hall r q. simpl. destruct (decide (nextRef w = r)) as [<-|Hne].
    + rewrite lookup_insert_eq. now intros [= <-].
    + rewrite lookup_insert_ne by exact Hne. apply Hall.
Qed.

Lemma sound_sound_at {A} P (c : M A) : sound Q J c -> sound_at Q J P c.
Proof. intros Hc w res w' Hwf Hbv _ H. eapply Hc; eauto. Qed.

Lemma sound_ret {A} (a : A) : sound Q J (ret a).
Proof. intros w res w' Hwf Hbv [= _ <-]. now apply ok_refl. Qed.

Lemma sound_throw {A} e : sound Q J (@throw A e).
Proof. intros w res w' Hwf Hbv [= _ <-]. now apply ok_refl. Qed.

Lemma sound_lift {A} (c : Completion A) : sound Q J (Node.lift c).
Proof. intros w res w' Hwf Hbv [= _ <-]. now apply ok_refl. Qed.

Lemma sound_peer r : sound Q J (peer r).
Proof.
  intros w res w' Hwf Hbv. unfold peer, bind, get, ret, throw.
  destruct (peers w !! r); intros [= _ <-]; now apply ok_refl.
Qed.

Lemma sound_at_bind {A B} P (c : M A) (k : A -> M B) :
  sound_at Q J P c -> (forall a, sound Q J (k a)) ->
  sound_at Q J P (bind c k).
Proof.
  intros Hc Hk w res w' Hwf Hbv HP. unfold bind.
  destruct (c w) as [[a|e] w1] eqn:Hcw.
  - intros Hkw. pose proof (Hc w _ _ Hwf Hbv HP Hcw) as Hok.
    eapply ok_trans; [exact Hok|].
    destruct Hok as (Hwf1 & Hbv1 & _). eapply Hk; eauto.
  - intros [= <- <-]. eapply Hc; eauto.
Qed.

Lemma sound_bind {A B} (c : M A) (k : A -> M B) :
  sound Q J c -> (forall a, sound Q J (k a)) -> sound Q J (bind c k).
Proof.
  intros Hc Hk w res w' Hwf Hbv H.
  eapply (sound_at_bind (fun _ => True)); eauto.
  now apply sound_sound_at.
Qed.

(** After [p <- peer r] the continuation runs in a world where [r] is
    [p]. *)
Lemma sound_peer_bind {B} r (k : Peer.t -> M B) :
  (forall p, sound_at Q J (fun w => peers w !! r = Some p) (k p)) ->
  sound Q J (p <- peer r ;; k p).
Proof.
  intros Hk w res w' Hwf Hbv. unfold bind at 1. unfold peer, bind, get, ret, throw.
  destruct (peers w !! r) as [p|] eqn:Hp.
  - intros H. eapply Hk; eauto.
  - intros [= _ <-]. now apply ok_refl.
Qed.

Lemma sound_try_catch {A} (c : M A) h :
  sound Q J c -> (forall e, sound Q J (h e)) -> sound Q J (try_catch c h).
Proof.
  intros Hc Hh w res w' Hwf Hbv. unfold try_catch.
  destruct (c w) as [[a|e] w1] eqn:Hcw.
  - intros [= <- <-]. eapply Hc; eauto.
  - intros Hhw. pose proof (Hc w _ _ Hwf Hbv Hcw) as Hok.
    eapply ok_trans; [exact Hok|].
    destruct Hok as (Hwf1 & Hbv1 & _). eapply Hh; eauto.
Qed.

Lemma sound_emit e : sound Q J (modify (emit e)).
Proof.
  intros w res w' Hwf Hbv [= _ <-]. unfold emit.
  apply ok_same_store; auto.
Qed.

Lemma sound_logger level text : sound Q J (logger level text).
Proof. apply sound_emit. Qed.

Lemma sound_at_call r p f e :
  Q p (f p) -> (J p -> J (f p)) ->
  sound_at Q J (fun w => peers w !! r = Some p) (call r f e).
Proof.
  intros Hq Hj w res w' Hwf Hbv Hp. rewrite (call_ok _ _ _ _ _ Hp).
  intros [= _ <-]. unfold emit, set_peers. simpl.
  apply (ok_update w r p); auto.
Qed.

Lemma sound_call r f e :
  (forall p, Q p (f p)) -> (forall p, J p -> J (f p)) ->
  sound Q J (call r f e).
Proof.
  intros Hq Hj. unfold call. apply sound_peer_bind. intros p w res w' Hwf Hbv Hp.
  intros [= _ <-]. unfold emit, set_peers. simpl.
  apply (ok_update w r p); auto.
Qed.

Lemma sound_at_assign r p f :
  Q p (f p) -> (J p -> J (f p)) ->
  sound_at Q J (fun w => peers w !! r = Some p) (assign r f).
Proof.
  intros Hq Hj w res w' Hwf Hbv Hp. rewrite (assign_ok _ _ _ _ Hp).
  intros [= _ <-]. unfold set_peers. simpl.
  apply (ok_update w r p); auto.
Qed.

Lemma sound_assign r f :
  (forall p, Q p (f p)) -> (forall p, J p -> J (f p)) ->
  sound Q J (assign r f).
Proof.
  intros Hq Hj. unfold assign. apply sound_peer_bind. intros p w res w' Hwf Hbv Hp.
  intros [= _ <-]. unfold set_peers. simpl.
  apply (ok_update w r p); auto.
Qed.

Lemma sound_forEach {A} (f : A -> M unit) l :
  (forall x, sound Q J (f x)) -> sound Q J (forEach f l).
Proof.
  intros Hf. induction l as [|x l IH]; simpl.
  - apply sound_ret.
  - apply sound_bind; auto.
Qed.

Lemma sound_mapM {A B} (f : A -> M B) l :
  (forall x, sound Q J (f x)) -> sound Q J (mapM f l).
Proof.
  intros Hf. induction l as [|x l IH]; simpl.
  - apply sound_ret.
  - apply sound_bind; [auto|]. intros y.
    apply sound_bind; [auto|]. intros ys. apply sound_ret.
Qed.

End Frame.

(** The handlers that only read the book, learn addresses and feed the
    mempool are framed by any relation closed under what they do to a
    peer: push a message, raise [loadDone], merge capabilities. *)
Section QuietHandlers.

Context (Q : Peer.t -> Peer.t -> Prop) (J : Peer.t -> Prop).
Hypothesis Q_refl : forall p, Q p p.
Hypothesis Q_trans : forall p1 p2 p3, Q p1 p2 -> Q p2 p3 -> Q p1 p3.
Hypothesis Q_push : forall m p, Q p (Peer.pushMessage m p).
Hypothesis J_push : forall m p, J p -> J (Peer.pushMessage m p).
Hypothesis Q_load : forall p, Q p (Peer.set_loadDone true p).
Hypothesis J_load : forall p, J p -> J (Peer.set_loadDone true p).
Hypothesis Q_merge : forall i p, Q p (PeerManager.mergeCapabilities i p).
Hypothesis J_merge : forall i p, J p -> J (PeerManager.mergeCapabilities i p).
Hypothesis J_new : forall i, J (Peer.ofPeerInfo i).

Context {Account : Type} (Crypto_address : PublicKey -> Address).

Lemma addPeer_info_unfold i w :
  PeerManager.addPeer (inr i) w
  = match book w !! address i with
    | None =>
        (Normal (Some (nextRef w)),
         MkWorld (<[nextRef w := Peer.ofPeerInfo i]> (peers w)) (S (nextRef w))
           (<[address i := nextRef w]> (book w)) (mempool w) (trace w) (now w))
    | Some r0 =>
        (assign r0 (PeerManager.mergeCapabilities i) ;; ret (Some r0)) w
    end.
Proof.
  unfold PeerManager.addPeer. unfold bind at 1. unfold get at 1.
  destruct (book w !! address i); reflexivity.
Qed.

Lemma sound_addPeer_info i : sound Q J (PeerManager.addPeer (inr i)).
Proof.
  intros w res w' Hwf Hbv. rewrite addPeer_info_unfold.
  destruct (book w !! address i) as [r0|] eqn:Hb.
  - assert (Hs : sound Q J (assign r0 (PeerManager.mergeCapabilities i) ;;
                            ret (Some r0))).
    { apply sound_bind; auto.
      - apply sound_assign; auto.
      - intros _. now apply sound_ret. }
    intros H. exact (Hs w _ _ Hwf Hbv H).
  - intros [= _ <-]. apply ok_alloc; auto.
    intros a r0 Ha. destruct (decide (address i = a)) as [<-|Hne].
    + rewrite lookup_insert_eq in Ha. left. congruence.
    + rewrite lookup_insert_ne in Ha by exact Hne. right. now apply (Hbv a).
Qed.

Lemma sound_filterPeers x : sound Q J (PeerManager.filterPeers x).
Proof.
  intros w res w' Hwf Hbv. unfold PeerManager.filterPeers.
  unfold bind at 1. unfold get at 1. destruct x as [s|].
  - set (all := (map_to_list (book w)).*2).
    assert (Hs : sound Q J
              (ps <- mapM (fun r => q <- peer r ;; ret (r, q)) all ;;
               ret (filter (fun rp => PeerManager.hasService s rp.2) ps).*1)).
    { apply sound_bind; auto.
      - apply sound_mapM; auto. intros r.
        apply sound_bind; auto using sound_peer. intros q. now apply sound_ret.
      - intros ps. now apply sound_ret. }
    intros H. exact (Hs w _ _ Hwf Hbv H).
  - intros H. exact (sound_ret Q J Q_refl _ w _ _ Hwf Hbv H).
Qed.

Lemma sound_pushMessage r m : sound Q J (pushMessage r m).
Proof. apply sound_call; auto. Qed.

Lemma sound_handlePeerRequest r : sound Q J (Node._handlePeerRequest r).
Proof.
  unfold Node._handlePeerRequest.
  apply sound_bind; auto using sound_filterPeers. intros known.
  apply sound_bind; auto.
  { apply sound_mapM; auto. intros r'.
    apply sound_bind; auto using sound_peer. intros q. now apply sound_ret. }
  intros arrPeers. apply sound_bind; auto using sound_pushMessage.
  destruct (ADDR_MAX_LENGTH <? _); [now apply sound_logger | now apply sound_ret].
Qed.

Lemma sound_handlePeerList r m : sound Q J (Node._handlePeerList r m).
Proof.
  unfold Node._handlePeerList. apply sound_bind; auto.
  { destruct m; simpl; auto using sound_ret, sound_throw. }
  intros l. apply sound_bind; auto.
  - apply sound_forEach; auto. intros i.
    apply sound_bind; auto using sound_addPeer_info.
    intros [r'|]; auto using sound_ret, sound_throw.
  - intros _. apply sound_assign; auto.
Qed.

Lemma sound_handleTx (this : Node.t Account) r m :
  sound Q J (Node._handleTx Crypto_address this r m).
Proof.
  unfold Node._handleTx. apply sound_bind; auto.
  { destruct m; simpl; auto using sound_ret, sound_throw. }
  intros tx. apply sound_bind; auto.
  { unfold Node._checkTx. apply sound_bind; auto using sound_lift.
    intros [acc|]; auto using sound_ret, sound_throw. }
  intros _. now apply sound_throw.
Qed.

End QuietHandlers.

(** The two relations on peers are preorders, and each updater of the
    node respects them. *)
Lemma peer_evolves_refl p : peer_evolves p p.
Proof. unfold peer_evolves. repeat split; auto; lia. Qed.

Lemma versionSet_eq p p' :
  Peer.version p' = Peer.version p -> Peer.versionSet p' = Peer.versionSet p.
Proof. unfold Peer.versionSet. now intros ->. Qed.

Lemma peer_evolves_trans p1 p2 p3 :
  peer_evolves p1 p2 -> peer_evolves p2 p3 -> peer_evolves p1 p3.
Proof.
  intros (Hs1 & Ha1 & Hi1 & Hv1 & Hf1 & Hl1 & Ho1)
         (Hs2 & Ha2 & Hi2 & Hv2 & Hf2 & Hl2 & Ho2).
  unfold peer_evolves. repeat split.
  - lia.
  - congruence.
  - congruence.
  - intros Hset. rewrite Hv2, Hv1; auto.
    rewrite (versionSet_eq p1 p2); auto.
  - auto.
  - auto.
  - etransitivity; eassumption.
Qed.

Lemma peer_quiet_refl p : peer_quiet p p.
Proof. unfold peer_quiet. auto using peer_evolves_refl. Qed.

Lemma peer_quiet_trans p1 p2 p3 :
  peer_quiet p1 p2 -> peer_quiet p2 p3 -> peer_quiet p1 p3.
Proof.
  intros (He1 & Hs1 & Hb1 & Hc1) (He2 & Hs2 & Hb2 & Hc2).
  unfold peer_quiet.
  split; [eapply peer_evolves_trans; eassumption | repeat split; congruence].
Qed.

Lemma peer_quiet_push m p : peer_quiet p (Peer.pushMessage m p).
Proof.
  unfold peer_quiet, peer_evolves. simpl. repeat split; auto; try lia.
  now apply prefix_app_r.
Qed.

Lemma peer_quiet_load p : peer_quiet p (Peer.set_loadDone true p).
Proof. unfold peer_quiet, peer_evolves. simpl. repeat split; auto; lia. Qed.

Lemma peer_quiet_merge i p : peer_quiet p (PeerManager.mergeCapabilities i p).
Proof. unfold peer_quiet, peer_evolves. simpl. repeat split; auto; lia. Qed.

Lemma peer_quiet_set_peerInfo i p : peer_quiet p (Peer.set_peerInfo i p).
Proof. unfold peer_quiet, peer_evolves. simpl. repeat split; auto; lia. Qed.

Lemma peer_evolves_misbehave now p : peer_evolves p (Peer.misbehave now 1 p).
Proof.
  destruct (misbehave_same now 1 p) as (_ & Ha & Hi & Hv & Hf & Hl & Ho).
  unfold peer_evolves. rewrite misbehave_score, Ha, Hi, Hv, Hf, Hl, Ho.
  repeat split; auto; lia.
Qed.

Lemma peer_evolves_ban now p : peer_evolves p (Peer.ban now p).
Proof. unfold peer_evolves. simpl. repeat split; auto; lia. Qed.

Lemma peer_evolves_disconnect p : peer_evolves p (Peer.disconnect p).
Proof. unfold peer_evolves. simpl. repeat split; auto; lia. Qed.

Lemma handshaken_same p p' :
  Peer.version p' = Peer.version p ->
  Peer.fullyConnected p' = Peer.fullyConnected p ->
  handshaken p -> handshaken p'.
Proof.
  unfold handshaken. intros Hv Hf H. rewrite Hf, (versionSet_eq p p'); auto.
Qed.

Lemma handshaken_misbehave now points p :
  handshaken p -> handshaken (Peer.misbehave now points p).
Proof.
  destruct (misbehave_same now points p) as (_ & _ & _ & Hv & Hf & _).
  now apply handshaken_same.
Qed.

Lemma sound_mono {A} (Q Q' : Peer.t -> Peer.t -> Prop) J (c : M A) :
  (forall p p', Q p p' -> Q' p p') -> sound Q J c -> sound Q' J c.
Proof.
  intros Himp Hc w res w' Hwf Hbv H.
  destruct (Hc w res w' Hwf Hbv H) as (Hwf' & Hbv' & He & Hj).
  repeat split; auto.
  intros r p Hp. destruct (He r p Hp) as (p' & Hp' & Hq). eauto.
Qed.

Section DispatcherFrame.

Context (REJECT_DUPLICATE : Z) {Account : Type}
        (Crypto_address : PublicKey -> Address).

Implicit Types (this : Node.t Account) (w : World) (r : PeerRef).

Lemma ev_ret {A} (a : A) : sound peer_evolves handshaken (ret a).
Proof. apply sound_ret, peer_evolves_refl. Qed.

Lemma ev_throw {A} e : sound peer_evolves handshaken (@throw A e).
Proof. apply sound_throw, peer_evolves_refl. Qed.

Lemma ev_peer r : sound peer_evolves handshaken (peer r).
Proof. apply sound_peer, peer_evolves_refl. Qed.

Lemma ev_logger level text : sound peer_evolves handshaken (logger level text).
Proof. apply sound_logger, peer_evolves_refl. Qed.

Lemma ev_bind {A B} (c : M A) (k : A -> M B) :
  sound peer_evolves handshaken c ->
  (forall a, sound peer_evolves handshaken (k a)) ->
  sound peer_evolves handshaken (bind c k).
Proof. apply sound_bind, peer_evolves_trans. Qed.

Lemma ev_at_bind {A B} P (c : M A) (k : A -> M B) :
  sound_at peer_evolves handshaken P c ->
  (forall a, sound peer_evolves handshaken (k a)) ->
  sound_at peer_evolves handshaken P (bind c k).
Proof. apply sound_at_bind, peer_evolves_trans. Qed.

Lemma ev_peer_bind {B} r (k : Peer.t -> M B) :
  (forall p, sound_at peer_evolves handshaken
               (fun w => peers w !! r = Some p) (k p)) ->
  sound peer_evolves handshaken (p <- peer r ;; k p).
Proof. apply sound_peer_bind, peer_evolves_refl. Qed.

Lemma quiet_framed {A} (c : M A) :
  sound peer_quiet handshaken c -> sound peer_evolves handshaken c.
Proof. apply sound_mono. now intros p p' [H _]. Qed.

Lemma quiet_assign r f :
  (forall p, peer_quiet p (f p)) ->
  (forall p, Peer.version (f p) = Peer.version p) ->
  (forall p, Peer.fullyConnected (f p) = Peer.fullyConnected p) ->
  sound peer_quiet handshaken (assign r f).
Proof.
  intros Hq Hv Hf. apply sound_assign; auto using peer_quiet_refl.
  intros p. now apply handshaken_same.
Qed.

Lemma quiet_pushMessage r m : sound peer_quiet handshaken (pushMessage r m).
Proof.
  apply sound_pushMessage; auto using peer_quiet_refl, peer_quiet_push.
Qed.

Lemma quiet_handlePeerRequest r :
  sound peer_quiet handshaken (Node._handlePeerRequest r).
Proof.
  apply (sound_handlePeerRequest _ _ peer_quiet_refl peer_quiet_trans
           peer_quiet_push).
  intros m p. now apply handshaken_same.
Qed.

Lemma quiet_handlePeerList r m :
  sound peer_quiet handshaken (Node._handlePeerList r m).
Proof.
  apply (sound_handlePeerList _ _ peer_quiet_refl peer_quiet_trans
           peer_quiet_load).
  - intros p. now apply handshaken_same.
  - apply peer_quiet_merge.
  - intros i p. now apply handshaken_same.
  - intros i. unfold handshaken. simpl. discriminate.
Qed.

Lemma quiet_handleTx this r m :
  sound peer_quiet handshaken (Node._handleTx Crypto_address this r m).
Proof. apply (sound_handleTx _ _ peer_quiet_refl peer_quiet_trans). Qed.

Lemma framed_misbehave r : sound peer_evolves handshaken (misbehave r 1).
Proof.
  intros w res w' Hwf Hbv.
  change (misbehave r 1 w)
    with (call r (Peer.misbehave (now w) 1) (EvMisbehave r 1) w).
  intros H.
  eapply (sound_call peer_evolves handshaken peer_evolves_refl); eauto.
  - intros p. apply peer_evolves_misbehave.
  - intros p. apply handshaken_misbehave.
Qed.

Lemma framed_ban r : sound peer_evolves handshaken (ban r).
Proof.
  intros w res w' Hwf Hbv.
  change (ban r w) with (call r (Peer.ban (now w)) (EvBan r) w).
  intros H.
  eapply (sound_call peer_evolves handshaken peer_evolves_refl); eauto.
  - intros p. apply peer_evolves_ban.
  - intros p. now apply handshaken_same.
Qed.

Lemma framed_disconnect r : sound peer_evolves handshaken (disconnect r).
Proof.
  apply sound_call; auto using peer_evolves_refl, peer_evolves_disconnect.
Qed.

Lemma framed_pushMessage r m : sound peer_evolves handshaken (pushMessage r m).
Proof. apply quiet_framed, quiet_pushMessage. Qed.

Lemma framed_on_error r e : sound peer_evolves handshaken (Node.on_error r e).
Proof.
  unfold Node.on_error. apply ev_bind; [apply ev_peer|]. intros p.
  apply ev_bind; [apply ev_logger|]. intros _. apply framed_misbehave.
Qed.

Lemma framed_handleVerack r :
  sound peer_evolves handshaken (Node._handleVerackMessage r).
Proof.
  unfold Node._handleVerackMessage. apply ev_peer_bind. intros p.
  destruct (Peer.versionSet p) eqn:Hs; [|apply sound_sound_at, ev_ret].
  apply ev_at_bind.
  - apply sound_at_assign; auto using peer_evolves_refl.
    + unfold peer_evolves. simpl. repeat split; auto; lia.
    + intros _ _. exact Hs.
  - intros _. destruct (negb (Peer.inbound p));
      [apply framed_pushMessage | apply ev_ret].
Qed.

Lemma framed_handleVersion this r m :
  sound peer_evolves handshaken (Node._handleVersionMessage this r m).
Proof.
  unfold Node._handleVersionMessage. apply ev_bind.
  { destruct m; simpl; auto using ev_ret, ev_throw. }
  intros v. destruct (nonce v =? Node._nonce this); [apply framed_ban|].
  destruct (Z.leb_spec Constants.protocolVersion (protocolVersion v)) as [Hv|Hv];
    [|apply framed_disconnect].
  apply ev_peer_bind. intros p.
  destruct (Peer.versionSet p) eqn:Hs; simpl;
    [apply sound_sound_at, framed_misbehave|].
  apply ev_at_bind.
  - apply sound_at_assign; auto using peer_evolves_refl.
    + unfold peer_evolves. simpl. rewrite Hs.
      repeat split; auto; try lia; discriminate.
    + intros _ _. unfold Peer.versionSet. simpl.
      apply negb_true_iff, Z.eqb_neq.
      unfold Constants.protocolVersion in Hv. lia.
  - intros _. apply ev_bind; [|intros _; apply framed_pushMessage].
    destruct (Peer.inbound p); [|apply ev_ret].
    apply ev_bind.
    { apply quiet_framed, quiet_assign; auto using peer_quiet_set_peerInfo. }
    intros _. apply ev_bind; [|intros _; apply framed_pushMessage].
    unfold PeerManager.updateHandlers.
    apply sound_call; auto using peer_evolves_refl.
Qed.

Lemma framed_dispatch this r m :
  sound peer_evolves handshaken (Node.dispatch Crypto_address this r m).
Proof.
  unfold Node.dispatch.
  destruct (isReject m).
  { apply ev_bind.
    { destruct m; simpl; auto using ev_ret, ev_throw. }
    intros rejectMsg. apply ev_bind; [apply ev_peer|]. intros p.
    apply ev_bind; [apply ev_logger|]. intros _.
    apply ev_bind; [apply framed_misbehave|]. intros _.
    apply quiet_framed, quiet_assign; auto using peer_quiet_load. }
  destruct (isVersion m); [apply framed_handleVersion|].
  destruct (isVerAck m); [apply framed_handleVerack|].
  apply ev_bind; [apply ev_peer|].
  intros p. destruct (negb (Peer.fullyConnected p)).
  { apply ev_bind; [apply ev_logger|]. intros _. apply framed_misbehave. }
  destruct (isGetAddr m); [apply quiet_framed, quiet_handlePeerRequest|].
  destruct (isAddr m); [apply quiet_framed, quiet_handlePeerList|].
  destruct (isTx m); [apply quiet_framed, quiet_handleTx|].
  apply ev_throw.
Qed.

Lemma framed_incomingMessage this r m :
  sound peer_evolves handshaken
    (Node._incomingMessage Crypto_address this r m).
Proof.
  unfold Node._incomingMessage.
  apply sound_try_catch; [apply peer_evolves_trans | apply framed_dispatch |].
  intros e. apply framed_on_error.
Qed.

End DispatcherFrame.

(* ===================================================================== *)
(** ** Invariants of the node *)
(* ===================================================================== *)

Section Invariants.

Context (REJECT_DUPLICATE : Z) {Account : Type}
        (Crypto_address : PublicKey -> Address).

Implicit Types (this : Node.t Account) (w : World) (r : PeerRef).

Lemma framed_newPeer a : sound peer_evolves handshaken (newPeer a).
Proof.
  intros w res w' Hwf Hbv. rewrite newPeer_ok. intros [= _ <-].
  apply ok_alloc; auto using peer_evolves_refl.
  - unfold handshaken. simpl. discriminate.
  - intros a' r0 Hb. right. now apply (Hbv a').
Qed.

Lemma framed_addPeer_peer r :
  sound peer_evolves handshaken (PeerManager.addPeer (inl r)).
Proof.
  intros w res w' Hwf Hbv.
  destruct (peers w !! r) as [q|] eqn:Hq.
  - destruct (addPeer_peer_cases r q w Hq) as [[e ->]|[->| ->]];
      intros [= _ <-]; try (apply ok_refl; auto using peer_evolves_refl).
    unfold set_book. apply ok_same_store; auto using peer_evolves_refl.
    intros a r0. simpl. destruct (decide (Peer.address q = a)) as [<-|Hne].
    + rewrite lookup_insert_eq. intros [= <-]. eauto.
    + rewrite lookup_insert_ne by exact Hne. apply Hbv.
  - unfold PeerManager.addPeer, peer, bind, get, throw. rewrite Hq.
    intros [= _ <-]. apply ok_refl; auto using peer_evolves_refl.
Qed.

Lemma framed_incomingConnection this a :
  sound peer_evolves handshaken
    (Node._incomingConnection REJECT_DUPLICATE this a).
Proof.
  unfold Node._incomingConnection.
  apply sound_try_catch; [apply peer_evolves_trans | | intros e; apply ev_logger].
  apply ev_bind; [apply framed_newPeer|]. intros rn.
  apply ev_bind; [apply framed_addPeer_peer|]. intros [r1|]; [apply ev_ret|].
  apply ev_bind; [apply framed_pushMessage|]. intros _. apply framed_disconnect.
Qed.

Lemma framed_step this i :
  forall w, store_wf w -> book_valid w ->
    ok peer_evolves handshaken w
      (step REJECT_DUPLICATE Crypto_address this w i).
Proof.
  intros w Hwf Hbv. destruct i as [a|r m]; simpl.
  - destruct (Node._incomingConnection _ _ _ w) as [res w'] eqn:H.
    exact (framed_incomingConnection this a w res w' Hwf Hbv H).
  - destruct (Node._incomingMessage _ _ _ _ w) as [res w'] eqn:H.
    exact (framed_incomingMessage Crypto_address this r m w res w' Hwf Hbv H).
Qed.

Lemma framed_run this inputs :
  forall w, store_wf w -> book_valid w ->
    ok peer_evolves handshaken w
      (run_inputs REJECT_DUPLICATE Crypto_address this inputs w).
Proof.
  induction inputs as [|i inputs IH]; intros w Hwf Hbv; simpl.
  - apply ok_refl; auto using peer_evolves_refl.
  - pose proof (framed_step this i w Hwf Hbv) as Hok.
    eapply ok_trans; [apply peer_evolves_trans | exact Hok |].
    destruct Hok as (Hwf' & Hbv' & _). now apply IH.
Qed.

(** X9 (the handshake invariant).  From the world of a node that has met
    nobody, whatever connections are accepted and whatever messages are
    delivered, in whatever order and from whatever reference, every peer
    of the store that is fully connected has a version; moreover the
    allocator stays ahead of the store and every entry of the address book
    points to a peer of the store. *)
Theorem fully_connected_peers_have_a_version this (inputs : list Input) t :
  let w := run_inputs REJECT_DUPLICATE Crypto_address this inputs (start t) in
  (forall r p, peers w !! r = Some p ->
     Peer.fullyConnected p = true -> Peer.versionSet p = true) /\
  store_wf w /\ book_valid w.
Proof.
  intros w.
  assert (Hwf0 : store_wf (start t)) by (intros r _; apply lookup_empty).
  assert (Hbv0 : book_valid (start t)).
  { intros a r H. simpl in H. rewrite lookup_empty in H. discriminate. }
  destruct (framed_run this inputs (start t) Hwf0 Hbv0)
    as (Hwf & Hbv & _ & Hj).
  split; [|split; assumption].
  apply Hj. intros r p H. simpl in H. rewrite lookup_empty in H. discriminate.
Qed.

(** X10 (nothing is taken back).  Across any sequence of accepted
    connections and delivered messages, starting from a world whose
    allocator is ahead of its store and whose book points into the store,
    every peer object remains in the store, and for each of them: the
    misbehavior score has not gone down, the address and the direction
    are the same, a version that was set is unchanged, [fullyConnected]
    and [loadDone] have not been lowered, and the send queue has only
    grown at its end. *)
Theorem peers_only_move_forward this (inputs : list Input) w r p :
  store_wf w -> book_valid w ->
  peers w !! r = Some p ->
  exists p',
    peers (run_inputs REJECT_DUPLICATE Crypto_address this inputs w) !! r
    = Some p' /\
    Peer.misbehaviorScore p <= Peer.misbehaviorScore p' /\
    Peer.address p' = Peer.address p /\
    Peer.inbound p' = Peer.inbound p /\
    (Peer.versionSet p = true -> Peer.version p' = Peer.version p) /\
    (Peer.fullyConnected p = true -> Peer.fullyConnected p' = true) /\
    (Peer.loadDone p = true -> Peer.loadDone p' = true) /\
    Peer.outbox p `prefix_of` Peer.outbox p'.
Proof.
  intros Hwf Hbv Hp.
  destruct (framed_run this inputs w Hwf Hbv) as (_ & _ & He & _).
  destruct (He r p Hp) as (p' & Hp' & Hq). exists p'. split; assumption.
Qed.

(** X11 (the dispatcher absorbs every exception).  In a world whose
    allocator is ahead of its store and whose book points into the store,
    [_incomingMessage] returns normally for every message of every peer
    of the store: whatever a handler throws is caught, and the catch block
    itself does not throw. *)
Theorem incomingMessage_never_throws this w r p m :
  store_wf w -> book_valid w ->
  peers w !! r = Some p ->
  (Node._incomingMessage Crypto_address this r m w).1 = Normal tt.
Proof.
  intros Hwf Hbv Hp. unfold Node._incomingMessage, try_catch.
  destruct (Node.dispatch Crypto_address this r m w) as [[[]|e] w1] eqn:Hd;
    [reflexivity|].
  destruct (framed_dispatch Crypto_address this r m w _ _ Hwf Hbv Hd)
    as (_ & _ & He & _).
  destruct (He r p Hp) as (p1 & Hp1 & _).
  now rewrite (on_error_ok w1 r p1 e Hp1).
Qed.

End Invariants.

(* ===================================================================== *)
(** ** The price of a message *)
(* ===================================================================== *)

Section Price.

Context {Account : Type} (Crypto_address : PublicKey -> Address).

Implicit Types (this : Node.t Account) (w : World) (r : PeerRef)
         (p : Peer.t).

Lemma charged_intro w w' r p p' :
  peers w !! r = Some p ->
  peers w' = <[r := p']> (peers w) ->
  Peer.misbehaviorScore p' = Peer.misbehaviorScore p \/
  Peer.misbehaviorScore p' = Peer.misbehaviorScore p + 1 ->
  charged_at_most_once r w w'.
Proof.
  intros Hp Hw Hs. split.
  - exists p, p'. rewrite Hw, lookup_insert_eq. auto.
  - intros r' q Hne Hq. exists q. rewrite Hw, lookup_insert_ne by congruence.
    auto.
Qed.

Lemma charged_penalised w r p text :
  peers w !! r = Some p -> charged_at_most_once r w (penalised r p text w).
Proof.
  intros Hp. apply (charged_intro _ _ r p (Peer.misbehave (now w) 1 p)); auto.
  right. apply misbehave_score.
Qed.

(** A quiet computation inside the [try] block: either it returns and
    nobody is charged, or it throws and the sender pays one point. *)
Lemma charged_try (c : M unit) w r p :
  peers w !! r = Some p ->
  (forall res w1, c w = (res, w1) -> ok peer_quiet handshaken w w1) ->
  charged_at_most_once r w (try_catch c (Node.on_error r) w).2.
Proof.
  intros Hp Hc. unfold try_catch.
  destruct (c w) as [[[]|e] w1] eqn:Hcw;
    destruct (Hc _ _ eq_refl) as (_ & _ & He & _).
  - simpl. split.
    + destruct (He r p Hp) as (p1 & Hp1 & _ & Hs & _). exists p, p1. auto.
    + intros r' q _ Hq. destruct (He r' q Hq) as (q1 & Hq1 & _ & Hs & _).
      eauto.
  - destruct (He r p Hp) as (p1 & Hp1 & _ & Hs & _).
    rewrite (on_error_ok w1 r p1 e Hp1). simpl. split.
    + exists p, (Peer.misbehave (now w1) 1 p1). unfold penalised. simpl.
      rewrite lookup_insert_eq, misbehave_score, Hs. auto.
    + intros r' q Hne Hq. destruct (He r' q Hq) as (q1 & Hq1 & _ & Hs' & _).
      exists q1. unfold penalised. simpl.
      rewrite lookup_insert_ne by congruence. auto.
Qed.

Lemma reject_outcome this w r p code reason :
  peers w !! r = Some p ->
  peers (Node._incomingMessage Crypto_address this r (MsgReject code reason) w).2
  = <[r := Peer.set_loadDone true (Peer.misbehave (now w) 1 p)]> (peers w).
Proof.
  intros Hp. unfold Node._incomingMessage, try_catch, Node.dispatch. simpl.
  unfold bind at 1. unfold ret at 1.
  rewrite (bind_normal _ _ _ _ _ (peer_ok _ _ _ Hp)).
  unfold bind at 1. unfold logger, modify.
  unfold bind at 1. rewrite (misbehave_ok _ r p) by exact Hp.
  erewrite assign_ok by (simpl; apply lookup_insert_eq).
  unfold set_peers, emit. simpl. now rewrite insert_insert_eq.
Qed.

Lemma version_outcome this w r p v :
  peers w !! r = Some p ->
  exists p',
    peers (Node._incomingMessage Crypto_address this r (MsgVersion v) w).2
    = <[r := p']> (peers w) /\
    (Peer.misbehaviorScore p' = Peer.misbehaviorScore p \/
     Peer.misbehaviorScore p' = Peer.misbehaviorScore p + 1).
Proof.
  intros Hp. rewrite dispatch_version. unfold try_catch.
  destruct (nonce v =? Node._nonce this) eqn:Hn.
  { exists (Peer.ban (now w) p). split; [|left; reflexivity].
    unfold Node._handleVersionMessage. simpl. unfold bind at 1. unfold ret at 1.
    rewrite Hn. now rewrite (ban_ok _ _ _ Hp). }
  destruct (Constants.protocolVersion <=? protocolVersion v) eqn:Hv.
  2:{ exists (Peer.disconnect p). split; [|left; reflexivity].
      unfold Node._handleVersionMessage. simpl. unfold bind at 1. unfold ret at 1.
      rewrite Hn, Hv. now rewrite (disconnect_ok _ _ _ Hp). }
  destruct (Peer.versionSet p) eqn:Hs.
  { exists (Peer.misbehave (now w) 1 p). split; [|right; apply misbehave_score].
    unfold Node._handleVersionMessage. simpl. unfold bind at 1. unfold ret at 1.
    rewrite Hn, Hv. rewrite (bind_normal _ _ _ _ _ (peer_ok _ _ _ Hp)).
    rewrite Hs. simpl. now rewrite (misbehave_ok _ _ _ _ Hp). }
  rewrite (handleVersion_first this w r p v Hp Hn Hv Hs).
  destruct (Peer.inbound p); eexists; (split; [reflexivity | left; reflexivity]).
Qed.

(** Whatever the message, its sender is charged at most once and nobody
    else is charged. *)
Lemma charged_by_message this w r p m :
  store_wf w -> book_valid w ->
  peers w !! r = Some p ->
  charged_at_most_once r w
    (Node._incomingMessage Crypto_address this r m w).2.
Proof.
  intros Hwf Hbv Hp.
  assert (Hfail : forall e,
            Node.dispatch Crypto_address this r m w = (Throw e, w) ->
            charged_at_most_once r w
              (Node._incomingMessage Crypto_address this r m w).2).
  { intros e He. rewrite (every_throw_is_charged _ this r m w e w p He Hp).
    now apply charged_penalised. }
  destruct (decide (message m = MSG_REJECT)) as [Hr|Hr].
  { destruct m as [t|v|c l|code reason|tx]; try discriminate Hr.
    - simpl in Hr. subst t. now apply (Hfail (Error "Wrong message type")).
    - apply (charged_intro _ _ r p
               (Peer.set_loadDone true (Peer.misbehave (now w) 1 p)));
        [exact Hp | apply reject_outcome; exact Hp |].
      right. simpl. apply misbehave_score. }
  destruct (decide (message m = MSG_VERSION)) as [Hv|Hv].
  { destruct m as [t|v|c l|code reason|tx]; try discriminate Hv.
    - simpl in Hv. subst t. now apply (Hfail (Error "Wrong message type")).
    - destruct (version_outcome this w r p v Hp) as (p' & Hw & Hs).
      eapply charged_intro; eauto. }
  destruct (decide (message m = MSG_VERACK)) as [Ha|Ha].
  { destruct m as [t|v|c l|code reason|tx]; try discriminate Ha.
    simpl in Ha. subst t.
    change (Node._incomingMessage Crypto_address this r (MsgCommon MSG_VERACK) w)
      with (try_catch (Node._handleVerackMessage r) (Node.on_error r) w).
    unfold try_catch. rewrite (handleVerack_cases w r p Hp).
    destruct (Peer.versionSet p); [destruct (Peer.inbound p)|].
    - eapply charged_intro; [exact Hp | reflexivity | left; reflexivity].
    - eapply charged_intro; [exact Hp | reflexivity | left; reflexivity].
    - eapply (charged_intro _ _ r p p); [exact Hp | | now left].
      simpl. now rewrite insert_id. }
  unfold Node._incomingMessage.
  destruct (Peer.fullyConnected p) eqn:Hfc.
  - apply (charged_try _ w r p Hp). intros res w1.
    rewrite (dispatch_past_handshake _ this r m w p) by assumption.
    rewrite Hfc. simpl.
    destruct (isGetAddr m); [apply quiet_handlePeerRequest; assumption|].
    destruct (isAddr m); [apply quiet_handlePeerList; assumption|].
    destruct (isTx m); [apply quiet_handleTx; assumption|].
    intros [= _ <-]. apply ok_refl; auto using peer_quiet_refl.
  - unfold try_catch.
    rewrite (dispatch_past_handshake _ this r m w p) by assumption.
    rewrite Hfc. simpl. unfold bind at 1. unfold logger, modify.
    rewrite (misbehave_ok _ r p) by exact Hp. simpl.
    eapply charged_intro; [exact Hp | reflexivity |].
    right. apply misbehave_score.
Qed.

(** X12 (the price of a message).  In a world whose allocator is ahead of
    its store and whose book points into the store, handling one message,
    of any kind and content, from a peer of the store changes that peer's
    misbehavior score by 0 or by exactly 1, and changes the score of no
    other peer. *)
Theorem a_message_costs_at_most_one_point this w r p m :
  store_wf w -> book_valid w ->
  peers w !! r = Some p ->
  let w' := (Node._incomingMessage Crypto_address this r m w).2 in
  (exists p', peers w' !! r = Some p' /\
     (Peer.misbehaviorScore p' = Peer.misbehaviorScore p \/
      Peer.misbehaviorScore p' = Peer.misbehaviorScore p + 1)) /\
  (forall r' q, r' <> r -> peers w !! r' = Some q ->
     exists q', peers w' !! r' = Some q' /\
       Peer.misbehaviorScore q' = Peer.misbehaviorScore q).
Proof.
  intros Hwf Hbv Hp w'.
  destruct (charged_by_message this w r p m Hwf Hbv Hp)
    as [(p0 & p' & Hp0 & Hp' & Hs) Hothers].
  rewrite Hp in Hp0. injection Hp0 as <-. split; [eauto | exact Hothers].
Qed.

End Price.

(* ===================================================================== *)
(** ** A stream of unhandled messages *)
(* ===================================================================== *)

Section Flood.

Context {Account : Type} (Crypto_address : PublicKey -> Address).

Implicit Types (this : Node.t Account) (w : World) (r : PeerRef)
         (p : Peer.t).

Lemma unhandled_outcome this w r p m :
  peers w !! r = Some p ->
  Peer.fullyConnected p = true ->
  unhandled m ->
  exists text,
    Node._incomingMessage Crypto_address this r m w
    = (Normal tt, penalised r p text w).
Proof.
  intros Hp Hfc (Hr & Hv & Ha & Hg & Had & Ht). eexists.
  apply (every_throw_is_charged _ this r m w
           (Error ("Unhandled message type " +:+ tag (message m))) w p);
    [|exact Hp].
  rewrite (dispatch_past_handshake _ this r m w p) by assumption.
  rewrite Hfc. simpl. unfold isGetAddr, isAddr, isTx.
  rewrite !bool_decide_eq_false_2 by assumption. reflexivity.
Qed.

Lemma same_but_score_and_ban_trans p1 p2 p3 :
  same_but_score_and_ban p1 p2 -> same_but_score_and_ban p2 p3 ->
  same_but_score_and_ban p1 p3.
Proof.
  unfold same_but_score_and_ban.
  intros (?&?&?&?&?&?&?) (?&?&?&?&?&?&?). repeat split; congruence.
Qed.

Lemma misbehave_at_threshold now p :
  BAN_PEER_SCORE <= Peer.misbehaviorScore p + 1 ->
  Peer.bannedUntil (Peer.misbehave now 1 p) = Some (now + BAN_PEER_TIME) /\
  Peer.connected (Peer.misbehave now 1 p) = false.
Proof.
  intros Hge. unfold Peer.misbehave. simpl.
  destruct (Z.leb_spec BAN_PEER_SCORE (Peer.misbehaviorScore p + 1));
    [split; reflexivity | lia].
Qed.

(** X13 (a stream of unhandled messages).  Let a fully connected peer
    send [k] messages, each of a kind the dispatcher has no handler for.
    Every one of them is handled, also after the ban: the score of the
    peer ends at its old score plus [k], nothing else of the peer moves
    but its ban and its connection, and the book and the mempool are as
    before.  If the final score has reached [BAN_PEER_SCORE] (and [k] is
    not 0) the peer is banned until [now + BAN_PEER_TIME] and its
    connection is closed; if it has not, ban and connection are as they
    were. *)
Theorem unhandled_stream_accumulates this (ms : list Message) :
  forall w r p,
  peers w !! r = Some p ->
  Peer.fullyConnected p = true ->
  Forall unhandled ms ->
  let w' := feed Crypto_address this r ms w in
  let total := Peer.misbehaviorScore p + Z.of_nat (length ms) in
  exists p', peers w' !! r = Some p' /\
    Peer.misbehaviorScore p' = total /\
    same_but_score_and_ban p p' /\
    (ms <> [] -> BAN_PEER_SCORE <= total ->
       Peer.bannedUntil p' = Some (now w + BAN_PEER_TIME) /\
       Peer.connected p' = false) /\
    (total < BAN_PEER_SCORE ->
       Peer.bannedUntil p' = Peer.bannedUntil p /\
       Peer.connected p' = Peer.connected p) /\
    book w' = book w /\ mempool w' = mempool w /\ now w' = now w.
Proof.
  induction ms as [|m ms IH]; intros w r p Hp Hfc Hall w' total.
  - exists p. unfold w', total. simpl. rewrite Z.add_0_r.
    repeat split; auto; try congruence.
  - apply Forall_cons in Hall as [Hm Hall].
    destruct (unhandled_outcome this w r p m Hp Hfc Hm) as [text Hrun].
    unfold w'. simpl feed. rewrite Hrun. unfold snd.
    set (p1 := Peer.misbehave (now w) 1 p).
    set (w1 := penalised r p text w).
    assert (Hp1 : peers w1 !! r = Some p1) by apply lookup_insert_eq.
    pose proof (misbehave_same (now w) 1 p) as Hsame. fold p1 in Hsame.
    pose proof (misbehave_score (now w) 1 p) as Hscore. fold p1 in Hscore.
    assert (Hfc1 : Peer.fullyConnected p1 = true).
    { destruct Hsame as (_ & _ & _ & _ & Hf & _). now rewrite Hf. }
    destruct (IH w1 r p1 Hp1 Hfc1 Hall)
      as (p' & Hp' & Hs' & Hsame' & Hban & Hbelow & Hb & Hm' & Hn).
    exists p'. unfold total. cbn [length].
    split; [exact Hp'|]. split; [rewrite Hs', Hscore; lia|].
    split; [eapply same_but_score_and_ban_trans; eassumption|].
    split; [|split; [|repeat split; assumption]].
    + intros _ Hge. destruct ms as [|m' ms'].
      * change (peers w1 !! r = Some p') in Hp'.
        rewrite Hp1 in Hp'. injection Hp' as <-.
        apply misbehave_at_threshold. simpl in Hge. lia.
      * apply Hban; [discriminate|]. rewrite Hscore. cbn [length] in *. lia.
    + intros Hlt.
      assert (Hlt1 : Peer.misbehaviorScore p + 1 < BAN_PEER_SCORE) by lia.
      destruct Hbelow as [Hb1 Hc1]; [rewrite Hscore; lia|].
      rewrite Hb1, Hc1. unfold p1.
      rewrite (misbehave_below _ _ _ Hlt1). split; reflexivity.
Qed.

End Flood.

(* ===================================================================== *)
(** ** Learning addresses *)
(* ===================================================================== *)

Section Gossip.

Context {Account : Type} (Crypto_address : PublicKey -> Address).

Implicit Types (this : Node.t Account) (w : World) (r : PeerRef)
         (p : Peer.t) (i : PeerInfo).

Lemma set_peerInfo_same p : p = Peer.set_peerInfo (Peer.peerInfo p) p.
Proof. now destruct p. Qed.

Lemma learnt_refl w : store_wf w -> book_valid w -> learnt w w.
Proof.
  intros Hwf Hbv. repeat split; auto.
  intros r p Hp. exists p. repeat split; auto using set_peerInfo_same.
Qed.

Lemma learnt_trans w1 w2 w3 : learnt w1 w2 -> learnt w2 w3 -> learnt w1 w3.
Proof.
  intros (_ & _ & Ht1 & Hm1 & Hb1 & Hp1) (Hwf & Hbv & Ht2 & Hm2 & Hb2 & Hp2).
  repeat split; auto; try congruence.
  intros r p Hp. destruct (Hp1 r p Hp) as (p2 & Hq2 & Hc2 & He2).
  destruct (Hp2 r p2 Hq2) as (p3 & Hq3 & Hc3 & He3).
  exists p3. split; [exact Hq3|]. split; [etransitivity; eassumption|].
  rewrite He3 at 1. rewrite He2. reflexivity.
Qed.

Lemma knows_learnt i w w' : knows i w -> learnt w w' -> knows i w'.
Proof.
  intros (r & q & Hb & Hq & Hc) (_ & _ & _ & _ & Hbk & Hps).
  destruct (Hps r q Hq) as (q' & Hq' & Hc' & _).
  exists r, q'. repeat split; auto. etransitivity; eassumption.
Qed.

Lemma merge_covers i p :
  capabilities i ⊆ capabilities (Peer.peerInfo (PeerManager.mergeCapabilities i p)).
Proof.
  intros c Hc. simpl. apply elem_of_app.
  destruct (decide (c ∈ capabilities (Peer.peerInfo p))) as [Hin|Hnin];
    [now left|right].
  apply list_elem_of_filter. split; assumption.
Qed.

(** One entry of an 'addr' message: [addPeer] answers with a peer, and the
    node has learnt the entry. *)
Lemma addPeer_info_learns i w :
  store_wf w -> book_valid w ->
  exists r' w1,
    PeerManager.addPeer (inr i) w = (Normal (Some r'), w1) /\
    learnt w w1 /\ knows i w1.
Proof.
  intros Hwf Hbv. rewrite addPeer_info_unfold.
  destruct (book w !! address i) as [r0|] eqn:Hb.
  - destruct (Hbv _ _ Hb) as [q Hq].
    exists r0. eexists. split.
    { rewrite (bind_normal _ _ _ _ _ (assign_ok _ _ _ _ Hq)). reflexivity. }
    unfold set_peers. simpl.
    destruct (ok_update (fun _ _ => True) (fun _ => True) (fun _ => I)
                w r0 q (PeerManager.mergeCapabilities i q)
                (book w) (mempool w) (trace w) Hwf Hbv Hq I (fun _ => I) Hbv)
      as (Hwf' & Hbv' & _).
    split.
    + split; [exact Hwf'|]. split; [exact Hbv'|]. repeat split; auto.
      intros r' p' Hp'. simpl. destruct (decide (r0 = r')) as [<-|Hne].
      * rewrite lookup_insert_eq. rewrite Hq in Hp'. injection Hp' as <-.
        eexists. split; [reflexivity|]. split; [|reflexivity].
        intros c Hc. simpl. apply elem_of_app. now left.
      * rewrite lookup_insert_ne by exact Hne. exists p'.
        repeat split; auto using set_peerInfo_same.
    + exists r0. eexists. simpl. split; [exact Hb|].
      split; [apply lookup_insert_eq | apply merge_covers].
  - exists (nextRef w). eexists. split; [reflexivity|].
    assert (Hbk : forall a r0,
              <[address i := nextRef w]> (book w) !! a = Some r0 ->
              r0 = nextRef w \/ is_Some (peers w !! r0)).
    { intros a r0 Ha. destruct (decide (address i = a)) as [<-|Hne].
      - rewrite lookup_insert_eq in Ha. left. congruence.
      - rewrite lookup_insert_ne in Ha by exact Hne. right. now apply (Hbv a). }
    destruct (ok_alloc (fun _ _ => True) (fun _ => True) (fun _ => I)
                w (Peer.ofPeerInfo i) _ (mempool w) (trace w) Hwf I Hbk)
      as (Hwf' & Hbv' & _).
    split.
    + split; [exact Hwf'|]. split; [exact Hbv'|]. repeat split; auto.
      * intros a r1 Ha. simpl. destruct (decide (address i = a)) as [<-|Hne].
        -- congruence.
        -- now rewrite lookup_insert_ne.
      * intros r' p' Hp'. exists p'. simpl.
        rewrite lookup_insert_ne.
        -- repeat split; auto using set_peerInfo_same.
        -- intros <-. rewrite (Hwf (nextRef w)) in Hp' by lia. discriminate.
    + exists (nextRef w), (Peer.ofPeerInfo i). simpl.
      rewrite !lookup_insert_eq. repeat split; auto.
Qed.

Lemma forEach_addPeer_learns (l : list PeerInfo) :
  forall w, store_wf w -> book_valid w ->
  exists w1,
    forEach (fun peerInfo =>
               added <- PeerManager.addPeer (inr peerInfo) ;;
               match added with
               | Some _ => ret tt
               | None => throw (TypeError "Cannot read property 'address' of undefined")
               end) l w
    = (Normal tt, w1) /\
    learnt w w1 /\ (forall i, i ∈ l -> knows i w1).
Proof.
  induction l as [|i l IH]; intros w Hwf Hbv.
  - exists w. split; [reflexivity|]. split; [now apply learnt_refl|].
    intros i Hin. now apply elem_of_nil in Hin.
  - destruct (addPeer_info_learns i w Hwf Hbv) as (r' & w1 & Hadd & Hl1 & Hk1).
    pose proof Hl1 as (Hwf1 & Hbv1 & _).
    destruct (IH w1 Hwf1 Hbv1) as (w2 & Hrun & Hl2 & Hk2).
    exists w2. split; [|split].
    + cbn [forEach]. erewrite bind_normal; [exact Hrun|].
      rewrite (bind_normal _ _ _ _ _ Hadd). reflexivity.
    + eapply learnt_trans; eassumption.
    + intros i' Hin. apply elem_of_cons in Hin as [->|Hin]; [|now apply Hk2].
      eapply knows_learnt; eassumption.
Qed.

(** What handling an 'addr' message of a fully connected peer leaves. *)
Lemma addr_outcome this w r p (count : Z) (l : list PeerInfo) :
  store_wf w -> book_valid w ->
  peers w !! r = Some p ->
  Peer.fullyConnected p = true ->
  let out := Node._incomingMessage Crypto_address this r (MsgAddr count l) w in
  out.1 = Normal tt /\
  (forall i, i ∈ l -> knows i out.2) /\
  (forall a r0, book w !! a = Some r0 -> book out.2 !! a = Some r0) /\
  trace out.2 = trace w /\
  mempool out.2 = mempool w /\
  exists p', peers out.2 !! r = Some p' /\
    Peer.loadDone p' = true /\
    Peer.misbehaviorScore p' = Peer.misbehaviorScore p /\
    Peer.outbox p' = Peer.outbox p.
Proof.
  intros Hwf Hbv Hp Hfc out.
  destruct (forEach_addPeer_learns l w Hwf Hbv) as (w1 & Hrun & Hl & Hk).
  pose proof Hl as (Hwf1 & Hbv1 & Ht & Hm & Hb & Hps).
  destruct (Hps r p Hp) as (p1 & Hp1 & _ & He).
  assert (Hh : Node._handlePeerList r (MsgAddr count l) w
               = (Normal tt, set_peers <[r := Peer.set_loadDone true p1]> w1)).
  { change (Node._handlePeerList r (MsgAddr count l))
      with (forEach (fun peerInfo =>
               added <- PeerManager.addPeer (inr peerInfo) ;;
               match added with
               | Some _ => ret tt
               | None => throw (TypeError "Cannot read property 'address' of undefined")
               end) l ;;
            assign r (Peer.set_loadDone true)).
    rewrite (bind_normal _ _ _ _ _ Hrun).
    now rewrite (assign_ok _ _ _ _ Hp1). }
  assert (Hout : out
            = (Normal tt, set_peers <[r := Peer.set_loadDone true p1]> w1)).
  { unfold out, Node._incomingMessage, try_catch.
    rewrite (dispatch_past_handshake _ this r _ w p Hp); try discriminate.
    rewrite Hfc. change (negb true) with false. cbv iota.
    change (isGetAddr (MsgAddr count l)) with false.
    change (isAddr (MsgAddr count l)) with true. cbv iota.
    now rewrite Hh. }
  rewrite Hout. simpl. split; [reflexivity|]. split; [|split; [|split; [|split]]];
    auto.
  - intros i Hin. destruct (Hk i Hin) as (r' & q & Hb' & Hq & Hc).
    destruct (decide (r = r')) as [<-|Hne].
    + exists r, (Peer.set_loadDone true p1). simpl.
      rewrite lookup_insert_eq. rewrite Hp1 in Hq. injection Hq as <-.
      repeat split; auto.
    + exists r', q. simpl. rewrite lookup_insert_ne by exact Hne.
      repeat split; auto.
  - exists (Peer.set_loadDone true p1). rewrite lookup_insert_eq.
    rewrite He. repeat split.
Qed.

(** X14 (an 'addr' message teaches the book).  Let a fully connected
    peer send an 'addr' message with the entries [l], whatever their
    number (nothing caps it at [ADDR_MAX_LENGTH]) and whatever the
    [count] field says.  The node returns normally without any call:
    nothing is pushed or logged and the sender is not charged.
    Afterwards the book binds the address of every entry to a peer that
    advertises at least the capabilities of the entry; every binding the
    book had is kept; and the sender has [loadDone = true], also when
    [l] is empty. *)
Theorem addr_teaches_the_book this w r p (count : Z) (l : list PeerInfo) :
  store_wf w -> book_valid w ->
  peers w !! r = Some p ->
  Peer.fullyConnected p = true ->
  let out := Node._incomingMessage Crypto_address this r (MsgAddr count l) w in
  out.1 = Normal tt /\
  (forall i, i ∈ l -> knows i out.2) /\
  (forall a r0, book w !! a = Some r0 -> book out.2 !! a = Some r0) /\
  trace out.2 = trace w /\
  mempool out.2 = mempool w /\
  exists p', peers out.2 !! r = Some p' /\
    Peer.loadDone p' = true /\
    Peer.misbehaviorScore p' = Peer.misbehaviorScore p /\
    Peer.outbox p' = Peer.outbox p.
Proof. apply addr_outcome. Qed.

End Gossip.

(* ===================================================================== *)
(** ** Choosing the peers to connect to *)
(* ===================================================================== *)

Section BestPeers.

Context (NODE WITNESS : Z).

Implicit Types (w : World) (r : PeerRef) (s : Z).

Lemma mapM_with_peer w (known : list PeerRef) :
  (forall r, r ∈ known -> is_Some (peers w !! r)) ->
  mapM (fun r => q <- peer r ;; ret (r, q)) known w
  = (Normal (omap (fun r => pair r <$> peers w !! r) known), w).
Proof.
  induction known as [|r known IH]; intros Hall; [reflexivity|].
  destruct (Hall r) as [q Hq]; [left|].
  cbn [mapM]. unfold bind at 1.
  rewrite (bind_normal _ _ _ _ _ (peer_ok _ _ _ Hq)). unfold ret at 1.
  rewrite (bind_normal _ _ _ _ _ (IH (fun r' Hin => Hall r' (list_elem_of_further _ _ _ Hin)))).
  simpl. rewrite Hq. reflexivity.
Qed.

(** With a predicate, [filterPeers] answers with the peers of the book
    that advertise the service, and changes nothing. *)
Lemma filterPeers_service w s :
  book_valid w ->
  exists l, PeerManager.filterPeers (Some s) w = (Normal l, w) /\
    forall r, r ∈ l <-> serves s w r.
Proof.
  intros Hbv.
  assert (Hall : forall r, r ∈ (map_to_list (book w)).*2 ->
                   is_Some (peers w !! r)).
  { intros r Hin. apply list_elem_of_fmap in Hin as [[a r'] [-> Hin]].
    apply elem_of_map_to_list in Hin. now apply (Hbv a). }
  eexists. split.
  - unfold PeerManager.filterPeers. unfold bind at 1. unfold get at 1.
    rewrite (bind_normal _ _ _ _ _ (mapM_with_peer w _ Hall)). reflexivity.
  - intros r. split.
    + intros Hin. apply list_elem_of_fmap in Hin as [[r' q] [-> Hin]].
      apply list_elem_of_filter in Hin as [Hs Hin].
      apply list_elem_of_omap in Hin as (r'' & Hin & Hq).
      apply list_elem_of_fmap in Hin as [[a r3] [-> Hin]].
      apply elem_of_map_to_list in Hin. simpl in *.
      destruct (peers w !! r3) as [q'|] eqn:Hq'; [|discriminate].
      simpl in Hq. injection Hq as <- <-.
      exists a, q'. repeat split; auto. now apply Is_true_true.
    + intros (a & q & Hb & Hq & Hs).
      apply list_elem_of_fmap. exists (r, q). split; [reflexivity|].
      apply list_elem_of_filter. split; [now apply Is_true_true|].
      apply list_elem_of_omap. exists r. split; [|now rewrite Hq].
      apply list_elem_of_fmap. exists (a, r). split; [reflexivity|].
      now apply elem_of_map_to_list.
Qed.

(** X15 (witnesses first).  On a book that points into the store,
    [_findBestPeers] changes nothing and answers as follows: if at least
    one peer of the book advertises the WITNESS service, the answer is
    exactly the peers of the book that advertise WITNESS, and a peer that
    advertises NODE only is left out; if none does, the answer is exactly
    the peers of the book that advertise NODE. *)
Theorem best_peers_prefer_witnesses w :
  book_valid w ->
  exists best,
    Node._findBestPeers NODE WITNESS w = (Normal best, w) /\
    ((exists r, serves WITNESS w r) ->
       forall r, r ∈ best <-> serves WITNESS w r) /\
    ((forall r, ~ serves WITNESS w r) ->
       forall r, r ∈ best <-> serves NODE w r).
Proof.
  intros Hbv.
  destruct (filterPeers_service w WITNESS Hbv) as (lw & Hw & Hlw).
  destruct (filterPeers_service w NODE Hbv) as (ln & Hn & Hln).
  unfold Node._findBestPeers. rewrite (bind_normal _ _ _ _ _ Hw).
  destruct lw as [|r0 lw]; simpl.
  - exists ln. split; [exact Hn|]. split.
    + intros [r Hr]. apply Hlw in Hr. now apply elem_of_nil in Hr.
    + intros _. exact Hln.
  - exists (r0 :: lw). split; [reflexivity|]. split.
    + intros _. exact Hlw.
    + intros Hnone. exfalso. apply (Hnone r0), Hlw. left.
Qed.

End BestPeers.

(* ===================================================================== *)
(** ** Replayed gossip and the bound on a score *)
(* ===================================================================== *)

Section Replay.

Context (REJECT_DUPLICATE : Z) {Account : Type}
        (Crypto_address : PublicKey -> Address).

Implicit Types (this : Node.t Account) (w : World) (r : PeerRef)
         (p : Peer.t) (i : PeerInfo).

Lemma world_eta w :
  MkWorld (peers w) (nextRef w) (book w) (mempool w) (trace w) (now w) = w.
Proof. now destruct w. Qed.

Lemma filter_all_known (known extra : list Capability) :
  extra ⊆ known -> filter (fun c => c ∉ known) extra = [].
Proof.
  induction extra as [|c extra IH]; intros Hsub; [reflexivity|].
  rewrite filter_cons. destruct (decide (c ∉ known)) as [Hn|_].
  - exfalso. apply Hn, Hsub. left.
  - apply IH. intros x Hx. apply Hsub. now right.
Qed.

(** An entry that the book already knows is merged without any change. *)
Lemma addPeer_known_noop i w :
  knows i w ->
  exists r, PeerManager.addPeer (inr i) w = (Normal (Some r), w).
Proof.
  intros (r & q & Hb & Hq & Hc). exists r.
  rewrite addPeer_info_unfold, Hb.
  rewrite (bind_normal _ _ _ _ _ (assign_ok _ _ _ _ Hq)).
  unfold ret. f_equal.
  assert (Hsame : PeerManager.mergeCapabilities i q = q).
  { unfold PeerManager.mergeCapabilities.
    replace (filter (fun c => c ∉ capabilities (Peer.peerInfo q))
               (capabilities i)) with (@nil Capability).
    - rewrite app_nil_r. destruct q as [[caps a pt] ? ? ? ? ? ? ? ? ?].
      reflexivity.
    - symmetry. now apply filter_all_known. }
  rewrite Hsame. unfold set_peers. rewrite insert_id by exact Hq.
  apply world_eta.
Qed.

Lemma forEach_known_noop (l : list PeerInfo) w :
  (forall i, i ∈ l -> knows i w) ->
  forEach (fun peerInfo =>
             added <- PeerManager.addPeer (inr peerInfo) ;;
             match added with
             | Some _ => ret tt
             | None => throw (TypeError "Cannot read property 'address' of undefined")
             end) l w
  = (Normal tt, w).
Proof.
  induction l as [|i l IH]; intros Hk; [reflexivity|].
  destruct (addPeer_known_noop i w (Hk i (list_elem_of_here _ _))) as [r Hadd].
  cbn [forEach]. erewrite bind_normal.
  - apply IH. intros i' Hin. apply Hk. now right.
  - rewrite (bind_normal _ _ _ _ _ Hadd). reflexivity.
Qed.

(** X16 (replayed gossip).  Once an 'addr' message of a fully connected
    peer has been handled, handling a message with the same entries again
    (whatever its [count] field) returns normally and changes nothing at
    all: no peer is created, no capability is added, and the book, the
    store and the trace are identical. *)
Theorem addr_replay_changes_nothing this w r p (count count' : Z)
  (l : list PeerInfo) :
  store_wf w -> book_valid w ->
  peers w !! r = Some p ->
  Peer.fullyConnected p = true ->
  let w1 :=
    (Node._incomingMessage Crypto_address this r (MsgAddr count l) w).2 in
  Node._incomingMessage Crypto_address this r (MsgAddr count' l) w1
  = (Normal tt, w1).
Proof.
  intros Hwf Hbv Hp Hfc w1.
  destruct (addr_outcome Crypto_address this w r p count l
              Hwf Hbv Hp Hfc) as (_ & Hk & _ & _ & _ & p1 & Hp1 & Hld & _ & _).
  fold w1 in Hk, Hp1.
  destruct (framed_incomingMessage Crypto_address this r (MsgAddr count l) w
              _ _ Hwf Hbv (surjective_pairing _)) as (_ & _ & He & _).
  destruct (He r p Hp) as (p1' & Hp1' & _ & _ & _ & _ & Hfc1 & _).
  fold w1 in Hp1'. rewrite Hp1 in Hp1'. injection Hp1' as <-.
  unfold Node._incomingMessage, try_catch.
  rewrite (dispatch_past_handshake _ this r _ w1 p1 Hp1); try discriminate.
  rewrite (Hfc1 Hfc). change (negb true) with false. cbv iota.
  change (isGetAddr (MsgAddr count' l)) with false.
  change (isAddr (MsgAddr count' l)) with true. cbv iota.
  change (Node._handlePeerList r (MsgAddr count' l))
    with (forEach (fun peerInfo =>
             added <- PeerManager.addPeer (inr peerInfo) ;;
             match added with
             | Some _ => ret tt
             | None => throw (TypeError "Cannot read property 'address' of undefined")
             end) l ;;
          assign r (Peer.set_loadDone true)).
  rewrite (bind_normal _ _ _ _ _ (forEach_known_noop l w1 Hk)).
  rewrite (assign_ok _ _ _ _ Hp1). f_equal.
  assert (Hsame : Peer.set_loadDone true p1 = p1).
  { destruct p1. simpl in Hld. now rewrite Hld. }
  rewrite Hsame. unfold set_peers. rewrite insert_id by exact Hp1.
  apply world_eta.
Qed.

(** A message attributed to a reference that is not in the store changes
    nothing. *)
Lemma dangling_delivery_noop this w r m :
  peers w !! r = None ->
  (Node._incomingMessage Crypto_address this r m w).2 = w.
Proof.
  intros Hnone.
  assert (Hpeer : forall B (k : Peer.t -> M B),
            (q <- peer r ;; k q) w
            = (Throw (TypeError "Cannot read property of undefined"), w)).
  { intros B k. unfold bind at 1. unfold peer, bind, get, throw.
    now rewrite Hnone. }
  assert (Hcall : forall f e,
            call r f e w
            = (Throw (TypeError "Cannot read property of undefined"), w)).
  { intros f e. apply Hpeer. }
  assert (Hd : exists e, Node.dispatch Crypto_address this r m w = (Throw e, w)).
  { unfold Node.dispatch. destruct (isReject m).
    { destruct m; simpl; try (eexists; reflexivity).
      unfold bind at 1. unfold ret at 1. rewrite Hpeer. eauto. }
    destruct (isVersion m).
    { unfold Node._handleVersionMessage.
      destruct m; simpl; try (eexists; reflexivity).
      unfold bind at 1. unfold ret at 1.
      destruct (nonce v =? Node._nonce this).
      { unfold ban, bind at 1, get. rewrite Hcall. eauto. }
      destruct (Constants.protocolVersion <=? protocolVersion v).
      - rewrite Hpeer. eauto.
      - unfold disconnect. rewrite Hcall. eauto. }
    destruct (isVerAck m).
    { unfold Node._handleVerackMessage. rewrite Hpeer. eauto. }
    rewrite Hpeer. eauto. }
  destruct Hd as [e Hd]. unfold Node._incomingMessage, try_catch. rewrite Hd.
  unfold Node.on_error. now rewrite Hpeer.
Qed.

(** X17 (a score is bounded by the peer's own messages).  Across any
    sequence of accepted connections and delivered messages, the
    misbehavior score of a peer grows by at most the number of messages
    that this very peer delivered: connections and the messages of other
    peers never cost it anything. *)
Theorem score_bounded_by_own_messages this (inputs : list Input) :
  forall w r p,
  store_wf w -> book_valid w ->
  peers w !! r = Some p ->
  exists p',
    peers (run_inputs REJECT_DUPLICATE Crypto_address this inputs w) !! r
    = Some p' /\
    Peer.misbehaviorScore p <= Peer.misbehaviorScore p'
    <= Peer.misbehaviorScore p + Z.of_nat (deliveries r inputs).
Proof.
  induction inputs as [|i inputs IH]; intros w r p Hwf Hbv Hp.
  - exists p. simpl. split; [exact Hp | lia].
  - pose proof (framed_step REJECT_DUPLICATE Crypto_address this i w Hwf Hbv)
      as (Hwf1 & Hbv1 & _).
    cbn [run_inputs fold_left].
    change (fold_left (step REJECT_DUPLICATE Crypto_address this) inputs ?x)
      with (run_inputs REJECT_DUPLICATE Crypto_address this inputs x).
    set (w1 := step REJECT_DUPLICATE Crypto_address this w i) in *.
    assert (Hstep : exists p1, peers w1 !! r = Some p1 /\
              Peer.misbehaviorScore p <= Peer.misbehaviorScore p1
              <= Peer.misbehaviorScore p
                 + Z.of_nat (deliveries r [i])).
    { destruct i as [a|r' m]; unfold w1; simpl.
      - destruct (incomingConnection_frame REJECT_DUPLICATE this w a)
          as (_ & Hframe & _).
        exists p. rewrite Hframe; [split; [exact Hp | lia]|].
        intros ->. rewrite (Hwf (nextRef w)) in Hp by lia. discriminate.
      - destruct (peers w !! r') as [q|] eqn:Hq.
        + destruct (charged_by_message Crypto_address this w r'
                      q m Hwf Hbv Hq) as [(q0 & q' & Hq0 & Hq' & Hs) Hothers].
          rewrite Hq in Hq0. injection Hq0 as <-.
          destruct (decide (r' = r)) as [->|Hne].
          * rewrite Hp in Hq. injection Hq as <-. exists q'.
            rewrite bool_decide_eq_true_2 by reflexivity.
            split; [exact Hq' | simpl; lia].
          * destruct (Hothers r p (not_eq_sym Hne) Hp) as (p1 & Hp1 & Hs1).
            exists p1. rewrite bool_decide_eq_false_2 by exact Hne.
            split; [exact Hp1 | simpl; lia].
        + rewrite (dangling_delivery_noop this w r' m Hq). exists p.
          split; [exact Hp|].
          destruct (bool_decide (r' = r)); simpl; lia. }
    destruct Hstep as (p1 & Hp1 & Hs1).
    destruct (IH w1 r p1 Hwf1 Hbv1 Hp1) as (p' & Hp' & Hs').
    exists p'. split; [exact Hp'|].
    assert (Hd : deliveries r (i :: inputs)
                 = (deliveries r [i] + deliveries r inputs)%nat).
    { destruct i as [a|r' m]; simpl; [reflexivity|].
      destruct (bool_decide (r' = r)); reflexivity. }
    rewrite Hd. lia.
Qed.

End Replay.

(* ===================================================================== *)
(** ** The further properties at concrete inputs *)
(* ===================================================================== *)

Import Scenarios.

Lemma world_of_wf p : store_wf (world_of p).
Proof.
  intros r Hge. simpl in *. apply lookup_singleton_ne. lia.
Qed.

Lemma world_of_valid p : book_valid (world_of p).
Proof.
  intros a r H. simpl in *.
  apply lookup_singleton_Some in H as [_ <-].
  rewrite lookup_singleton_eq. eauto.
Qed.

(** An accepted connection announces an older protocol. *)
Lemma incompatible_version_disconnects_witness :
  let w := world_of newcomer in
  peers w !! 0%nat = Some newcomer /\
  nonce old_version <> Node._nonce node /\
  protocolVersion old_version < Constants.protocolVersion /\
  run (MsgVersion old_version) w
  = (Normal tt,
     MkWorld (<[0%nat := Peer.disconnect newcomer]> (peers w)) (nextRef w)
       (book w) (mempool w) (trace w ++ [EvDisconnect 0%nat]) (now w)).
Proof.
  intros w.
  assert (Hp : peers w !! 0%nat = Some newcomer) by reflexivity.
  assert (Hn : nonce old_version <> Node._nonce node) by discriminate.
  assert (Hv : protocolVersion old_version < Constants.protocolVersion)
    by reflexivity.
  split; [exact Hp|]. split; [exact Hn|]. split; [exact Hv|].
  exact (proj1 (incompatible_version_disconnects Crypto_address node w 0%nat
                  newcomer old_version Hp Hn Hv)).
Defined.

(** A fully connected peer sends its version again. *)
Lemma repeated_version_costs_one_point_witness :
  let w := world_of established in
  peers w !! 0%nat = Some established /\
  nonce peer_version <> Node._nonce node /\
  Constants.protocolVersion <= protocolVersion peer_version /\
  Peer.versionSet established = true /\
  run (MsgVersion peer_version) w
  = (Normal tt,
     MkWorld (<[0%nat := Peer.misbehave (now w) 1 established]> (peers w))
       (nextRef w) (book w) (mempool w) (trace w ++ [EvMisbehave 0%nat 1])
       (now w)).
Proof.
  intros w.
  assert (Hp : peers w !! 0%nat = Some established) by reflexivity.
  assert (Hn : nonce peer_version <> Node._nonce node) by discriminate.
  assert (Hv : Constants.protocolVersion <= protocolVersion peer_version)
    by (vm_compute; discriminate).
  assert (Hs : Peer.versionSet established = true) by reflexivity.
  split; [exact Hp|]. split; [exact Hn|]. split; [exact Hv|].
  split; [exact Hs|].
  exact (proj1 (repeated_version_costs_one_point Crypto_address node w 0%nat
                  established peer_version Hp Hn Hv Hs)).
Defined.

(** The first version on an accepted connection. *)
Lemma first_version_inbound_witness :
  let w := world_of newcomer in
  let out := run (MsgVersion peer_version) w in
  peers w !! 0%nat = Some newcomer /\
  nonce peer_version <> Node._nonce node /\
  Constants.protocolVersion <= protocolVersion peer_version /\
  Peer.versionSet newcomer = false /\
  Peer.inbound newcomer = true /\
  out.1 = Normal tt /\
  trace out.2
  = trace w ++ [EvUpdateHandlers 0%nat;
                EvPush 0%nat (Node._createMsgVersion node);
                EvPush 0%nat (MsgCommon MSG_VERACK)].
Proof.
  intros w out.
  assert (Hp : peers w !! 0%nat = Some newcomer) by reflexivity.
  assert (Hn : nonce peer_version <> Node._nonce node) by discriminate.
  assert (Hv : Constants.protocolVersion <= protocolVersion peer_version)
    by (vm_compute; discriminate).
  assert (Hs : Peer.versionSet newcomer = false) by reflexivity.
  assert (Hi : Peer.inbound newcomer = true) by reflexivity.
  destruct (first_version_inbound Crypto_address node w 0%nat newcomer
              peer_version Hp Hn Hv Hs Hi) as [Hres [Htrace _]].
  split; [exact Hp|]. split; [exact Hn|]. split; [exact Hv|].
  split; [exact Hs|]. split; [exact Hi|]. split; [exact Hres | exact Htrace].
Defined.

(** The first version on a dialled connection. *)
Lemma first_version_outbound_witness :
  let w := world_of dialled in
  let out := run (MsgVersion peer_version) w in
  peers w !! 0%nat = Some dialled /\
  nonce peer_version <> Node._nonce node /\
  Constants.protocolVersion <= protocolVersion peer_version /\
  Peer.versionSet dialled = false /\
  Peer.inbound dialled = false /\
  out.1 = Normal tt /\
  trace out.2 = trace w ++ [EvPush 0%nat (MsgCommon MSG_VERACK)].
Proof.
  intros w out.
  assert (Hp : peers w !! 0%nat = Some dialled) by reflexivity.
  assert (Hn : nonce peer_version <> Node._nonce node) by discriminate.
  assert (Hv : Constants.protocolVersion <= protocolVersion peer_version)
    by (vm_compute; discriminate).
  assert (Hs : Peer.versionSet dialled = false) by reflexivity.
  assert (Hi : Peer.inbound dialled = false) by reflexivity.
  destruct (first_version_outbound Crypto_address node w 0%nat dialled
              peer_version Hp Hn Hv Hs Hi) as [Hres [Htrace _]].
  split; [exact Hp|]. split; [exact Hn|]. split; [exact Hv|].
  split; [exact Hs|]. split; [exact Hi|]. split; [exact Hres | exact Htrace].
Defined.

(** Version then verack on a dialled connection. *)
Lemma handshake_completes_witness :
  let w := world_of dialled in
  peers w !! 0%nat = Some dialled /\
  nonce peer_version <> Node._nonce node /\
  Constants.protocolVersion <= protocolVersion peer_version /\
  Peer.versionSet dialled = false /\
  exists p2,
    peers (feed Crypto_address node 0%nat
             [MsgVersion peer_version; MsgCommon MSG_VERACK] w) !! 0%nat
    = Some p2 /\
    Peer.fullyConnected p2 = true /\
    Peer.outbox p2 = [MsgCommon MSG_VERACK; MsgCommon MSG_GET_ADDR].
Proof.
  intros w.
  assert (Hp : peers w !! 0%nat = Some dialled) by reflexivity.
  assert (Hn : nonce peer_version <> Node._nonce node) by discriminate.
  assert (Hv : Constants.protocolVersion <= protocolVersion peer_version)
    by (vm_compute; discriminate).
  assert (Hs : Peer.versionSet dialled = false) by reflexivity.
  destruct (handshake_completes Crypto_address node w 0%nat dialled
              peer_version Hp Hn Hv Hs) as (p2 & Hp2 & Hfc & _ & _ & Hout).
  split; [exact Hp|]. split; [exact Hn|]. split; [exact Hv|].
  split; [exact Hs|]. exists p2. split; [exact Hp2|]. split; [exact Hfc|].
  exact Hout.
Defined.

(** The single peer of the book asks for addresses. *)
Lemma getaddr_answered_with_whole_book_witness :
  let w := world_of established in
  let out := run (MsgCommon MSG_GET_ADDR) w in
  peers w !! 0%nat = Some established /\
  Peer.fullyConnected established = true /\
  book_valid w /\
  exists infos,
    out.1 = Normal tt /\
    pushed_to 0%nat (drop (length (trace w)) (trace out.2))
    = [MsgAddr (Z.of_nat (size (book w))) infos] /\
    length infos = size (book w).
Proof.
  intros w out.
  assert (Hp : peers w !! 0%nat = Some established) by reflexivity.
  assert (Hf : Peer.fullyConnected established = true) by reflexivity.
  pose proof (world_of_valid established) as Hbv.
  destruct (getaddr_answered_with_whole_book Crypto_address node w 0%nat
              established Hp Hf Hbv) as (infos & Hres & Hpush & Hlen & _).
  split; [exact Hp|]. split; [exact Hf|]. split; [exact Hbv|].
  exists infos. split; [exact Hres|]. split; [exact Hpush | exact Hlen].
Defined.

(** A transaction of the known account Uxaa: the peer pays for the
    missing mempool. *)
Lemma tx_never_gets_through_witness :
  let w := world_of established in
  peers w !! 0%nat = Some established /\
  Peer.fullyConnected established = true /\
  run (MsgTx tx_known) w
  = (Normal tt,
     penalised 0%nat established
       ("Cannot read property 'accept' of undefined"
        +:+ " Peer " +:+ Peer.address established +:+ ".") w).
Proof.
  intros w.
  assert (Hp : peers w !! 0%nat = Some established) by reflexivity.
  assert (Hf : Peer.fullyConnected established = true) by reflexivity.
  split; [exact Hp|]. split; [exact Hf|].
  exact (proj1 (tx_never_gets_through Crypto_address node w 0%nat
                  established tx_known Hp Hf)).
Defined.

(** A handshake interleaved with a new connection. *)
Lemma peers_only_move_forward_witness :
  let w := world_of newcomer in
  store_wf w /\ book_valid w /\
  peers w !! 0%nat = Some newcomer /\
  exists p',
    peers (run_inputs reject_code Crypto_address node session w) !! 0%nat
    = Some p' /\
    Peer.misbehaviorScore newcomer <= Peer.misbehaviorScore p' /\
    Peer.outbox newcomer `prefix_of` Peer.outbox p'.
Proof.
  intros w.
  pose proof (world_of_wf newcomer) as Hwf.
  pose proof (world_of_valid newcomer) as Hbv.
  assert (Hp : peers w !! 0%nat = Some newcomer) by reflexivity.
  destruct (peers_only_move_forward reject_code Crypto_address node session
              w 0%nat newcomer Hwf Hbv Hp)
    as (p' & Hp' & Hs & _ & _ & _ & _ & _ & Ho).
  split; [exact Hwf|]. split; [exact Hbv|]. split; [exact Hp|].
  exists p'. split; [exact Hp'|]. split; [exact Hs | exact Ho].
Defined.

(** A message with a reject tag and no reject payload. *)
Lemma incomingMessage_never_throws_witness :
  let w := world_of established in
  store_wf w /\ book_valid w /\
  peers w !! 0%nat = Some established /\
  (run (MsgCommon MSG_REJECT) w).1 = Normal tt.
Proof.
  intros w.
  pose proof (world_of_wf established) as Hwf.
  pose proof (world_of_valid established) as Hbv.
  assert (Hp : peers w !! 0%nat = Some established) by reflexivity.
  split; [exact Hwf|]. split; [exact Hbv|]. split; [exact Hp|].
  exact (incomingMessage_never_throws Crypto_address node w 0%nat established
           (MsgCommon MSG_REJECT) Hwf Hbv Hp).
Defined.

(** A transaction of an unknown account: one point, for the sender. *)
Lemma a_message_costs_at_most_one_point_witness :
  let w := world_of established in
  let w' := (run (MsgTx tx_unknown) w).2 in
  store_wf w /\ book_valid w /\
  peers w !! 0%nat = Some established /\
  exists p', peers w' !! 0%nat = Some p' /\
    (Peer.misbehaviorScore p' = Peer.misbehaviorScore established \/
     Peer.misbehaviorScore p' = Peer.misbehaviorScore established + 1).
Proof.
  intros w w'.
  pose proof (world_of_wf established) as Hwf.
  pose proof (world_of_valid established) as Hbv.
  assert (Hp : peers w !! 0%nat = Some established) by reflexivity.
  split; [exact Hwf|]. split; [exact Hbv|]. split; [exact Hp|].
  exact (proj1 (a_message_costs_at_most_one_point Crypto_address node w 0%nat
                  established (MsgTx tx_unknown) Hwf Hbv Hp)).
Defined.

(** Three unhandled messages from a fully connected peer. *)
Lemma unhandled_stream_accumulates_witness :
  let w := world_of established in
  peers w !! 0%nat = Some established /\
  Peer.fullyConnected established = true /\
  Forall unhandled junk /\
  exists p',
    peers (feed Crypto_address node 0%nat junk w) !! 0%nat = Some p' /\
    Peer.misbehaviorScore p' = 3.
Proof.
  intros w.
  assert (Hp : peers w !! 0%nat = Some established) by reflexivity.
  assert (Hf : Peer.fullyConnected established = true) by reflexivity.
  assert (Hj : Forall unhandled junk)
    by (repeat constructor; discriminate).
  destruct (unhandled_stream_accumulates Crypto_address node junk w 0%nat
              established Hp Hf Hj) as (p' & Hp' & Hs & _).
  split; [exact Hp|]. split; [exact Hf|]. split; [exact Hj|].
  exists p'. split; [exact Hp' | exact Hs].
Defined.

(** An 'addr' message with a new address and the sender's own. *)
Lemma addr_teaches_the_book_witness :
  let w := world_of established in
  let l := [info "10.0.0.7"; info "10.0.0.2"] in
  let out := run (MsgAddr 2 l) w in
  store_wf w /\ book_valid w /\
  peers w !! 0%nat = Some established /\
  Peer.fullyConnected established = true /\
  out.1 = Normal tt /\
  (forall i, i ∈ l -> knows i out.2) /\
  trace out.2 = trace w.
Proof.
  intros w l out.
  pose proof (world_of_wf established) as Hwf.
  pose proof (world_of_valid established) as Hbv.
  assert (Hp : peers w !! 0%nat = Some established) by reflexivity.
  assert (Hf : Peer.fullyConnected established = true) by reflexivity.
  destruct (addr_teaches_the_book Crypto_address node w 0%nat established 2 l
              Hwf Hbv Hp Hf) as (Hres & Hk & _ & Ht & _).
  split; [exact Hwf|]. split; [exact Hbv|]. split; [exact Hp|].
  split; [exact Hf|]. split; [exact Hres|]. split; [exact Hk | exact Ht].
Defined.

Lemma mixed_world_valid : book_valid mixed_world.
Proof.
  intros a r H. simpl in *.
  apply lookup_insert_Some in H as [[_ <-]|[_ H]].
  - rewrite lookup_insert_eq. eauto.
  - apply lookup_singleton_Some in H as [_ <-].
    rewrite lookup_insert_ne by discriminate.
    rewrite lookup_singleton_eq. eauto.
Qed.

(** A book with one plain node and one witness. *)
Lemma best_peers_prefer_witnesses_witness :
  book_valid mixed_world /\
  exists best,
    Node._findBestPeers node_service witness_service mixed_world
    = (Normal best, mixed_world) /\
    (forall r, r ∈ best <-> serves witness_service mixed_world r).
Proof.
  pose proof mixed_world_valid as Hbv.
  destruct (best_peers_prefer_witnesses node_service witness_service
              mixed_world Hbv) as (best & Hrun & Hw & _).
  split; [exact Hbv|]. exists best. split; [exact Hrun|].
  apply Hw. exists 1%nat, "10.0.0.3", (Peer.ofPeerInfo (witness_info "10.0.0.3")).
  repeat split.
Defined.

(** The same two entries, sent twice. *)
Lemma addr_replay_changes_nothing_witness :
  let w := world_of established in
  let l := [info "10.0.0.7"; info "10.0.0.2"] in
  let w1 := (run (MsgAddr 2 l) w).2 in
  store_wf w /\ book_valid w /\
  peers w !! 0%nat = Some established /\
  Peer.fullyConnected established = true /\
  Node._incomingMessage Crypto_address node 0%nat (MsgAddr 7 l) w1
  = (Normal tt, w1).
Proof.
  intros w l w1.
  pose proof (world_of_wf established) as Hwf.
  pose proof (world_of_valid established) as Hbv.
  assert (Hp : peers w !! 0%nat = Some established) by reflexivity.
  assert (Hf : Peer.fullyConnected established = true) by reflexivity.
  split; [exact Hwf|]. split; [exact Hbv|]. split; [exact Hp|].
  split; [exact Hf|].
  exact (addr_replay_changes_nothing Crypto_address node w 0%nat established
           2 7 l Hwf Hbv Hp Hf).
Defined.

(** Two messages of the peer and one connection from elsewhere. *)
Lemma score_bounded_by_own_messages_witness :
  let w := world_of newcomer in
  store_wf w /\ book_valid w /\
  peers w !! 0%nat = Some newcomer /\
  deliveries 0%nat session = 2%nat /\
  exists p',
    peers (run_inputs reject_code Crypto_address node session w) !! 0%nat
    = Some p' /\
    Peer.misbehaviorScore newcomer <= Peer.misbehaviorScore p'
    <= Peer.misbehaviorScore newcomer + Z.of_nat (deliveries 0%nat session).
Proof.
  intros w.
  pose proof (world_of_wf newcomer) as Hwf.
  pose proof (world_of_valid newcomer) as Hbv.
  assert (Hp : peers w !! 0%nat = Some newcomer) by reflexivity.
  split; [exact Hwf|]. split; [exact Hbv|]. split; [exact Hp|].
  split; [reflexivity|].
  exact (score_bounded_by_own_messages reject_code Crypto_address node session
           w 0%nat newcomer Hwf Hbv Hp).
Defined.
